(** * NOT_STISLA: anchor-table interpolation search over sorted int64 arrays

    A shallow embedding of [src/src/not_stisla.c] and the properties of the
    search engine: the chunked scan, the anchor locator, the interpolator,
    the bounded local search, the learning policy and the search entry
    point with its table life cycle.

    Conventions of the embedding.
    - [size_t] and [int64_t] values are integers of [Z]; every C operation
      that can leave the type's range is followed by its wrap-around
      ([u64], [s64], [s128]).
    - An array is the list of the cells of the memory object; a call
      receives the list and the count [n] of cells that the caller passes,
      which is the whole list ([len arr]) or a prefix of it.  A read or
      write outside the list is undefined behaviour in C; the embedding
      returns [None] there, and [Some _] for every execution that is
      defined.
    - Memory obtained from [malloc]/[realloc] has indeterminate contents:
      the allocator's behaviour during a call is a parameter ([heap]). *)

From Stdlib Require Import ZArith Lia Bool.
From stdpp Require Import base tactics option list.

Local Open Scope Z_scope.

(** ** Machine integers *)

Definition u64 (x : Z) : Z := x mod 2 ^ 64.
Definition s64 (x : Z) : Z := (x + 2 ^ 63) mod 2 ^ 64 - 2 ^ 63.
Definition s128 (x : Z) : Z := (x + 2 ^ 127) mod 2 ^ 128 - 2 ^ 127.

Definition INT64_MIN : Z := - 2 ^ 63.
Definition INT64_MAX : Z := 2 ^ 63 - 1.
Definition SIZE_MAX : Z := 2 ^ 64 - 1.

(** [#define NOT_STISLA_NOT_FOUND ((not_stisla_result_t)-1)] *)
Definition NOT_STISLA_NOT_FOUND : Z := u64 (-1).

Definition NOT_STISLA_DEFAULT_TOLERANCE : Z := 8.
Definition NOT_STISLA_MAX_ANCHORS : Z := 16.
Definition NOT_STISLA_CHUNK_SIZE : Z := 4.

Definition NOT_STISLA_WORKLOAD_TELEMETRY : Z := 0.
Definition NOT_STISLA_WORKLOAD_IDS : Z := 1.
Definition NOT_STISLA_WORKLOAD_OFFSETS : Z := 2.
Definition NOT_STISLA_WORKLOAD_EVENTS : Z := 3.

(** ** Memory reads and writes *)

(** [a[k]] as an rvalue: defined only inside the block. *)
Definition load {A : Type} (a : list A) (k : Z) : option A :=
  if k <? 0 then None else a !! Z.to_nat k.

(** [a[k] = x]: defined only inside the block. *)
Definition store {A : Type} (a : list A) (k : Z) (x : A) : option (list A) :=
  if (0 <=? k) && (k <? Z.of_nat (length a))
  then Some (<[Z.to_nat k := x]> a) else None.

(** ascending order of an int64 array, as the search requires of its input *)
Definition sorted (arr : list Z) : Prop :=
  ∀ (p q : nat) (x y : Z), (p ≤ q)%nat → arr !! p = Some x → arr !! q = Some y → x <= y.

(** the executable check that neighbours are related by [R] *)
Fixpoint chainb {A : Type} (R : A → A → bool) (l : list A) : bool :=
  match l with
  | [] => true
  | x :: r => match r with
              | [] => true
              | y :: _ => R x y && chainb R r
              end
  end.

Definition sortedb (arr : list Z) : bool := chainb Z.leb arr.

(** ** ChunkedScan: [not_stisla_chunked_search] *)

(** [for (i = start; i < n; ++i) if (arr[i] == key) return i;] with
    [iters = n - start] iterations left.  [Some (Some i)]: the loop
    returned [i]; [Some None]: it ran to its end. *)
Fixpoint scan_loop (arr : list Z) (key : Z) (i : Z) (iters : nat) : option (option Z) :=
  match iters with
  | O => Some None
  | S k =>
      x ← load arr i;
      if x =? key then Some (Some i) else scan_loop arr key (i + 1) k
  end.

(** [for (i = 0; i < 4; ++i) if (cmp_results[i]) return base + i;] *)
Fixpoint first_set (cmp_results : list bool) (i : Z) : option Z :=
  match cmp_results with
  | [] => None
  | c :: r => if c then Some i else first_set r (i + 1)
  end.

(** the loop over full chunks, [iters = full_chunks - chunk] iterations left *)
Fixpoint chunk_loop (arr : list Z) (key : Z) (chunk : Z) (iters : nat) : option (option Z) :=
  match iters with
  | O => Some None
  | S k =>
      let base := chunk * NOT_STISLA_CHUNK_SIZE in
      c0 ← load arr base;
      c1 ← load arr (base + 1);
      c2 ← load arr (base + 2);
      c3 ← load arr (base + 3);
      let cmp_results := [c0 =? key; c1 =? key; c2 =? key; c3 =? key] in
      match first_set cmp_results 0 with
      | Some i => Some (Some (base + i))
      | None => chunk_loop arr key (chunk + 1) k
      end
  end.

Definition not_stisla_chunked_search (arr : list Z) (n key : Z) : option Z :=
  if n <=? NOT_STISLA_CHUNK_SIZE then
    r ← scan_loop arr key 0 (Z.to_nat n);
    Some (default NOT_STISLA_NOT_FOUND r)
  else
    let full_chunks := n / NOT_STISLA_CHUNK_SIZE in
    r ← chunk_loop arr key 0 (Z.to_nat full_chunks);
    match r with
    | Some i => Some i
    | None =>
        let remainder_start := full_chunks * NOT_STISLA_CHUNK_SIZE in
        r' ← scan_loop arr key remainder_start (Z.to_nat (n - remainder_start));
        Some (default NOT_STISLA_NOT_FOUND r')
    end.

(** The reference of the specification: a linear scan that returns the
    first matching index, or [NOT_FOUND] if no element equals the key. *)
Fixpoint first_index (l : list Z) (key : Z) (i : Z) : option Z :=
  match l with
  | [] => None
  | x :: r => if x =? key then Some i else first_index r key (i + 1)
  end.

Definition linear_scan (arr : list Z) (n key : Z) : Z :=
  default NOT_STISLA_NOT_FOUND (first_index (take (Z.to_nat n) arr) key 0).

(** ** Anchors, the anchor table and the allocator *)

(** [not_stisla_anchor_t] *)
Record not_stisla_anchor := { v : Z; i : Z }.

(** [struct not_stisla_anchor_table].  [anchors] is the allocated block of
    anchor cells, cell by cell, whatever they hold; the cells in use are the
    first [size].  The C field [capacity] counts the cells of the block: it
    is the length of the list. *)
Record not_stisla_anchor_table := {
  anchors : list not_stisla_anchor;
  size : Z;
  searches_performed : Z;
  workload_type : Z
}.

Definition capacity (t : not_stisla_anchor_table) : Z := Z.of_nat (length (anchors t)).

(** How the allocator behaves during one call: whether [malloc] and
    [realloc] succeed, and what the cells of fresh memory hold. *)
Record heap := {
  malloc_ok : bool;
  realloc_ok : bool;
  garbage : nat → not_stisla_anchor
}.

Definition fresh (h : heap) (cnt : nat) : list not_stisla_anchor := garbage h <$> seq 0 cnt.

(** [realloc(blk, new_cap * sizeof(not_stisla_anchor_t))] when it succeeds:
    the old cells are kept, the new ones are indeterminate. *)
Definition realloc_block (h : heap) (blk : list not_stisla_anchor) (new_cap : Z)
  : list not_stisla_anchor :=
  take (Z.to_nat new_cap) (blk ++ fresh h (Z.to_nat new_cap)).

(** the anchor sequence of a table: the cells in use *)
Definition anchor_seq (t : not_stisla_anchor_table) : list not_stisla_anchor :=
  take (Z.to_nat (size t)) (anchors t).

Definition strictly_ascending (l : list not_stisla_anchor) : Prop :=
  ∀ (p q : nat) (a b : not_stisla_anchor),
    (p < q)%nat → l !! p = Some a → l !! q = Some b → v a < v b.

Definition ascending (l : list not_stisla_anchor) : Prop :=
  ∀ (p q : nat) (a b : not_stisla_anchor),
    (p ≤ q)%nat → l !! p = Some a → l !! q = Some b → v a <= v b.

Definition strictly_ascendingb (l : list not_stisla_anchor) : bool :=
  chainb (λ a b, v a <? v b) l.

Definition ascendingb (l : list not_stisla_anchor) : bool :=
  chainb (λ a b, v a <=? v b) l.

(** ** AnchorLocator: [not_stisla_anchor_lower] *)

(** [while (lo + 1 < hi) { mid = lo + ((hi - lo) >> 1); ... }];
    [fuel] bounds the iterations, [hi - lo] of them are never needed. *)
Fixpoint anchor_lower_loop (a : list not_stisla_anchor) (x lo hi : Z) (fuel : nat)
  : option Z :=
  match fuel with
  | O => None
  | S k =>
      if lo + 1 <? hi then
        let mid := lo + Z.shiftr (hi - lo) 1 in
        am ← load a mid;
        if v am <=? x then anchor_lower_loop a x mid hi k
        else anchor_lower_loop a x lo mid k
      else Some lo
  end.

Definition not_stisla_anchor_lower (t : not_stisla_anchor_table) (x : Z) : option Z :=
  if size t =? 0 then Some 0 else
  let lo := 0 in
  let hi := size t - 1 in
  if hi - lo =? 0 then
    a0 ← load (anchors t) lo;
    Some (if v a0 <=? x then lo else 0)
  else if hi - lo =? 1 then
    a0 ← load (anchors t) lo;
    if v a0 <=? x then
      a1 ← load (anchors t) hi;
      Some (if v a1 <=? x then hi else lo)
    else Some 0
  else if hi - lo =? 2 then
    a1 ← load (anchors t) (lo + 1);
    if v a1 <=? x then
      a2 ← load (anchors t) hi;
      Some (if v a2 <=? x then hi else lo + 1)
    else
      a0 ← load (anchors t) lo;
      if v a0 <=? x then Some lo else Some 0
  else
    anchor_lower_loop (anchors t) x lo hi (Z.to_nat (hi - lo)).

(** The contract of the locator in the specification's words: position [p]
    has [anchors[p].value <= key < anchors[p+1].value], or it is the last
    anchor's and the key is at or above every anchor value. *)
Definition lower_anchor_contract (t : not_stisla_anchor_table) (key p : Z) : Prop :=
  (∃ ap aq, load (anchors t) p = Some ap ∧ load (anchors t) (p + 1) = Some aq
            ∧ p + 1 < size t ∧ v ap <= key < v aq)
  ∨ (p = size t - 1 ∧ ∀ a, a ∈ anchor_seq t → v a <= key).

(** ** Interpolator: [not_stisla_interpolate] *)

(** The [__int128] intermediate values are written with their wrap-around;
    [/] on C integers truncates toward zero ([Z.quot]). *)
Definition not_stisla_interpolate (l_val r_val l_idx r_idx key : Z) : Z :=
  let span := u64 (r_idx - l_idx) in
  if r_val =? l_val then s64 l_idx else
  let key_offset := s128 (key - l_val) in
  let range := s128 (r_val - l_val) in
  if range =? 0 then s64 l_idx else
  let frac := s128 (Z.quot (s128 (key_offset * span)) range) in
  let result := s128 (l_idx + frac) in
  if result <? 0 then 0 else
  if u64 result >? r_idx then s64 r_idx else
  s64 result.

(** ** BoundedLocalSearch: [not_stisla_local_search] *)

(** [while (lo <= hi) { ... }]; [fuel] bounds the iterations. *)
Fixpoint local_search_loop (arr : list Z) (key lo hi : Z) (fuel : nat) : option Z :=
  match fuel with
  | O => None
  | S k =>
      if lo <=? hi then
        let mid := lo + Z.shiftr (hi - lo) 1 in
        val ← load arr mid;
        if val <? key then local_search_loop arr key (u64 (mid + 1)) hi k
        else if val >? key then
          if mid =? 0 then Some NOT_STISLA_NOT_FOUND
          else local_search_loop arr key lo (mid - 1) k
        else Some mid
      else Some NOT_STISLA_NOT_FOUND
  end.

Definition not_stisla_local_search (arr : list Z) (lo hi key : Z) : option Z :=
  if lo >=? hi then Some NOT_STISLA_NOT_FOUND else
  al ← load arr lo;
  if al >? key then Some NOT_STISLA_NOT_FOUND else
  ah ← load arr hi;
  if ah <? key then Some NOT_STISLA_NOT_FOUND else
  local_search_loop arr key lo hi (S (Z.to_nat (hi - lo + 1))).

(** ** Learning Policy: [not_stisla_learn_anchor] *)

(** the [switch] on the workload type *)
Definition max_anchors_for (workload : Z) : Z :=
  if workload =? NOT_STISLA_WORKLOAD_TELEMETRY then 12
  else if workload =? NOT_STISLA_WORKLOAD_IDS then 8
  else if workload =? NOT_STISLA_WORKLOAD_OFFSETS then 20
  else if workload =? NOT_STISLA_WORKLOAD_EVENTS then 16
  else NOT_STISLA_MAX_ANCHORS.

(** [while (pos < table->size && table->anchors[pos].v < value) ++pos;] *)
Fixpoint insertion_point (a : list not_stisla_anchor) (sz value pos : Z) (fuel : nat)
  : option Z :=
  match fuel with
  | O => None
  | S k =>
      if pos <? sz then
        ap ← load a pos;
        if v ap <? value then insertion_point a sz value (pos + 1) k
        else Some pos
      else Some pos
  end.

(** [memmove(&a[pos + 1], &a[pos], cnt * sizeof(not_stisla_anchor_t))] *)
Definition memmove_up (a : list not_stisla_anchor) (pos cnt : Z)
  : option (list not_stisla_anchor) :=
  if (0 <=? pos) && (0 <=? cnt) && (pos + 1 + cnt <=? Z.of_nat (length a)) then
    Some (take (Z.to_nat (pos + 1)) a
          ++ take (Z.to_nat cnt) (drop (Z.to_nat pos) a)
          ++ drop (Z.to_nat (pos + 1 + cnt)) a)
  else None.

(** The table is the caller's (non-null) table. *)
Definition not_stisla_learn_anchor (h : heap) (t : not_stisla_anchor_table)
    (value index pred tol : Z) : option not_stisla_anchor_table :=
  let pred_diff := if pred >? index then pred - index else index - pred in
  if pred_diff <=? tol then Some t else
  let max_anchors := max_anchors_for (workload_type t) in
  if size t >=? max_anchors then Some t else
  let grown :=
    if size t >=? capacity t then
      let new_cap := if capacity t =? 0 then 8 else u64 (capacity t * 2) in
      if realloc_ok h then Some (realloc_block h (anchors t) new_cap) else None
    else Some (anchors t) in
  match grown with
  | None => Some t
  | Some blk =>
      pos ← insertion_point blk (size t) value 0 (S (Z.to_nat (size t)));
      moved ← (if pos <? size t then memmove_up blk pos (size t - pos) else Some blk);
      blk' ← store moved pos {| v := value; i := index |};
      Some {| anchors := blk';
              size := u64 (size t + 1);
              searches_performed := searches_performed t;
              workload_type := workload_type t |}
  end.

(** ** SearchEngine: [not_stisla_search] *)

(** the table built on the stack when the caller passes [NULL] *)
Definition local_table : not_stisla_anchor_table :=
  {| anchors := []; size := 0; searches_performed := 0; workload_type := -1 |}.

(** "Initialize endpoints if needed".  [Some None]: [malloc] failed. *)
Definition init_endpoints (h : heap) (arr : list Z) (n : Z) (t : not_stisla_anchor_table)
  : option (option not_stisla_anchor_table) :=
  if size t =? 0 then
    let block :=
      if capacity t =? 0 then (if malloc_ok h then Some (fresh h 2) else None)
      else Some (anchors t) in
    match block with
    | None => Some None
    | Some blk =>
        first ← load arr 0;
        blk1 ← store blk 0 {| v := first; i := 0 |};
        last ← load arr (n - 1);
        blk2 ← store blk1 1 {| v := last; i := n - 1 |};
        Some (Some {| anchors := blk2;
                      size := 2;
                      searches_performed := searches_performed t;
                      workload_type := workload_type t |})
    end
  else Some (Some t).

(** steps 1 to 3 on the active table: the prediction and the result of the
    local search *)
Definition predict_and_search (arr : list Z) (key tol : Z) (active : not_stisla_anchor_table)
  : option (Z * Z) :=
  a_idx ← not_stisla_anchor_lower active key;
  l ← load (anchors active) a_idx;
  r ← load (anchors active) (a_idx + 1);
  let pred := u64 (not_stisla_interpolate (v l) (v r) (i l) (i r) key) in
  let lo := if pred >? tol then pred - tol else i l in
  let lo := if lo >? i l then lo else i l in
  let hi := u64 (pred + tol) in
  let hi := if hi <? i r then hi else i r in
  let '(lo, hi) := if lo >? hi then (i l, i r) else (lo, hi) in
  result ← not_stisla_local_search arr lo hi key;
  Some (pred, result).

(** [table->searches_performed++] *)
Definition bump_searches (t : not_stisla_anchor_table) : not_stisla_anchor_table :=
  {| anchors := anchors t;
     size := size t;
     searches_performed := u64 (searches_performed t + 1);
     workload_type := workload_type t |}.

(** [arr] is a non-null pointer to the cells of the list; [table = None] is
    the [NULL] table.  The result is the returned index and the caller's
    table after the call. *)
Definition not_stisla_search (h : heap) (arr : list Z) (n key : Z)
    (table : option not_stisla_anchor_table) (tol : Z)
  : option (Z * option not_stisla_anchor_table) :=
  if n =? 0 then Some (NOT_STISLA_NOT_FOUND, table) else
  if n <? 32 then
    r ← not_stisla_chunked_search arr n key;
    Some (r, table)
  else
    seeded ← init_endpoints h arr n (default local_table table);
    match seeded with
    | None => Some (NOT_STISLA_NOT_FOUND, table)
    | Some active =>
        '(pred, result) ← predict_and_search arr key tol active;
        match table with
        | None => Some (result, None)
        | Some _ =>
            if result =? NOT_STISLA_NOT_FOUND then Some (result, Some active)
            else
              found ← load arr result;
              learned ← not_stisla_learn_anchor h active found result pred tol;
              Some (result, Some (bump_searches learned))
        end
    end.

(** ** Public API *)

(** [calloc] of the table and [malloc] of its eight cells; [None] is the
    [NULL] returned when the allocation fails. *)
Definition not_stisla_anchor_table_create (h : heap) : option not_stisla_anchor_table :=
  if malloc_ok h then
    Some {| anchors := fresh h 8; size := 0; searches_performed := 0; workload_type := -1 |}
  else None.

Definition not_stisla_anchor_table_size (table : option not_stisla_anchor_table) : Z :=
  match table with
  | Some t => size t
  | None => 0
  end.

Definition not_stisla_anchor_table_reset (t : not_stisla_anchor_table) : not_stisla_anchor_table :=
  {| anchors := anchors t;
     size := 0;
     searches_performed := 0;
     workload_type := workload_type t |}.

Definition not_stisla_init_for_dsmil (t : not_stisla_anchor_table) (workload : Z)
  : bool * not_stisla_anchor_table :=
  (true,
   not_stisla_anchor_table_reset
     {| anchors := anchors t;
        size := size t;
        searches_performed := searches_performed t;
        workload_type := workload |}).

(** The loop of [not_stisla_batch_search], for non-null [arr], [keys] and
    [results]: [hs k] is the allocator during the search of [keys[k]].  The
    result is the [results] array, [found] and the caller's table. *)
Fixpoint batch_loop (hs : nat → heap) (arr : list Z) (n : Z) (keys : list Z)
    (idx : nat) (iters : nat) (table : option not_stisla_anchor_table) (tol : Z)
  : option (list Z * Z * option not_stisla_anchor_table) :=
  match iters with
  | O => Some ([], 0, table)
  | S k =>
      key ← keys !! idx;
      '(r, table') ← not_stisla_search (hs idx) arr n key table tol;
      '(rs, found, table'') ← batch_loop hs arr n keys (S idx) k table' tol;
      Some (r :: rs, (if r =? NOT_STISLA_NOT_FOUND then 0 else 1) + found, table'')
  end.

Definition not_stisla_batch_search (hs : nat → heap) (arr : list Z) (n : Z) (keys : list Z)
    (num_keys : Z) (table : option not_stisla_anchor_table) (tol : Z)
  : option (list Z * Z * option not_stisla_anchor_table) :=
  if num_keys =? 0 then Some ([], 0, table)
  else batch_loop hs arr n keys 0 (Z.to_nat num_keys) table tol.

Definition not_stisla_search_telemetry h timestamps n target_time table :=
  not_stisla_search h timestamps n target_time table 12.
Definition not_stisla_search_ids h ids n target_id table :=
  not_stisla_search h ids n target_id table 6.
Definition not_stisla_search_offsets h offsets n target_offset table :=
  not_stisla_search h offsets n target_offset table 16.
Definition not_stisla_search_events h events n target_time table :=
  not_stisla_search h events n target_time table 10.

(** [not_stisla_get_stats]: the three values written through the output
    pointers.  [sizeof(not_stisla_anchor_t)] is 16 and
    [sizeof(not_stisla_anchor_table_t)] is 40 on the LP64 targets the
    library is built for. *)
Definition sizeof_anchor : Z := 16.
Definition sizeof_anchor_table : Z := 40.

Definition not_stisla_get_stats (table : option not_stisla_anchor_table) : Z * Z * Z :=
  match table with
  | Some t => (searches_performed t, size t,
               u64 (u64 (capacity t * sizeof_anchor) + sizeof_anchor_table))
  | None => (0, 0, 0)
  end.

(** ** The benchmark's reference search and data: [benchmarks/dsmil_benchmark.c] *)

(** [while (lo < hi) { ... }] of [bin_search]; [mid + 1 <= hi] needs no
    wrap-around. *)
Fixpoint bin_search_loop (arr : list Z) (key lo hi : Z) (fuel : nat) : option Z :=
  match fuel with
  | O => None
  | S k =>
      if lo <? hi then
        let mid := lo + Z.shiftr (hi - lo) 1 in
        x ← load arr mid;
        if x <? key then bin_search_loop arr key (mid + 1) hi k
        else if x >? key then bin_search_loop arr key lo mid k
        else Some mid
      else Some SIZE_MAX
  end.

Definition bin_search (arr : list Z) (n key : Z) : option Z :=
  bin_search_loop arr key 0 n (S (Z.to_nat n)).

(** [for (i = 0; i < n; ++i) arr[i] = (int64_t)i * 2;] *)
Fixpoint generate_loop (arr : list Z) (idx : Z) (iters : nat) : option (list Z) :=
  match iters with
  | O => Some arr
  | S k =>
      arr' ← store arr idx (s64 (s64 idx * 2));
      generate_loop arr' (idx + 1) k
  end.

Definition generate_test_data (arr : list Z) (n : Z) : option (list Z) :=
  generate_loop arr 0 (Z.to_nat n).

(** the even numbers [0, 2, ..., 2 (n - 1)] *)
Definition evens (n : nat) : list Z := (λ k, 2 * Z.of_nat k) <$> seq 0 n.

(** ** Histories of a table *)

(** The public operations a caller applies to a table it created. *)
Inductive op :=
| OpReset
| OpInit (workload : Z)
| OpSearch (h : heap) (arr : list Z) (key tol : Z)
| OpBatch (hs : nat → heap) (arr : list Z) (keys : list Z) (tol : Z).

Definition len (arr : list Z) : Z := Z.of_nat (length arr).

Definition step (o : op) (t : not_stisla_anchor_table) : option not_stisla_anchor_table :=
  match o with
  | OpReset => Some (not_stisla_anchor_table_reset t)
  | OpInit w => Some (snd (not_stisla_init_for_dsmil t w))
  | OpSearch h arr key tol =>
      '(_, t') ← not_stisla_search h arr (len arr) key (Some t) tol; t'
  | OpBatch hs arr keys tol =>
      '(_, _, t') ← not_stisla_batch_search hs arr (len arr) keys (len keys) (Some t) tol; t'
  end.

Fixpoint run (ops : list op) (t : not_stisla_anchor_table) : option not_stisla_anchor_table :=
  match ops with
  | [] => Some t
  | o :: rest => t' ← step o t; run rest t'
  end.

(** every array searched in the history is sorted ascending *)
Definition op_sorted (o : op) : bool :=
  match o with
  | OpSearch _ arr _ _ | OpBatch _ arr _ _ => sortedb arr
  | _ => true
  end.

(** the anchor count is inside the cap of the table's workload type *)
Definition within_cap (t : not_stisla_anchor_table) : Prop :=
  0 <= size t <= max_anchors_for (workload_type t).

(** the cells in use exist, and their values ascend (duplicates allowed) *)
Definition well_formed (t : not_stisla_anchor_table) : Prop :=
  0 <= size t <= capacity t ∧ ascending (anchor_seq t).

(** the anchor count of the caller's table once a call on [n] elements has
    seeded it, before any learning *)
Definition seeded_size (n : Z) (t : not_stisla_anchor_table) : Z :=
  if (32 <=? n) && (size t =? 0) then 2 else size t.

(** The interpolated index over the integers, before any clamp and without
    the bounds of [__int128]:
    [l_idx + (key - l_val) * (r_idx - l_idx) / (r_val - l_val)], the
    division truncating toward zero. *)
Definition interpolate_unclamped (l_val r_val l_idx r_idx key : Z) : Z :=
  l_idx + Z.quot ((key - l_val) * (r_idx - l_idx)) (r_val - l_val).

(** its clamp into [0, r_idx] *)
Definition interpolate_clamped (l_val r_val l_idx r_idx key : Z) : Z :=
  if r_val =? l_val then l_idx else
  let result := interpolate_unclamped l_val r_val l_idx r_idx key in
  if result <? 0 then 0 else
  if result >? r_idx then r_idx else result.

(** the same with the [(size_t)] conversion that the code applies to the
    result before it compares it with [r_idx]; the conversion wraps from
    2^64 on *)
Definition interpolate_converted (l_val r_val l_idx r_idx key : Z) : Z :=
  if r_val =? l_val then l_idx else
  let result := interpolate_unclamped l_val r_val l_idx r_idx key in
  if result <? 0 then 0 else
  if u64 result >? r_idx then r_idx else u64 result.

(** the window of step 3 of [not_stisla_search], from the bounding anchors,
    the prediction and the tolerance *)
Definition search_window (l r : not_stisla_anchor) (pred tol : Z) : Z * Z :=
  let lo := if pred >? tol then pred - tol else i l in
  let lo := if lo >? i l then lo else i l in
  let hi := u64 (pred + tol) in
  let hi := if hi <? i r then hi else i r in
  if lo >? hi then (i l, i r) else (lo, hi).

(** the table holds the two endpoint anchors of [arr] and nothing else *)
Definition seeded_on (arr : list Z) (t : not_stisla_anchor_table) : Prop :=
  ∃ first last,
    load arr 0 = Some first ∧ load arr (len arr - 1) = Some last
    ∧ size t = 2
    ∧ load (anchors t) 0 = Some {| v := first; i := 0 |}
    ∧ load (anchors t) 1 = Some {| v := last; i := len arr - 1 |}.

(** the table is empty or holds the endpoint anchors of [arr] only *)
Definition unlearned (arr : list Z) (t : not_stisla_anchor_table) : Prop :=
  size t = 0 ∨ seeded_on arr t.

(** the operation searches [arr] (if it searches), with a tolerance that
    is a [size_t] *)
Definition op_on (arr : list Z) (o : op) : bool :=
  match o with
  | OpSearch _ a _ tol | OpBatch _ a _ tol =>
      bool_decide (a = arr) && (0 <=? tol) && (tol <? 2 ^ 64)
  | _ => true
  end.

(** every key the operation searches for is below [last] *)
Definition op_below (last : Z) (o : op) : bool :=
  match o with
  | OpSearch _ _ key _ => key <? last
  | OpBatch _ _ keys _ => forallb (λ key, key <? last) keys
  | _ => true
  end.

(** the block has 8, 16 or 32 cells, the anchors in use lie inside it and
    respect the workload's cap *)
Definition block_ok (t : not_stisla_anchor_table) : Prop :=
  (capacity t = 8 ∨ capacity t = 16 ∨ capacity t = 32)
  ∧ 0 <= size t <= capacity t
  ∧ size t <= max_anchors_for (workload_type t).


(** ** Concrete data used in the examples *)

Definition zero_anchor : not_stisla_anchor := {| v := 0; i := 0 |}.

(** an allocator that succeeds and hands out zero-filled memory *)
Definition calm : heap :=
  {| malloc_ok := true; realloc_ok := true; garbage := λ _, zero_anchor |}.

Definition zeroed_table : not_stisla_anchor_table :=
  {| anchors := fresh calm 8; size := 0; searches_performed := 0; workload_type := -1 |}.

(** an allocator whose fresh memory holds what earlier users left there *)
Definition stale : heap :=
  {| malloc_ok := true;
     realloc_ok := true;
     garbage := λ k, match k with
                     | 2%nat => {| v := 0; i := 63 |}
                     | 3%nat => {| v := 200; i := 63 |}
                     | _ => zero_anchor
                     end |}.

Definition table_of (l : list not_stisla_anchor) : not_stisla_anchor_table :=
  {| anchors := l ++ [zero_anchor];
     size := Z.of_nat (length l);
     searches_performed := 0;
     workload_type := -1 |}.

Definition two_anchors : not_stisla_anchor_table :=
  table_of [ {| v := 10; i := 0 |}; {| v := 20; i := 31 |} ].

Definition four_anchors : not_stisla_anchor_table :=
  table_of [ {| v := 0; i := 0 |}; {| v := 10; i := 1 |};
             {| v := 20; i := 2 |}; {| v := 30; i := 3 |} ].

(** [0, 1, ..., 30, 1000]: sorted, 32 elements, far from linear *)
Definition skewed : list Z := (Z.of_nat <$> seq 0 31) ++ [1000].

(** [0, 1, ..., 31] *)
Definition ramp : list Z := Z.of_nat <$> seq 0 32.

(** [0, 1, ..., 99] *)
Definition ramp100 : list Z := Z.of_nat <$> seq 0 100.

(** [0, 1, ..., 30] and then 33 times 100: sorted, 64 elements *)
Definition plateau : list Z := (Z.of_nat <$> seq 0 31) ++ replicate 33 100.

(** 32 equal elements *)
Definition flat : list Z := replicate 32 7.


(** a history of a table: configured for ids, seeded on [ramp], then a
    batch on [plateau] *)
Definition history : list op :=
  [ OpInit NOT_STISLA_WORKLOAD_IDS;
    OpSearch calm ramp 5 8;
    OpBatch (λ _, calm) plateau [100; 100; 7] 8 ].

Definition after_history : not_stisla_anchor_table :=
  default zeroed_table (t0 ← not_stisla_anchor_table_create stale; run history t0).

(** the same history followed by a reset and a search *)
Definition after_history_reset : not_stisla_anchor_table :=
  default zeroed_table (run [OpReset; OpSearch calm ramp 5 8] after_history).

(** a history on the one array [plateau], started in stale memory *)
Definition plateau_history : list op :=
  [ OpSearch calm plateau 100 8;
    OpBatch (λ _, calm) plateau [5; 100; 7; 30] 0;
    OpReset;
    OpSearch calm plateau 3 1000;
    OpSearch calm plateau 100 3 ].

Definition after_plateau_history : not_stisla_anchor_table :=
  default zeroed_table (t0 ← not_stisla_anchor_table_create stale; run plateau_history t0).

(** * Properties *)

(** ** Reads, writes and machine integers *)

(** unfold one step of the option monad, and nothing else *)
Ltac obind := cbn [mbind option_bind].

Lemma load_Some {A : Type} (a : list A) (k : Z) (x : A) :
  load a k = Some x ↔ 0 <= k ∧ a !! Z.to_nat k = Some x.
Proof.
  unfold load. destruct (Z.ltb_spec k 0); split.
  - discriminate.
  - intros [? _]. lia.
  - auto.
  - tauto.
Qed.

Lemma load_in_range {A : Type} (a : list A) (k : Z) (x : A) :
  load a k = Some x → 0 <= k < Z.of_nat (length a).
Proof.
  intros [H0 H]%load_Some. apply lookup_lt_Some in H. lia.
Qed.

Lemma load_nat {A : Type} (a : list A) (k : nat) : load a (Z.of_nat k) = a !! k.
Proof.
  unfold load. destruct (Z.ltb_spec (Z.of_nat k) 0); [lia|]. by rewrite Nat2Z.id.
Qed.

Lemma load_middle {A : Type} (pre post : list A) (x : A) :
  load (pre ++ x :: post) (Z.of_nat (length pre)) = Some x.
Proof. rewrite load_nat. apply list_lookup_middle. reflexivity. Qed.

Lemma NOT_FOUND_value : NOT_STISLA_NOT_FOUND = 2 ^ 64 - 1.
Proof. reflexivity. Qed.

Lemma u64_small (x : Z) : 0 <= x < 2 ^ 64 → u64 x = x.
Proof. intros. unfold u64. apply Z.mod_small. lia. Qed.

Lemma u64_range (x : Z) : 0 <= u64 x < 2 ^ 64.
Proof. unfold u64. apply Z.mod_pos_bound. lia. Qed.

Lemma s64_small (x : Z) : - 2 ^ 63 <= x < 2 ^ 63 → s64 x = x.
Proof. intros. unfold s64. rewrite Z.mod_small; lia. Qed.

Lemma s128_small (x : Z) : - 2 ^ 127 <= x < 2 ^ 127 → s128 x = x.
Proof. intros. unfold s128. rewrite Z.mod_small; lia. Qed.

Lemma shiftr1_half (d : Z) : Z.shiftr d 1 = d / 2.
Proof. rewrite Z.shiftr_div_pow2 by lia. reflexivity. Qed.

Lemma chainb_lookup {A : Type} (R : A → A → bool) (l : list A) :
  (∀ x y z, R x y = true → R y z = true → R x z = true) →
  chainb R l = true →
  ∀ (p q : nat) (a b : A), (p < q)%nat → l !! p = Some a → l !! q = Some b → R a b = true.
Proof.
  intros Htrans. induction l as [|x r IH]; intros Hc p q a b Hpq Hp Hq.
  - by rewrite lookup_nil in Hp.
  - assert (Hr : chainb R r = true ∧ ∀ y, r !! 0%nat = Some y → R x y = true).
    { cbn in Hc. destruct r as [|y r']; [split; [done|intros ? [=]]|].
      apply andb_true_iff in Hc as [H1 H2]. split; [done|]. by intros ? [= <-]. }
    destruct Hr as [Hr Hhd]. specialize (IH Hr).
    assert (Hall : ∀ (k : nat) y, r !! k = Some y → R x y = true).
    { intros k y Hk. destruct k as [|k]; [by apply Hhd|].
      destruct (r !! 0%nat) as [y0|] eqn:E0.
      - eapply Htrans; [by apply Hhd|]. eapply (IH 0%nat (S k)); [lia|done..].
      - apply lookup_ge_None in E0. apply lookup_lt_Some in Hk. lia. }
    destruct p as [|p], q as [|q]; simpl in *; try lia.
    + simplify_eq. eauto.
    + eapply IH; [|done..]. lia.
Qed.

Lemma sortedb_sorted (arr : list Z) : sortedb arr = true → sorted arr.
Proof.
  intros Hc p q x y Hpq Hp Hq. destruct (decide (p = q)) as [->|Hne].
  - simplify_eq. lia.
  - apply Z.leb_le. eapply (chainb_lookup Z.leb arr); [|done| |done..]; [|lia].
    intros ???. rewrite !Z.leb_le. lia.
Qed.

(** ** ChunkedScan *)

Lemma scan_loop_spec (key : Z) (l pre post : list Z) :
  scan_loop (pre ++ l ++ post) key (Z.of_nat (length pre)) (length l)
  = Some (first_index l key (Z.of_nat (length pre))).
Proof.
  revert pre. induction l as [|x r IH]; intros pre; [done|].
  cbn [scan_loop length first_index app].
  rewrite load_middle. cbn. destruct (x =? key); [done|].
  specialize (IH (pre ++ [x])).
  rewrite <- app_assoc, length_app in IH. cbn in IH.
  replace (Z.of_nat (length pre + 1)) with (Z.of_nat (length pre) + 1) in IH by lia.
  exact IH.
Qed.

Lemma chunk_loop_spec (key : Z) (k : nat) : ∀ (l pre post : list Z) (chunk : Z),
  length l = (4 * k)%nat → Z.of_nat (length pre) = chunk * 4 →
  chunk_loop (pre ++ l ++ post) key chunk k
  = Some (first_index l key (Z.of_nat (length pre))).
Proof.
  induction k as [|k IH]; intros l pre post chunk Hl Hpre.
  - destruct l; [done|discriminate].
  - destruct l as [|c0 [|c1 [|c2 [|c3 l]]]]; try (cbn in Hl; lia).
    cbn [chunk_loop]. unfold NOT_STISLA_CHUNK_SIZE. rewrite <- Hpre.
    assert (L0 : load (pre ++ (c0 :: c1 :: c2 :: c3 :: l) ++ post) (Z.of_nat (length pre))
                 = Some c0) by apply load_middle.
    assert (L1 : load (pre ++ (c0 :: c1 :: c2 :: c3 :: l) ++ post) (Z.of_nat (length pre) + 1)
                 = Some c1).
    { pose proof (load_middle (pre ++ [c0]) (c2 :: c3 :: l ++ post) c1) as H.
      rewrite <- app_assoc, length_app in H. cbn in H.
      replace (Z.of_nat (length pre + 1)) with (Z.of_nat (length pre) + 1) in H by lia.
      exact H. }
    assert (L2 : load (pre ++ (c0 :: c1 :: c2 :: c3 :: l) ++ post) (Z.of_nat (length pre) + 2)
                 = Some c2).
    { pose proof (load_middle (pre ++ [c0; c1]) (c3 :: l ++ post) c2) as H.
      rewrite <- app_assoc, length_app in H. cbn in H.
      replace (Z.of_nat (length pre + 2)) with (Z.of_nat (length pre) + 2) in H by lia.
      exact H. }
    assert (L3 : load (pre ++ (c0 :: c1 :: c2 :: c3 :: l) ++ post) (Z.of_nat (length pre) + 3)
                 = Some c3).
    { pose proof (load_middle (pre ++ [c0; c1; c2]) (l ++ post) c3) as H.
      rewrite <- app_assoc, length_app in H. cbn in H.
      replace (Z.of_nat (length pre + 3)) with (Z.of_nat (length pre) + 3) in H by lia.
      exact H. }
    rewrite L0, L1, L2, L3. cbn [mbind option_bind first_set first_index].
    destruct (c0 =? key); [f_equal; f_equal; lia|].
    destruct (c1 =? key); [f_equal; f_equal; lia|].
    destruct (c2 =? key); [f_equal; f_equal; lia|].
    destruct (c3 =? key); [f_equal; f_equal; lia|].
    specialize (IH l (pre ++ [c0; c1; c2; c3]) post (chunk + 1)).
    rewrite <- app_assoc, length_app in IH. cbn in IH.
    replace (Z.of_nat (length pre + 4)) with (Z.of_nat (length pre) + 1 + 1 + 1 + 1) in IH by lia.
    apply IH; [cbn in Hl; lia | lia].
Qed.

Lemma first_index_app (key : Z) (l1 l2 : list Z) (i0 : Z) :
  first_index (l1 ++ l2) key i0
  = match first_index l1 key i0 with
    | Some j => Some j
    | None => first_index l2 key (i0 + Z.of_nat (length l1))
    end.
Proof.
  revert i0. induction l1 as [|x r IH]; intros i0; cbn.
  - f_equal. lia.
  - destruct (x =? key); [done|]. rewrite IH. destruct (first_index r key (i0 + 1)); [done|].
    f_equal. lia.
Qed.

Lemma first_index_Some (key : Z) (l : list Z) (i0 j : Z) :
  first_index l key i0 = Some j →
  ∃ p : nat, j = i0 + Z.of_nat p ∧ l !! p = Some key
             ∧ ∀ q : nat, (q < p)%nat → l !! q ≠ Some key.
Proof.
  revert i0. induction l as [|x r IH]; intros i0; cbn; [discriminate|].
  destruct (Z.eqb_spec x key) as [->|Hne].
  - intros [= <-]. exists 0%nat. split; [lia|]. split; [done|]. intros; lia.
  - intros (p & -> & Hp & Hmin)%IH. exists (S p). split; [lia|]. split; [done|].
    intros [|q] Hq; cbn; [congruence|]. apply Hmin. lia.
Qed.

Lemma first_index_None (key : Z) (l : list Z) (i0 : Z) :
  first_index l key i0 = None → ∀ p : nat, l !! p ≠ Some key.
Proof.
  revert i0. induction l as [|x r IH]; intros i0; cbn.
  - intros _ p. by rewrite lookup_nil.
  - destruct (Z.eqb_spec x key) as [->|Hne]; [discriminate|].
    intros H [|p]; cbn; [congruence|]. eapply IH, H.
Qed.

Lemma chunked_search_linear (arr : list Z) (n key : Z) :
  n = len arr → not_stisla_chunked_search arr n key = Some (linear_scan arr n key).
Proof.
  intros ->. unfold not_stisla_chunked_search, linear_scan, len.
  rewrite Nat2Z.id, firstn_all.
  destruct (Z.leb_spec (Z.of_nat (length arr)) NOT_STISLA_CHUNK_SIZE) as [Hle|Hgt].
  - pose proof (scan_loop_spec key arr [] []) as H.
    change (Z.of_nat (length [])) with 0 in H. cbn [app] in H.
    rewrite app_nil_r in H. by rewrite H.
  - unfold NOT_STISLA_CHUNK_SIZE in *.
    set (fc := Z.of_nat (length arr) / 4).
    assert (Hfc : 0 <= fc ∧ fc * 4 <= Z.of_nat (length arr)).
    { unfold fc. split; [apply Z.div_pos; lia|].
      pose proof (Z.mul_div_le (Z.of_nat (length arr)) 4). lia. }
    set (l1 := take (Z.to_nat (fc * 4)) arr).
    set (l2 := drop (Z.to_nat (fc * 4)) arr).
    assert (Harr : arr = l1 ++ l2) by (symmetry; apply take_drop).
    assert (Hl1 : length l1 = Z.to_nat (fc * 4)) by (unfold l1; rewrite length_take; lia).
    assert (Hl2 : length l2 = Z.to_nat (Z.of_nat (length arr) - fc * 4))
      by (unfold l2; rewrite length_drop; lia).
    pose proof (chunk_loop_spec key (Z.to_nat fc) l1 [] l2 0) as Hc.
    cbn [app length] in Hc. rewrite <- Harr in Hc.
    rewrite Hc by lia. cbn [mbind option_bind].
    change (Z.of_nat 0) with 0.
    replace (first_index arr key 0) with (first_index (l1 ++ l2) key 0) by (by rewrite <- Harr).
    rewrite first_index_app.
    destruct (first_index l1 key 0) as [j|]; [done|].
    pose proof (scan_loop_spec key l2 l1 []) as Hs.
    rewrite app_nil_r, <- Harr, Hl1, Hl2 in Hs.
    rewrite Z2Nat.id in Hs by lia. rewrite Hs. cbn.
    rewrite Hl1, Z2Nat.id by lia. reflexivity.
Qed.

(** what the linear scan returns *)
Lemma linear_scan_spec (arr : list Z) (n key : Z) :
  n = len arr → n < 2 ^ 64 →
  (linear_scan arr n key = NOT_STISLA_NOT_FOUND ∧ ∀ p : nat, arr !! p ≠ Some key)
  ∨ (∃ p : nat, linear_scan arr n key = Z.of_nat p ∧ Z.of_nat p < n
                ∧ linear_scan arr n key ≠ NOT_STISLA_NOT_FOUND
                ∧ arr !! p = Some key
                ∧ ∀ q : nat, (q < p)%nat → arr !! q ≠ Some key).
Proof.
  intros Hn Hlt. subst n. unfold linear_scan, len in *. rewrite Nat2Z.id, firstn_all.
  destruct (first_index arr key 0) as [j|] eqn:E; cbn.
  - right. apply first_index_Some in E as (p & -> & Hp & Hmin).
    exists p. pose proof (lookup_lt_Some _ _ _ Hp). rewrite NOT_FOUND_value.
    repeat split; [lia | lia | done | done].
  - left. split; [done|]. eapply first_index_None, E.
Qed.

(** C8.  On an array of length [n], [not_stisla_chunked_search] returns what
    a linear scan returns: the smallest index whose element equals the key,
    or [NOT_FOUND] when no element does; processing in groups of four never
    changes the index. *)
Theorem chunked_search_refines_linear_scan (arr : list Z) (n key : Z) :
  n = len arr → n < 2 ^ 64 →
  not_stisla_chunked_search arr n key = Some (linear_scan arr n key)
  ∧ ((linear_scan arr n key = NOT_STISLA_NOT_FOUND ∧ ∀ p : nat, arr !! p ≠ Some key)
     ∨ (∃ p : nat, linear_scan arr n key = Z.of_nat p ∧ Z.of_nat p < n
                   ∧ linear_scan arr n key ≠ NOT_STISLA_NOT_FOUND
                   ∧ arr !! p = Some key
                   ∧ ∀ q : nat, (q < p)%nat → arr !! q ≠ Some key)).
Proof.
  intros Hn Hlt. split; [by apply chunked_search_linear|by apply linear_scan_spec].
Qed.

Lemma chunked_search_refines_linear_scan_witness :
  not_stisla_chunked_search [5; 6; 7; 8; 9; 5; 9] 7 9 = Some 4.
Proof.
  pose proof (chunked_search_refines_linear_scan [5; 6; 7; 8; 9; 5; 9] 7 9
                eq_refl eq_refl) as [H _].
  exact H.
Defined.

(** ** BoundedLocalSearch: what a returned index is *)

Lemma local_search_loop_sound (arr : list Z) (key : Z) (fuel : nat) :
  ∀ lo hi m, local_search_loop arr key lo hi fuel = Some m →
             m ≠ NOT_STISLA_NOT_FOUND → load arr m = Some key.
Proof.
  induction fuel as [|k IH]; intros lo hi m; cbn [local_search_loop]; [discriminate|].
  destruct (lo <=? hi); [|congruence].
  destruct (load arr (lo + Z.shiftr (hi - lo) 1)) as [val|] eqn:E; cbn; [|discriminate].
  destruct (Z.ltb_spec val key); [apply IH|].
  destruct (Z.gtb_spec val key).
  - destruct (_ =? 0); [congruence|apply IH].
  - intros [= <-] _. rewrite E. f_equal. lia.
Qed.

Lemma local_search_sound (arr : list Z) (lo hi key m : Z) :
  not_stisla_local_search arr lo hi key = Some m →
  m ≠ NOT_STISLA_NOT_FOUND → load arr m = Some key.
Proof.
  unfold not_stisla_local_search.
  destruct (lo >=? hi); [congruence|].
  destruct (load arr lo) as [al|]; obind; [|discriminate].
  destruct (al >? key); [congruence|].
  destruct (load arr hi) as [ah|]; obind; [|discriminate].
  destruct (ah <? key); [congruence|].
  apply local_search_loop_sound.
Qed.

Lemma predict_and_search_sound (arr : list Z) (key tol : Z)
    (active : not_stisla_anchor_table) (pred result : Z) :
  predict_and_search arr key tol active = Some (pred, result) →
  result ≠ NOT_STISLA_NOT_FOUND → load arr result = Some key.
Proof.
  unfold predict_and_search.
  destruct (not_stisla_anchor_lower active key) as [a_idx|]; cbn; [|discriminate].
  destruct (load (anchors active) a_idx) as [l|]; cbn; [|discriminate].
  destruct (load (anchors active) (a_idx + 1)) as [r|]; cbn; [|discriminate].
  match goal with |- context [let '(_, _) := ?w in _] => destruct w as [lo hi] end.
  destruct (not_stisla_local_search arr lo hi key) as [m|] eqn:E; cbn; [|discriminate].
  intros [= _ <-]. eapply local_search_sound, E.
Qed.

Lemma chunked_search_sound (arr : list Z) (n key j : Z) :
  n = len arr → not_stisla_chunked_search arr n key = Some j →
  j ≠ NOT_STISLA_NOT_FOUND → 0 <= j < n ∧ load arr j = Some key.
Proof.
  intros Hn. rewrite (chunked_search_linear _ _ _ Hn). subst n.
  unfold linear_scan, len. rewrite Nat2Z.id, firstn_all.
  destruct (first_index arr key 0) as [j'|] eqn:E; cbn; [|congruence].
  intros [= <-] _. apply first_index_Some in E as (p & -> & Hp & _).
  pose proof (lookup_lt_Some _ _ _ Hp). split; [lia|].
  change (0 + Z.of_nat p) with (Z.of_nat p). by rewrite load_nat.
Qed.

Lemma search_sound (h : heap) (arr : list Z) (n key : Z)
    (table table' : option not_stisla_anchor_table) (tol j : Z) :
  n = len arr →
  not_stisla_search h arr n key table tol = Some (j, table') →
  j ≠ NOT_STISLA_NOT_FOUND →
  0 <= j < n ∧ load arr j = Some key.
Proof.
  intros Hn. unfold not_stisla_search.
  destruct (n =? 0); [congruence|].
  destruct (n <? 32).
  - destruct (not_stisla_chunked_search arr n key) as [r|] eqn:E; cbn; [|discriminate].
    intros [= <- _]. by apply chunked_search_sound.
  - destruct (init_endpoints h arr n (default local_table table)) as [[active|]|];
      cbn; [|congruence|discriminate].
    destruct (predict_and_search arr key tol active) as [[pred result]|] eqn:E;
      cbn; [|discriminate].
    assert (Hsound : result ≠ NOT_STISLA_NOT_FOUND →
                     0 <= result < n ∧ load arr result = Some key).
    { intros Hr. pose proof (predict_and_search_sound _ _ _ _ _ _ E Hr) as Hl.
      split; [|done]. subst n. by apply load_in_range in Hl. }
    destruct table as [t|].
    + destruct (result =? NOT_STISLA_NOT_FOUND); [intros [= <- _]; done|].
      destruct (load arr result) eqn:EL; obind; [|discriminate].
      destruct (not_stisla_learn_anchor _ _ _ _ _ _); obind; [|discriminate].
      intros [= <- _] Hj. rewrite EL. auto.
    + intros [= <- _]. done.
Qed.

(** A returned index holds the key whatever [n] is; the cells of [arr] are
    the memory the call may read, of which the caller passes the first [n]. *)
Lemma scan_loop_sound (arr : list Z) (key : Z) (iters : nat) :
  ∀ i0 j, scan_loop arr key i0 iters = Some (Some j) → load arr j = Some key.
Proof.
  induction iters as [|k IH]; intros i0 j; cbn [scan_loop]; [discriminate|].
  destruct (load arr i0) as [x|] eqn:E; obind; [|discriminate].
  destruct (Z.eqb_spec x key) as [->|]; [by intros [= <-]|apply IH].
Qed.

Lemma chunk_loop_sound (arr : list Z) (key : Z) (iters : nat) :
  ∀ chunk j, chunk_loop arr key chunk iters = Some (Some j) → load arr j = Some key.
Proof.
  induction iters as [|k IH]; intros chunk j; cbn [chunk_loop]; [discriminate|].
  set (base := chunk * NOT_STISLA_CHUNK_SIZE).
  destruct (load arr base) as [c0|] eqn:E0; obind; [|discriminate].
  destruct (load arr (base + 1)) as [c1|] eqn:E1; obind; [|discriminate].
  destruct (load arr (base + 2)) as [c2|] eqn:E2; obind; [|discriminate].
  destruct (load arr (base + 3)) as [c3|] eqn:E3; obind; [|discriminate].
  cbn [first_set].
  destruct (Z.eqb_spec c0 key) as [->|];
    [intros [= <-]; by rewrite Z.add_0_r|].
  destruct (Z.eqb_spec c1 key) as [->|]; [by intros [= <-]|].
  destruct (Z.eqb_spec c2 key) as [->|]; [by intros [= <-]|].
  destruct (Z.eqb_spec c3 key) as [->|]; [by intros [= <-]|].
  apply IH.
Qed.

Lemma chunked_search_holds_key (arr : list Z) (n key j : Z) :
  not_stisla_chunked_search arr n key = Some j →
  j ≠ NOT_STISLA_NOT_FOUND → load arr j = Some key.
Proof.
  unfold not_stisla_chunked_search. destruct (n <=? NOT_STISLA_CHUNK_SIZE).
  - destruct (scan_loop arr key 0 _) as [[r|]|] eqn:E; obind; [| |discriminate].
    + intros [= <-] _. eapply scan_loop_sound, E.
    + intros [= <-] Hj. by destruct Hj.
  - destruct (chunk_loop arr key 0 _) as [[r|]|] eqn:E; obind; [| |discriminate].
    + intros [= <-] _. eapply chunk_loop_sound, E.
    + destruct (scan_loop arr key _ _) as [[r|]|] eqn:E'; obind; [| |discriminate].
      * intros [= <-] _. eapply scan_loop_sound, E'.
      * intros [= <-] Hj. by destruct Hj.
Qed.

Lemma search_found_holds_key (h : heap) (arr : list Z) (n key : Z)
    (table table' : option not_stisla_anchor_table) (tol j : Z) :
  not_stisla_search h arr n key table tol = Some (j, table') →
  j ≠ NOT_STISLA_NOT_FOUND → load arr j = Some key.
Proof.
  unfold not_stisla_search.
  destruct (n =? 0); [congruence|].
  destruct (n <? 32).
  - destruct (not_stisla_chunked_search arr n key) as [r|] eqn:E; obind; [|discriminate].
    intros [= <- _]. by apply (chunked_search_holds_key arr n).
  - destruct (init_endpoints h arr n (default local_table table)) as [[active|]|];
      obind; [|congruence|discriminate].
    destruct (predict_and_search arr key tol active) as [[pred result]|] eqn:E;
      obind; [|discriminate].
    pose proof (predict_and_search_sound _ _ _ _ _ _ E) as Hsound.
    destruct table as [t|].
    + destruct (result =? NOT_STISLA_NOT_FOUND); [intros [= <- _]; done|].
      destruct (load arr result) eqn:EL; obind; [|discriminate].
      destruct (not_stisla_learn_anchor _ _ _ _ _ _); obind; [|discriminate].
      intros [= <- _]. rewrite EL. done.
    + intros [= <- _]. done.
Qed.

(** C10, where the code breaks it.  The window of the local search is
    clipped to the indices recorded in the anchors, never to [n].  A table
    that a search of the 100 cells of [ramp100] has seeded keeps the anchor
    [(99, 99)]; a later search of the first 32 cells of the same buffer with
    that table returns the index 50, which is not below [n = 32].  Both
    calls read inside the buffer only, and the cell returned does hold the
    key. *)
Theorem search_returns_index_beyond_length :
  sortedb ramp100 = true
  ∧ len ramp100 = 100
  ∧ (∀ (h h1 h2 : heap) (t0 : not_stisla_anchor_table),
        not_stisla_anchor_table_create h = Some t0 →
        ∃ t1 t2,
          not_stisla_search h1 ramp100 100 50 (Some t0) 8 = Some (50, Some t1)
          ∧ not_stisla_search h2 ramp100 32 50 (Some t1) 8 = Some (50, Some t2)
          ∧ load ramp100 50 = Some 50
          ∧ ¬ 50 < 32).
Proof.
  split; [reflexivity|]. split; [reflexivity|].
  intros h h1 h2 t0. unfold not_stisla_anchor_table_create.
  destruct (malloc_ok h); [|discriminate]. intros [= <-].
  eexists _, _. split; [vm_compute; reflexivity|].
  split; [vm_compute; reflexivity|]. split; [reflexivity|lia].
Qed.

(** ** BoundedLocalSearch: windows of two cells and more *)

Lemma sorted_load (arr : list Z) (p q x y : Z) :
  sorted arr → p <= q → load arr p = Some x → load arr q = Some y → x <= y.
Proof.
  intros Hs Hpq [Hp Hx]%load_Some [Hq Hy]%load_Some.
  eapply (Hs (Z.to_nat p) (Z.to_nat q)); [lia|done..].
Qed.

Lemma load_defined {A : Type} (a : list A) (k : Z) :
  0 <= k < Z.of_nat (length a) → ∃ x, load a k = Some x.
Proof.
  intros Hk. destruct (lookup_lt_is_Some_2 a (Z.to_nat k)) as [x Hx]; [lia|].
  exists x. apply load_Some. split; [lia|done].
Qed.

Lemma midpoint_between (lo hi : Z) :
  lo <= hi → lo <= lo + Z.shiftr (hi - lo) 1 <= hi.
Proof.
  intros. rewrite shiftr1_half.
  pose proof (Z.div_pos (hi - lo) 2 ltac:(lia) ltac:(lia)).
  pose proof (Z.div_le_upper_bound (hi - lo) 2 (hi - lo) ltac:(lia) ltac:(lia)). lia.
Qed.

(** The loop on a sorted array: it ends, inside its fuel, on a cell of the
    window that holds the key when there is one, on [NOT_FOUND] otherwise. *)
Lemma local_search_loop_complete (arr : list Z) (key : Z) (fuel : nat) :
  sorted arr → len arr < 2 ^ 64 →
  ∀ lo hi, 0 <= lo → hi < len arr → Z.max 0 (hi - lo + 1) < Z.of_nat fuel →
  ∃ m, local_search_loop arr key lo hi fuel = Some m
       ∧ ((m = NOT_STISLA_NOT_FOUND ∧ ∀ p, lo <= p <= hi → load arr p ≠ Some key)
          ∨ (lo <= m <= hi ∧ load arr m = Some key)).
Proof.
  intros Hs Hlen. unfold len in *.
  induction fuel as [|k IH]; intros lo hi Hlo Hhi Hfuel; [lia|].
  cbn [local_search_loop].
  destruct (Z.leb_spec lo hi) as [Hle|Hgt].
  2:{ eexists; split; [done|]. left. split; [done|]. intros; lia. }
  pose proof (midpoint_between lo hi Hle) as Hmid.
  set (mid := lo + Z.shiftr (hi - lo) 1) in *.
  destruct (load_defined arr mid) as [val Hval]; [lia|].
  rewrite Hval. obind.
  destruct (Z.ltb_spec val key) as [Hlt|Hge].
  - rewrite u64_small by lia.
    destruct (IH (mid + 1) hi) as (m & -> & Hm); [lia..|].
    exists m. split; [done|]. destruct Hm as [[-> Hnone]|[? ?]]; [left|right; split; [lia|done]].
    split; [done|]. intros p Hp Hkey.
    destruct (Z.le_gt_cases p mid).
    + pose proof (sorted_load _ _ _ _ _ Hs ltac:(eassumption) Hkey Hval). lia.
    + apply (Hnone p); [lia|done].
  - destruct (Z.gtb_spec val key) as [Hgt|Hle'].
    + assert (Hbelow : ∀ p, mid <= p → load arr p ≠ Some key).
      { intros p Hp Hkey. pose proof (sorted_load _ _ _ _ _ Hs Hp Hval Hkey). lia. }
      destruct (Z.eqb_spec mid 0) as [H0|Hn0].
      * eexists; split; [done|]. left. split; [done|].
        intros p Hp. apply Hbelow. lia.
      * destruct (IH lo (mid - 1)) as (m & -> & Hm); [lia..|].
        exists m. split; [done|].
        destruct Hm as [[-> Hnone]|[? ?]]; [left|right; split; [lia|done]].
        split; [done|]. intros p Hp.
        destruct (Z.le_gt_cases mid p); [by apply Hbelow|apply Hnone; lia].
    + eexists; split; [done|]. right. split; [lia|]. rewrite Hval. f_equal. lia.
Qed.

(** On a sorted array and a window [lo < hi] inside it, the local search
    returns a cell of the window holding the key when the window has one,
    and [NOT_FOUND] when it has none. *)
Lemma local_search_complete (arr : list Z) (lo hi key : Z) :
  sorted arr → len arr < 2 ^ 64 → 0 <= lo → lo < hi → hi < len arr →
  ∃ m, not_stisla_local_search arr lo hi key = Some m
       ∧ ((m = NOT_STISLA_NOT_FOUND ∧ ∀ p, lo <= p <= hi → load arr p ≠ Some key)
          ∨ (m ≠ NOT_STISLA_NOT_FOUND ∧ lo <= m <= hi ∧ load arr m = Some key)).
Proof.
  intros Hs Hlen Hlo Hlt Hhi. unfold not_stisla_local_search.
  destruct (Z.geb_spec lo hi); [lia|].
  destruct (load_defined arr lo) as [al Hal]; [unfold len in *; lia|].
  destruct (load_defined arr hi) as [ah Hah]; [unfold len in *; lia|].
  rewrite Hal. obind. destruct (Z.gtb_spec al key) as [Hgt|Hle].
  { eexists; split; [done|]. left. split; [done|]. intros p Hp Hkey.
    pose proof (sorted_load arr lo p _ _ Hs ltac:(lia) Hal Hkey). lia. }
  rewrite Hah. obind. destruct (Z.ltb_spec ah key) as [Hlt'|Hge].
  { eexists; split; [done|]. left. split; [done|]. intros p Hp Hkey.
    pose proof (sorted_load arr p hi _ _ Hs ltac:(lia) Hkey Hah). lia. }
  destruct (local_search_loop_complete arr key (S (Z.to_nat (hi - lo + 1))) Hs Hlen lo hi)
    as (m & Hm & Hres); [lia..|].
  exists m. split; [done|]. destruct Hres as [?|[? ?]]; [by left|right].
  split; [|done]. rewrite NOT_FOUND_value. lia.
Qed.

(** Sorted or not: the loop ends inside its fuel whenever the cells of the
    window exist, so [None] stands for a read outside the array only. *)
Lemma local_search_loop_defined (arr : list Z) (key : Z) (fuel : nat) :
  len arr < 2 ^ 64 →
  ∀ lo hi, 0 <= lo → hi < len arr → Z.max 0 (hi - lo + 1) < Z.of_nat fuel →
  is_Some (local_search_loop arr key lo hi fuel).
Proof.
  intros Hlen. unfold len in *.
  induction fuel as [|k IH]; intros lo hi Hlo Hhi Hfuel; [lia|].
  cbn [local_search_loop].
  destruct (Z.leb_spec lo hi) as [Hle|Hgt]; [|done].
  pose proof (midpoint_between lo hi Hle) as Hmid.
  set (mid := lo + Z.shiftr (hi - lo) 1) in *.
  destruct (load_defined arr mid) as [val ->]; [lia|]. obind.
  destruct (val <? key).
  - rewrite u64_small by lia. apply IH; lia.
  - destruct (val >? key); [|done].
    destruct (Z.eqb_spec mid 0); [done|]. apply IH; lia.
Qed.

Lemma local_search_defined (arr : list Z) (lo hi key : Z) :
  len arr < 2 ^ 64 → 0 <= lo → hi < len arr →
  is_Some (not_stisla_local_search arr lo hi key).
Proof.
  intros Hlen Hlo Hhi. unfold not_stisla_local_search.
  destruct (Z.geb_spec lo hi); [done|].
  destruct (load_defined arr lo) as [al ->]; [unfold len in *; lia|]. obind.
  destruct (al >? key); [done|].
  destruct (load_defined arr hi) as [ah ->]; [unfold len in *; lia|]. obind.
  destruct (ah <? key); [done|].
  apply local_search_loop_defined; lia.
Qed.

(** C4.  The quick bounds check of [not_stisla_local_search] tests
    [lo >= hi]: a window of one cell is rejected without being searched,
    also when its cell holds the key. *)
Theorem local_search_rejects_one_cell_window :
  (∀ (arr : list Z) (lo key : Z),
      not_stisla_local_search arr lo lo key = Some NOT_STISLA_NOT_FOUND)
  ∧ load [5] 0 = Some 5
  ∧ not_stisla_local_search [5] 0 0 5 = Some NOT_STISLA_NOT_FOUND.
Proof.
  assert (H : ∀ (arr : list Z) (lo key : Z),
             not_stisla_local_search arr lo lo key = Some NOT_STISLA_NOT_FOUND).
  { intros arr lo key. unfold not_stisla_local_search.
    destruct (Z.geb_spec lo lo); [done|lia]. }
  split; [exact H|]. split; [reflexivity|apply H].
Qed.

(** ** Interpolator *)

Lemma s64_of_small_u64 (x : Z) : u64 x < 2 ^ 63 → s64 x = u64 x.
Proof.
  intros Hx. pose proof (u64_range x) as Hr. unfold s64, u64 in *.
  rewrite <- Zplus_mod_idemp_l. rewrite Z.mod_small; lia.
Qed.

Lemma interpolate_upper (l_val r_val l_idx r_idx key : Z) :
  0 <= l_idx <= r_idx → r_idx < 2 ^ 63 →
  0 <= not_stisla_interpolate l_val r_val l_idx r_idx key <= r_idx.
Proof.
  intros Hidx Hr. unfold not_stisla_interpolate.
  destruct (r_val =? l_val); [rewrite s64_small; lia|].
  destruct (_ =? 0); [rewrite s64_small; lia|].
  set (result := s128 _).
  destruct (Z.ltb_spec result 0); [lia|].
  destruct (Z.gtb_spec (u64 result) r_idx); [rewrite s64_small; lia|].
  rewrite s64_of_small_u64 by lia. pose proof (u64_range result). lia.
Qed.

Lemma interpolate_bracketed (l_val r_val l_idx r_idx key : Z) :
  INT64_MIN <= l_val <= INT64_MAX → INT64_MIN <= r_val <= INT64_MAX →
  0 <= l_idx <= r_idx → r_idx < 2 ^ 63 →
  l_val <= key <= r_val →
  l_idx <= not_stisla_interpolate l_val r_val l_idx r_idx key.
Proof.
  unfold INT64_MIN, INT64_MAX. intros Hl Hrv Hidx Hr Hkey.
  unfold not_stisla_interpolate.
  destruct (Z.eqb_spec r_val l_val); [rewrite s64_small; lia|].
  rewrite (u64_small (r_idx - l_idx)) by lia.
  rewrite (s128_small (key - l_val)) by lia.
  rewrite (s128_small (r_val - l_val)) by lia.
  destruct (Z.eqb_spec (r_val - l_val) 0); [lia|].
  assert (Hprod : 0 <= (key - l_val) * (r_idx - l_idx) < 2 ^ 127) by nia.
  rewrite (s128_small ((key - l_val) * (r_idx - l_idx))) by lia.
  rewrite Z.quot_div_nonneg by lia.
  set (frac := (key - l_val) * (r_idx - l_idx) / (r_val - l_val)).
  assert (Hfrac : 0 <= frac <= r_idx - l_idx).
  { unfold frac. split; [apply Z.div_pos; lia|].
    apply Z.div_le_upper_bound; [lia|]. nia. }
  rewrite (s128_small frac) by lia.
  rewrite (s128_small (l_idx + frac)) by lia.
  destruct (Z.ltb_spec (l_idx + frac) 0); [lia|].
  rewrite (u64_small (l_idx + frac)) by lia.
  destruct (Z.gtb_spec (l_idx + frac) r_idx); [lia|].
  rewrite s64_small; lia.
Qed.

(** C2, as the code has it.  For anchors with [l_idx <= r_idx] (indices
    below 2^63) and every key, the interpolator returns an index of
    [0 .. r_idx]: never above [r_idx], never negative.  It is inside
    [l_idx .. r_idx] whenever the key lies between the anchors' values,
    [l_val <= key <= r_val]; below [l_val] the lower clamp is 0, not
    [l_idx]. *)
Theorem interpolate_within_bounds (l_val r_val l_idx r_idx key : Z) :
  INT64_MIN <= l_val <= INT64_MAX → INT64_MIN <= r_val <= INT64_MAX →
  INT64_MIN <= key <= INT64_MAX →
  0 <= l_idx <= r_idx → r_idx < 2 ^ 63 →
  0 <= not_stisla_interpolate l_val r_val l_idx r_idx key <= r_idx
  ∧ (l_val <= key <= r_val →
     l_idx <= not_stisla_interpolate l_val r_val l_idx r_idx key <= r_idx).
Proof.
  intros Hl Hrv Hk Hidx Hr. split; [by apply interpolate_upper|].
  intros Hkey. pose proof (interpolate_upper l_val r_val l_idx r_idx key Hidx Hr).
  pose proof (interpolate_bracketed l_val r_val l_idx r_idx key Hl Hrv Hidx Hr Hkey).
  lia.
Qed.

Lemma interpolate_within_bounds_witness :
  5 <= not_stisla_interpolate INT64_MIN INT64_MAX 5 15 (INT64_MAX - 1) <= 15.
Proof.
  refine (proj2 (interpolate_within_bounds INT64_MIN INT64_MAX 5 15 (INT64_MAX - 1)
                   _ _ _ _ _) _);
    vm_compute; try split; congruence.
Defined.

(** C2, as stated, fails: with anchors (10, 5) and (20, 15) and the key 5,
    below the left anchor's value, the interpolator returns 0, an index
    below [l_idx = 5]. *)
Lemma interpolate_below_left_index :
  not_stisla_interpolate 10 20 5 15 5 = 0
  ∧ ¬ (5 <= not_stisla_interpolate 10 20 5 15 5 <= 15).
Proof. split; [reflexivity|]. vm_compute. intros [H _]. by apply H. Qed.

(** ** AnchorLocator *)

Lemma strictly_ascending_ascending (l : list not_stisla_anchor) :
  strictly_ascending l → ascending l.
Proof.
  intros Hs p q a b Hpq Hp Hq. destruct (decide (p = q)) as [->|Hne].
  - simplify_eq. lia.
  - pose proof (Hs p q a b ltac:(lia) Hp Hq). lia.
Qed.

Lemma anchor_seq_load (t : not_stisla_anchor_table) (p : Z) :
  0 <= p < size t → anchor_seq t !! Z.to_nat p = load (anchors t) p.
Proof.
  intros Hp. unfold anchor_seq, load. destruct (Z.ltb_spec p 0); [lia|].
  apply lookup_take_lt. lia.
Qed.

Lemma ascending_load (t : not_stisla_anchor_table) (p q : Z) (a b : not_stisla_anchor) :
  ascending (anchor_seq t) → 0 <= p → p <= q → q < size t →
  load (anchors t) p = Some a → load (anchors t) q = Some b → v a <= v b.
Proof.
  intros Hasc Hp Hpq Hq Ha Hb.
  rewrite <- anchor_seq_load in Ha, Hb by lia.
  eapply (Hasc (Z.to_nat p) (Z.to_nat q)); [lia|done..].
Qed.

(** The binary search over the anchors ends inside its fuel on a position
    [p] just below the final [hi]; it has seen [anchors[p].v <= x] unless
    [p] is still the initial [lo], and [x < anchors[p + 1].v] unless
    [p + 1] is still the initial [hi]. *)
Lemma anchor_lower_loop_spec (a : list not_stisla_anchor) (x : Z) (fuel : nat) :
  ∀ lo hi, 0 <= lo → lo < hi → hi < Z.of_nat (length a) → hi - lo <= Z.of_nat fuel →
  ∃ p, anchor_lower_loop a x lo hi fuel = Some p
       ∧ lo <= p ∧ p + 1 <= hi
       ∧ (p = lo ∨ ∃ ap, load a p = Some ap ∧ v ap <= x)
       ∧ (p + 1 = hi ∨ ∃ aq, load a (p + 1) = Some aq ∧ x < v aq).
Proof.
  induction fuel as [|k IH]; intros lo hi Hlo Hlt Hhi Hfuel; [lia|].
  cbn [anchor_lower_loop].
  destruct (Z.ltb_spec (lo + 1) hi) as [Hgap|Hadj].
  2:{ exists lo. split; [done|]. split; [lia|]. split; [lia|]. split; left; lia. }
  assert (Hmid : lo + 1 <= lo + Z.shiftr (hi - lo) 1 <= hi - 1).
  { rewrite shiftr1_half.
    pose proof (Z.div_le_lower_bound (hi - lo) 2 1 ltac:(lia) ltac:(lia)).
    pose proof (Z.div_lt_upper_bound (hi - lo) 2 (hi - lo) ltac:(lia) ltac:(lia)). lia. }
  set (mid := lo + Z.shiftr (hi - lo) 1) in *.
  destruct (load_defined a mid) as [am Ham]; [lia|].
  rewrite Ham. obind.
  destruct (Z.leb_spec (v am) x) as [Hle|Hgt].
  - destruct (IH mid hi) as (p & -> & H1 & H2 & H3 & H4); [lia..|].
    exists p. split; [done|]. split; [lia|]. split; [lia|]. split; [|done].
    right. destruct H3 as [->|?]; [eauto|done].
  - destruct (IH lo mid) as (p & -> & H1 & H2 & H3 & H4); [lia..|].
    exists p. split; [done|]. split; [lia|]. split; [lia|]. split; [done|].
    right. destruct H4 as [Heq|?]; [rewrite Heq; eauto|done].
Qed.

(** The locator on a table whose anchor sequence is sorted (duplicates
    allowed): where it lands for a key below the first anchor, between the
    first and the last, and at or above the last. *)
Lemma anchor_lower_spec (t : not_stisla_anchor_table) (key : Z) :
  1 <= size t <= capacity t → ascending (anchor_seq t) →
  ∃ p a0 alast,
    not_stisla_anchor_lower t key = Some p
    ∧ 0 <= p < size t
    ∧ load (anchors t) 0 = Some a0
    ∧ load (anchors t) (size t - 1) = Some alast
    ∧ (key < v a0 → p = 0)
    ∧ (v a0 <= key < v alast →
       ∃ ap aq, load (anchors t) p = Some ap ∧ load (anchors t) (p + 1) = Some aq
                ∧ p + 1 < size t ∧ v ap <= key < v aq)
    ∧ (v alast <= key → size t <= 3 → p = size t - 1)
    ∧ (v alast <= key → 4 <= size t → p = size t - 2).
Proof.
  intros Hsz Hasc. unfold capacity in Hsz.
  destruct (load_defined (anchors t) 0) as [a0 Ha0]; [lia|].
  destruct (load_defined (anchors t) (size t - 1)) as [alast Hlast]; [lia|].
  unfold not_stisla_anchor_lower.
  destruct (Z.eqb_spec (size t) 0); [lia|].
  destruct (Z.eqb_spec (size t - 1 - 0) 0) as [E1|N1].
  { (* one anchor *)
    assert (alast = a0) as ->
      by (replace (size t - 1) with 0 in Hlast by lia; congruence).
    rewrite Ha0. obind. exists 0, a0, a0.
    replace (if v a0 <=? key then 0 else 0) with 0 by (by destruct (_ <=? _)).
    repeat split; try done; try lia. }
  destruct (Z.eqb_spec (size t - 1 - 0) 1) as [E2|N2].
  { (* two anchors *)
    rewrite Ha0. obind. rewrite Hlast.
    destruct (Z.leb_spec (v a0) key) as [H0|H0]; obind.
    - destruct (Z.leb_spec (v alast) key) as [H1|H1].
      + exists (size t - 1), a0, alast. repeat split; try done; try lia.
      + exists 0, a0, alast. repeat split; try done; try lia.
        intros _. exists a0, alast. replace (0 + 1) with (size t - 1) by lia.
        repeat split; try done; lia.
    - exists 0, a0, alast. repeat split; try done; try lia.
      intros H1. pose proof (ascending_load t 0 (size t - 1) _ _ Hasc
                               ltac:(lia) ltac:(lia) ltac:(lia) Ha0 Hlast). lia. }
  destruct (Z.eqb_spec (size t - 1 - 0) 2) as [E3|N3].
  { (* three anchors *)
    destruct (load_defined (anchors t) 1) as [a1 Ha1]; [lia|].
    change (0 + 1) with 1. rewrite Ha1. obind. rewrite Hlast, Ha0.
    pose proof (ascending_load t 0 1 _ _ Hasc
                  ltac:(lia) ltac:(lia) ltac:(lia) Ha0 Ha1) as H01.
    pose proof (ascending_load t 1 (size t - 1) _ _ Hasc
                  ltac:(lia) ltac:(lia) ltac:(lia) Ha1 Hlast) as H12.
    destruct (Z.leb_spec (v a1) key) as [H1|H1]; obind.
    - destruct (Z.leb_spec (v alast) key) as [H2|H2].
      + exists (size t - 1), a0, alast. repeat split; try done; try lia.
      + exists 1, a0, alast. repeat split; try done; try lia.
        intros _. exists a1, alast. replace (1 + 1) with (size t - 1) by lia.
        repeat split; try done; lia.
    - destruct (Z.leb_spec (v a0) key) as [H0|H0].
      + exists 0, a0, alast. repeat split; try done; try lia.
        intros _. exists a0, a1. repeat split; try done; lia.
      + exists 0, a0, alast. repeat split; try done; try lia. }
  (* four anchors and more: the binary search *)
  destruct (anchor_lower_loop_spec (anchors t) key (Z.to_nat (size t - 1 - 0)) 0 (size t - 1))
    as (p & Hp & Hlo & Hhi & Hleft & Hright); [lia..|].
  exists p, a0, alast. split; [done|]. split; [lia|]. split; [done|]. split; [done|].
  assert (Hpa : ∃ ap, load (anchors t) p = Some ap) by (apply load_defined; lia).
  assert (Hqa : ∃ aq, load (anchors t) (p + 1) = Some aq) by (apply load_defined; lia).
  destruct Hpa as [ap Hap], Hqa as [aq Haq].
  pose proof (ascending_load t 0 p _ _ Hasc ltac:(lia) ltac:(lia) ltac:(lia) Ha0 Hap) as H0p.
  pose proof (ascending_load t (p + 1) (size t - 1) _ _ Hasc
                ltac:(lia) ltac:(lia) ltac:(lia) Haq Hlast) as Hql.
  split; [|split; [|split]].
  - intros Hbelow. destruct Hleft as [?|(ap' & Hap' & ?)]; [done|]. simplify_eq. lia.
  - intros [Hge Hlt]. exists ap, aq. split; [done|]. split; [done|]. split; [lia|]. split.
    + destruct Hleft as [->|(ap' & Hap' & ?)]; simplify_eq; lia.
    + destruct Hright as [Heq|(aq' & Haq' & ?)]; [|simplify_eq; lia].
      rewrite Heq in Haq. simplify_eq. lia.
  - intros; lia.
  - intros Hge _. destruct Hright as [?|(aq' & Haq' & ?)]; [lia|]. simplify_eq. lia.
Qed.

Lemma strictly_ascendingb_correct (l : list not_stisla_anchor) :
  strictly_ascendingb l = true → strictly_ascending l.
Proof.
  intros Hc p q a b Hpq Hp Hq. apply Z.ltb_lt.
  eapply (chainb_lookup (λ a b, v a <? v b) l); [|done..].
  intros ???. rewrite !Z.ltb_lt. lia.
Qed.

Lemma ascendingb_correct (l : list not_stisla_anchor) :
  ascendingb l = true → ascending l.
Proof.
  intros Hc p q a b Hpq Hp Hq. destruct (decide (p = q)) as [->|Hne].
  - simplify_eq. lia.
  - apply Z.leb_le. eapply (chainb_lookup (λ a b, v a <=? v b) l); [|done| |done..]; [|lia].
    intros ???. rewrite !Z.leb_le. lia.
Qed.

(** C3, as the code has it.  On a table with at least one anchor, strictly
    sorted by value: a key below the first anchor's value gives position 0;
    a key at or above the first anchor's value gives a position that meets
    the contract ([anchors[p].v <= key < anchors[p + 1].v], or the last
    position for a key at or above every anchor value) when the key is below
    the last anchor's value, for every anchor count, and when the table has
    one to three anchors. *)
Theorem anchor_lower_position (t : not_stisla_anchor_table) (key : Z) :
  1 <= size t <= capacity t → strictly_ascending (anchor_seq t) →
  ∃ p a0 alast,
    not_stisla_anchor_lower t key = Some p
    ∧ 0 <= p < size t
    ∧ load (anchors t) 0 = Some a0
    ∧ load (anchors t) (size t - 1) = Some alast
    ∧ (key < v a0 → p = 0)
    ∧ (v a0 <= key → key < v alast ∨ size t <= 3 → lower_anchor_contract t key p).
Proof.
  intros Hsz Hasc%strictly_ascending_ascending.
  destruct (anchor_lower_spec t key Hsz Hasc)
    as (p & a0 & alast & Hp & Hrange & Ha0 & Hlast & Hbelow & Hmid & Hsmall & _).
  exists p, a0, alast. repeat (split; [done|]).
  intros Hge Hcase. destruct (Z.lt_ge_cases key (v alast)) as [Hlt|Hge'].
  - left. apply Hmid. lia.
  - right. destruct Hcase as [?|Hle]; [lia|]. split; [by apply Hsmall|].
    intros a (k & Hk)%list_elem_of_lookup.
    pose proof (lookup_lt_Some _ _ _ Hk) as Hlen. unfold anchor_seq in Hlen.
    rewrite length_take in Hlen.
    rewrite <- anchor_seq_load in Hlast by lia.
    pose proof (Hasc k (Z.to_nat (size t - 1)) a alast ltac:(lia) Hk Hlast). lia.
Qed.

Lemma anchor_lower_position_witness :
  ∃ p a0 alast,
    not_stisla_anchor_lower four_anchors 25 = Some p
    ∧ 0 <= p < size four_anchors
    ∧ load (anchors four_anchors) 0 = Some a0
    ∧ load (anchors four_anchors) (size four_anchors - 1) = Some alast
    ∧ (25 < v a0 → p = 0)
    ∧ (v a0 <= 25 → 25 < v alast ∨ size four_anchors <= 3 →
       lower_anchor_contract four_anchors 25 p).
Proof.
  apply (anchor_lower_position four_anchors 25).
  - vm_compute. split; congruence.
  - apply strictly_ascendingb_correct. reflexivity.
Defined.

(** C3, as stated, fails.  With the anchors (10, 0) and (20, 31) and the
    key 5 the locator returns position 0, whose value 10 is above the key,
    while the key is not at or above every anchor.  With four anchors of
    values 0, 10, 20, 30 and the key 35, at or above every anchor, the
    binary search returns position 2, not the last position 3. *)
Lemma anchor_lower_outside_contract :
  (strictly_ascending (anchor_seq two_anchors)
   ∧ not_stisla_anchor_lower two_anchors 5 = Some 0
   ∧ ¬ lower_anchor_contract two_anchors 5 0)
  ∧ (strictly_ascending (anchor_seq four_anchors)
     ∧ not_stisla_anchor_lower four_anchors 35 = Some 2
     ∧ ¬ lower_anchor_contract four_anchors 35 2).
Proof.
  split; (split; [by apply strictly_ascendingb_correct|]); (split; [reflexivity|]).
  - intros [(ap & aq & Hp & Hq & _ & Hv)|[Heq _]].
    + vm_compute in Hp, Hq. simplify_eq. cbn in Hv. lia.
    + vm_compute in Heq. discriminate.
  - intros [(ap & aq & Hp & Hq & _ & Hv)|[Heq _]].
    + vm_compute in Hp, Hq. simplify_eq. cbn in Hv. lia.
    + vm_compute in Heq. discriminate.
Qed.

(** ** The steps of [not_stisla_search] on the caller's table *)

Lemma init_endpoints_frame (h : heap) (arr : list Z) (n : Z)
    (t active : not_stisla_anchor_table) :
  init_endpoints h arr n t = Some (Some active) →
  searches_performed active = searches_performed t
  ∧ workload_type active = workload_type t
  ∧ size active = (if size t =? 0 then 2 else size t)
  ∧ (size t ≠ 0 → active = t).
Proof.
  unfold init_endpoints. destruct (Z.eqb_spec (size t) 0) as [E|E].
  - destruct (if capacity t =? 0 then _ else _) as [blk|]; [|discriminate].
    destruct (load arr 0); obind; [|discriminate].
    destruct (store blk 0 _) as [blk1|]; obind; [|discriminate].
    destruct (load arr (n - 1)); obind; [|discriminate].
    destruct (store blk1 1 _); obind; [|discriminate].
    intros [= <-]. cbn. done.
  - intros [= <-]. done.
Qed.

Lemma learn_anchor_frame (h : heap) (t t' : not_stisla_anchor_table)
    (value index pred tol : Z) :
  not_stisla_learn_anchor h t value index pred tol = Some t' →
  searches_performed t' = searches_performed t
  ∧ workload_type t' = workload_type t
  ∧ (t' = t ∨ (size t < max_anchors_for (workload_type t)
               ∧ size t' = u64 (size t + 1))).
Proof.
  unfold not_stisla_learn_anchor.
  destruct (_ <=? tol); [intros [= <-]; auto|].
  destruct (Z.geb_spec (size t) (max_anchors_for (workload_type t)));
    [intros [= <-]; auto|].
  destruct (if size t >=? capacity t then _ else _) as [blk|]; [|intros [= <-]; auto].
  destruct (insertion_point _ _ _ _ _) as [pos|]; obind; [|discriminate].
  destruct (if pos <? size t then _ else _) as [moved|]; obind; [|discriminate].
  destruct (store moved pos _); obind; [|discriminate].
  intros [= <-]. cbn. auto.
Qed.

(** What a call on a caller-supplied table is made of: below 32 elements
    the chunked scan, the table untouched; from 32 elements on, the seeding,
    the prediction and local search on the seeded table, and for a found
    index the learning step and the counter. *)
Lemma search_with_table_inv (h : heap) (arr : list Z) (n key : Z)
    (t : not_stisla_anchor_table) (tol j : Z) (ot : option not_stisla_anchor_table) :
  not_stisla_search h arr n key (Some t) tol = Some (j, ot) →
  (n = 0 ∧ j = NOT_STISLA_NOT_FOUND ∧ ot = Some t)
  ∨ (n ≠ 0 ∧ n < 32 ∧ not_stisla_chunked_search arr n key = Some j ∧ ot = Some t)
  ∨ (32 <= n ∧ init_endpoints h arr n t = Some None
     ∧ j = NOT_STISLA_NOT_FOUND ∧ ot = Some t)
  ∨ (32 <= n ∧ ∃ active pred,
        init_endpoints h arr n t = Some (Some active)
        ∧ predict_and_search arr key tol active = Some (pred, j)
        ∧ ((j = NOT_STISLA_NOT_FOUND ∧ ot = Some active)
           ∨ (j ≠ NOT_STISLA_NOT_FOUND
              ∧ ∃ found learned,
                  load arr j = Some found
                  ∧ not_stisla_learn_anchor h active found j pred tol = Some learned
                  ∧ ot = Some (bump_searches learned)))).
Proof.
  unfold not_stisla_search.
  destruct (Z.eqb_spec n 0); [intros [= <- <-]; auto|].
  destruct (Z.ltb_spec n 32).
  { destruct (not_stisla_chunked_search arr n key); obind; [|discriminate].
    intros [= <- <-]. right. left. auto. }
  change (default local_table (Some t)) with t.
  destruct (init_endpoints h arr n t) as [[active|]|]; obind;
    [|intros [= <- <-]; right; right; left; auto|discriminate].
  destruct (predict_and_search arr key tol active) as [[pred result]|] eqn:E;
    obind; [|discriminate].
  destruct (Z.eqb_spec result NOT_STISLA_NOT_FOUND) as [Hnf|Hf].
  { intros [= <- <-]. do 3 right. split; [done|]. exists active, pred. auto. }
  destruct (load arr result) as [found|] eqn:EL; obind; [|discriminate].
  destruct (not_stisla_learn_anchor h active found result pred tol) as [learned|] eqn:ELn;
    obind; [|discriminate].
  intros [= <- <-]. do 3 right. split; [done|]. exists active, pred.
  split; [done|]. split; [done|]. right. split; [done|]. eauto.
Qed.

Lemma search_with_table_returns_table (h : heap) (arr : list Z) (n key : Z)
    (t : not_stisla_anchor_table) (tol j : Z) (ot : option not_stisla_anchor_table) :
  not_stisla_search h arr n key (Some t) tol = Some (j, ot) → ∃ t', ot = Some t'.
Proof.
  intros [(_ & _ & ->)|[(_ & _ & _ & ->)|[(_ & _ & _ & ->)|(_ & active & pred & _ & _ & H)]]]%search_with_table_inv;
    eauto.
  destruct H as [[_ ->]|(_ & found & learned & _ & _ & ->)]; eauto.
Qed.

(** C9, as the code has it.  On a caller-supplied table whose counter has
    not reached [SIZE_MAX]: a call on an array of 32 elements or more
    increases [searches_performed] by exactly one when it returns a found
    index and leaves it unchanged when it returns [NOT_FOUND]; a call on an
    array of fewer than 32 elements takes the chunked scan and leaves the
    whole table, counter included, unchanged, whatever it returns. *)
Theorem searches_performed_accounting (h : heap) (arr : list Z) (n key : Z)
    (t t' : not_stisla_anchor_table) (tol j : Z) :
  0 <= searches_performed t < SIZE_MAX →
  not_stisla_search h arr n key (Some t) tol = Some (j, Some t') →
  (n < 32 → t' = t)
  ∧ (32 <= n → j ≠ NOT_STISLA_NOT_FOUND →
     searches_performed t' = searches_performed t + 1)
  ∧ (32 <= n → j = NOT_STISLA_NOT_FOUND →
     searches_performed t' = searches_performed t).
Proof.
  unfold SIZE_MAX. intros Hsp Hs. apply search_with_table_inv in Hs.
  destruct Hs as [(-> & -> & [= ->])|[(_ & ? & _ & [= ->])|[(? & _ & -> & [= ->])|
                  (? & active & pred & Hinit & _ & H)]]].
  - split; [done|]. split; intros; lia.
  - split; [done|]. split; intros; lia.
  - split; [intros; lia|]. split; [intros; done|done].
  - apply init_endpoints_frame in Hinit as (Hsp' & _).
    split; [intros; lia|].
    destruct H as [[-> [= ->]]|(Hf & found & learned & _ & Hl & [= ->])].
    + split; [intros; done|]. intros; exact Hsp'.
    + apply learn_anchor_frame in Hl as (Hsp'' & _).
      split; [|intros; done]. intros _ _. cbn.
      rewrite Hsp'', Hsp'. apply u64_small. lia.
Qed.

Lemma searches_performed_accounting_witness :
  searches_performed
    (bump_searches
       {| anchors := <[0%nat := {| v := 0; i := 0 |}]>
                       (<[1%nat := {| v := 31; i := 31 |}]> (fresh calm 8));
          size := 2; searches_performed := 0; workload_type := -1 |})
  = searches_performed zeroed_table + 1.
Proof.
  refine (proj1 (proj2 (searches_performed_accounting calm ramp 32 5 zeroed_table _ 8 5 _ _))
            _ _).
  - vm_compute. split; congruence.
  - vm_compute. reflexivity.
  - vm_compute. congruence.
  - vm_compute. congruence.
Defined.

(** C9, as stated, fails on the small-array path: on the ten elements
    [0 .. 9] the key 3 is found at index 3, and the counter of the table is
    still 0. *)
Lemma small_array_search_not_counted :
  ∃ t', not_stisla_search calm (Z.of_nat <$> seq 0 10) 10 3 (Some zeroed_table) 8
        = Some (3, Some t')
        ∧ 3 ≠ NOT_STISLA_NOT_FOUND
        ∧ searches_performed t' = searches_performed zeroed_table
        ∧ searches_performed t' ≠ searches_performed zeroed_table + 1.
Proof.
  exists zeroed_table. split; [reflexivity|]. split; [vm_compute; congruence|].
  split; [reflexivity|]. vm_compute. congruence.
Qed.

(** ** Anchor cap *)

Lemma max_anchors_for_range (w : Z) : 8 <= max_anchors_for w <= 20.
Proof.
  unfold max_anchors_for, NOT_STISLA_MAX_ANCHORS.
  repeat (destruct (w =? _)); lia.
Qed.

Lemma search_within_cap (h : heap) (arr : list Z) (n key : Z)
    (t t' : not_stisla_anchor_table) (tol j : Z) :
  within_cap t →
  not_stisla_search h arr n key (Some t) tol = Some (j, Some t') →
  within_cap t'.
Proof.
  unfold within_cap. intros Hcap Hs. apply search_with_table_inv in Hs.
  destruct Hs as [(_ & _ & [= ->])|[(_ & _ & _ & [= ->])|[(_ & _ & _ & [= ->])|
                  (_ & active & pred & Hinit & _ & H)]]]; try done.
  apply init_endpoints_frame in Hinit as (_ & Hw & Hsz & _).
  assert (Hact : 0 <= size active <= max_anchors_for (workload_type active)).
  { rewrite Hw, Hsz. pose proof (max_anchors_for_range (workload_type t)).
    destruct (size t =? 0); lia. }
  destruct H as [[_ [= ->]]|(_ & found & learned & _ & Hl & [= ->])]; [done|].
  apply learn_anchor_frame in Hl as (_ & Hw' & [->|[Hlt Hsz']]); [done|].
  cbn. rewrite Hw', Hsz'. pose proof (max_anchors_for_range (workload_type active)).
  rewrite u64_small; lia.
Qed.

Lemma batch_loop_within_cap (hs : nat → heap) (arr : list Z) (n : Z) (keys : list Z)
    (tol : Z) (iters : nat) :
  ∀ (idx : nat) (t : not_stisla_anchor_table) rs found ot,
    within_cap t →
    batch_loop hs arr n keys idx iters (Some t) tol = Some (rs, found, ot) →
    ∃ t', ot = Some t' ∧ within_cap t'.
Proof.
  induction iters as [|k IH]; intros idx t rs found ot Hcap; cbn [batch_loop].
  - intros [= _ _ <-]. eauto.
  - destruct (keys !! idx) as [key|]; obind; [|discriminate].
    destruct (not_stisla_search (hs idx) arr n key (Some t) tol) as [[r ot1]|] eqn:Es;
      obind; [|discriminate].
    destruct (search_with_table_returns_table _ _ _ _ _ _ _ _ Es) as [t1 ->].
    pose proof (search_within_cap _ _ _ _ _ _ _ _ Hcap Es) as Hcap1.
    destruct (batch_loop hs arr n keys (S idx) k (Some t1) tol) as [[[rs' f'] ot2]|] eqn:Eb;
      obind; [|discriminate].
    intros [= _ _ <-]. eapply IH; eauto.
Qed.

Lemma step_within_cap (o : op) (t t' : not_stisla_anchor_table) :
  within_cap t → step o t = Some t' → within_cap t'.
Proof.
  intros Hcap. destruct o as [|w|h arr key tol|hs arr keys tol]; cbn [step].
  - intros [= <-]. unfold within_cap in *. cbn.
    pose proof (max_anchors_for_range (workload_type t)). lia.
  - intros [= <-]. unfold within_cap. cbn.
    pose proof (max_anchors_for_range w). lia.
  - destruct (not_stisla_search h arr (len arr) key (Some t) tol) as [[j ot]|] eqn:Es;
      obind; [|discriminate].
    intros ->. eapply search_within_cap; eauto.
  - unfold not_stisla_batch_search.
    destruct (len keys =? 0); obind; [intros [= <-]; done|].
    destruct (batch_loop _ _ _ _ _ _ _ _) as [[[rs f] ot]|] eqn:Eb; obind; [|discriminate].
    intros ->. destruct (batch_loop_within_cap _ _ _ _ _ _ _ _ _ _ _ Hcap Eb) as (t1 & [= <-] & ?).
    done.
Qed.

Lemma run_within_cap (ops : list op) :
  ∀ t t', within_cap t → run ops t = Some t' → within_cap t'.
Proof.
  induction ops as [|o rest IH]; intros t t' Hcap; cbn [run].
  - by intros [= <-].
  - destruct (step o t) as [t1|] eqn:E; obind; [|discriminate].
    apply IH. eapply step_within_cap; eauto.
Qed.

(** C6.  From the creation of a table on, through any sequence of reset,
    configure, search and batch search, the anchor count never exceeds the
    maximum of the table's current workload type: 12 for telemetry, 8 for
    ids, 20 for offsets, 16 for events, 16 when unconfigured. *)
Theorem anchor_count_within_cap (h : heap) (ops : list op)
    (t0 t : not_stisla_anchor_table) :
  not_stisla_anchor_table_create h = Some t0 →
  run ops t0 = Some t →
  not_stisla_anchor_table_size (Some t) <= max_anchors_for (workload_type t)
  ∧ max_anchors_for NOT_STISLA_WORKLOAD_TELEMETRY = 12
  ∧ max_anchors_for NOT_STISLA_WORKLOAD_IDS = 8
  ∧ max_anchors_for NOT_STISLA_WORKLOAD_OFFSETS = 20
  ∧ max_anchors_for NOT_STISLA_WORKLOAD_EVENTS = 16
  ∧ (∀ w, w < 0 ∨ 3 < w → max_anchors_for w = 16)
  ∧ workload_type t0 = -1.
Proof.
  intros Hc Hrun. unfold not_stisla_anchor_table_create in Hc.
  destruct (malloc_ok h); [|discriminate]. injection Hc as <-.
  split.
  - assert (Hcap0 : within_cap
                      {| anchors := fresh h 8; size := 0;
                         searches_performed := 0; workload_type := -1 |})
      by (unfold within_cap; cbn [size workload_type];
          pose proof (max_anchors_for_range (-1)); lia).
    pose proof (run_within_cap _ _ _ Hcap0 Hrun) as Hcap. unfold within_cap in Hcap.
    cbn. lia.
  - repeat split; try reflexivity.
    intros w Hw. unfold max_anchors_for, NOT_STISLA_WORKLOAD_TELEMETRY,
      NOT_STISLA_WORKLOAD_IDS, NOT_STISLA_WORKLOAD_OFFSETS, NOT_STISLA_WORKLOAD_EVENTS.
    destruct (Z.eqb_spec w 0); [lia|]. destruct (Z.eqb_spec w 1); [lia|].
    destruct (Z.eqb_spec w 2); [lia|]. destruct (Z.eqb_spec w 3); [lia|]. reflexivity.
Qed.

Lemma anchor_count_within_cap_witness :
  not_stisla_anchor_table_size (Some after_history) <= max_anchors_for (workload_type after_history)
  ∧ max_anchors_for NOT_STISLA_WORKLOAD_TELEMETRY = 12
  ∧ max_anchors_for NOT_STISLA_WORKLOAD_IDS = 8
  ∧ max_anchors_for NOT_STISLA_WORKLOAD_OFFSETS = 20
  ∧ max_anchors_for NOT_STISLA_WORKLOAD_EVENTS = 16
  ∧ (∀ w, w < 0 ∨ 3 < w → max_anchors_for w = 16)
  ∧ workload_type (default zeroed_table (not_stisla_anchor_table_create stale)) = -1.
Proof.
  apply (anchor_count_within_cap stale history
           (default zeroed_table (not_stisla_anchor_table_create stale)) after_history).
  - reflexivity.
  - vm_compute. reflexivity.
Defined.

(** ** Learning keeps the anchors in ascending order *)

Lemma insertion_point_spec (a : list not_stisla_anchor) (sz value : Z) (fuel : nat) :
  sz <= Z.of_nat (length a) →
  ∀ pos, 0 <= pos <= sz → sz - pos < Z.of_nat fuel →
  ∃ q, insertion_point a sz value pos fuel = Some q
       ∧ pos <= q <= sz
       ∧ (∀ k ak, pos <= k < q → load a k = Some ak → v ak < value)
       ∧ (∀ aq, load a q = Some aq → q < sz → value <= v aq).
Proof.
  intros Hsz. induction fuel as [|f IH]; intros pos Hpos Hfuel; [lia|].
  cbn [insertion_point]. destruct (Z.ltb_spec pos sz) as [Hlt|Hge].
  2:{ exists pos. split; [done|]. split; [lia|]. split; intros; lia. }
  destruct (load_defined a pos) as [ap Hap]; [lia|]. rewrite Hap. obind.
  destruct (Z.ltb_spec (v ap) value) as [Hv|Hv].
  - destruct (IH (pos + 1)) as (q & -> & Hq & Hbefore & Hat); [lia..|].
    exists q. split; [done|]. split; [lia|]. split; [|done].
    intros k ak Hk Hak. destruct (Z.eq_dec k pos) as [->|Hne].
    + simplify_eq. done.
    + apply (Hbefore k); [lia|done].
  - exists pos. split; [done|]. split; [lia|]. split; [intros; lia|].
    intros aq Haq _. simplify_eq. done.
Qed.

(** the block after the memmove and the store, seen through its first
    [sz + 1] cells *)
Lemma shifted_insert_seq {A : Type} (blk : list A) (sz pos : nat) (new : A) :
  (pos ≤ sz)%nat → (sz < length blk)%nat →
  take (S sz) (<[pos := new]> (take (S pos) blk
                                ++ take (sz - pos) (drop pos blk)
                                ++ drop (S sz) blk))
  = take pos blk ++ new :: take (sz - pos) (drop pos blk).
Proof.
  intros Hpos Hsz.
  destruct (lookup_lt_is_Some_2 blk pos) as [x Hx]; [lia|].
  rewrite (take_S_r _ _ _ Hx), <- app_assoc.
  rewrite insert_app_r_alt by (rewrite length_take; lia).
  rewrite length_take, Nat.min_l, Nat.sub_diag by lia. cbn [app].
  change (<[0%nat := new]> (x :: ?l)) with (new :: l).
  rewrite app_comm_cons, app_assoc.
  rewrite take_app_length'; [done|].
  rewrite length_app. cbn [length]. rewrite !length_take, length_drop. lia.
Qed.

Lemma memmove_up_nothing {A : Type} (blk : list A) (sz : nat) :
  take (S sz) blk ++ take (sz - sz) (drop sz blk) ++ drop (S sz) blk = blk.
Proof. rewrite Nat.sub_diag. cbn. apply take_drop. Qed.

Lemma ascending_middle (l1 l2 : list not_stisla_anchor) (new : not_stisla_anchor) :
  ascending (l1 ++ l2) →
  (∀ a, a ∈ l1 → v a <= v new) →
  (∀ a, a ∈ l2 → v new <= v a) →
  ascending (l1 ++ new :: l2).
Proof.
  intros Hasc Hl Hr p q a b Hpq Hp Hq.
  destruct (decide (p < length l1)%nat) as [Hp1|Hp1];
    destruct (decide (q < length l1)%nat) as [Hq1|Hq1].
  - rewrite lookup_app_l in Hp, Hq by done.
    apply (Hasc p q); [done|by rewrite lookup_app_l..].
  - rewrite lookup_app_l in Hp by done. rewrite lookup_app_r in Hq by lia.
    assert (v a <= v new) by (eapply Hl, list_elem_of_lookup_2, Hp).
    destruct (q - length l1)%nat as [|k] eqn:Ek; cbn in Hq.
    + simplify_eq. done.
    + assert (v new <= v b) by (eapply Hr, list_elem_of_lookup_2, Hq). lia.
  - lia.
  - rewrite lookup_app_r in Hp, Hq by lia.
    destruct (p - length l1)%nat as [|kp] eqn:Ekp;
      destruct (q - length l1)%nat as [|kq] eqn:Ekq; cbn in Hp, Hq.
    + simplify_eq. lia.
    + simplify_eq. eapply Hr, list_elem_of_lookup_2, Hq.
    + lia.
    + apply (Hasc (length l1 + kp)%nat (length l1 + kq)%nat); [lia|..].
      * rewrite lookup_app_r by lia. by replace (length l1 + kp - length l1)%nat with kp by lia.
      * rewrite lookup_app_r by lia. by replace (length l1 + kq - length l1)%nat with kq by lia.
Qed.

(** the insertion of [not_stisla_learn_anchor], once the block has room *)
Lemma insert_steps (blk : list not_stisla_anchor) (sz value : Z) (new : not_stisla_anchor) :
  0 <= sz < Z.of_nat (length blk) →
  ∃ pos moved blk',
    insertion_point blk sz value 0 (S (Z.to_nat sz)) = Some pos
    ∧ (if pos <? sz then memmove_up blk pos (sz - pos) else Some blk) = Some moved
    ∧ store moved pos new = Some blk'
    ∧ 0 <= pos <= sz
    ∧ length blk' = length blk
    ∧ take (Z.to_nat (sz + 1)) blk'
      = take (Z.to_nat pos) blk
        ++ new :: take (Z.to_nat sz - Z.to_nat pos) (drop (Z.to_nat pos) blk)
    ∧ (∀ k ak, 0 <= k < pos → load blk k = Some ak → v ak < value)
    ∧ (∀ aq, load blk pos = Some aq → pos < sz → value <= v aq).
Proof.
  intros Hsz.
  destruct (insertion_point_spec blk sz value (S (Z.to_nat sz)) ltac:(lia) 0)
    as (pos & Hpos & Hrange & Hbefore & Hat); [lia..|].
  set (moved := take (S (Z.to_nat pos)) blk
                ++ take (Z.to_nat sz - Z.to_nat pos) (drop (Z.to_nat pos) blk)
                ++ drop (S (Z.to_nat sz)) blk).
  assert (Hlen : length moved = length blk).
  { unfold moved. rewrite !length_app, !length_take, !length_drop. lia. }
  assert (Hmoved : (if pos <? sz then memmove_up blk pos (sz - pos) else Some blk)
                   = Some moved).
  { destruct (Z.ltb_spec pos sz) as [Hlt|Hge].
    - unfold memmove_up.
      destruct (Z.leb_spec 0 pos); [|lia]. destruct (Z.leb_spec 0 (sz - pos)); [|lia].
      destruct (Z.leb_spec (pos + 1 + (sz - pos)) (Z.of_nat (length blk))); [|lia].
      cbn [andb]. f_equal. unfold moved.
      replace (Z.to_nat (pos + 1)) with (S (Z.to_nat pos)) by lia.
      replace (Z.to_nat (sz - pos)) with (Z.to_nat sz - Z.to_nat pos)%nat by lia.
      replace (Z.to_nat (pos + 1 + (sz - pos))) with (S (Z.to_nat sz)) by lia.
      reflexivity.
    - f_equal. unfold moved. replace pos with sz by lia.
      symmetry. apply memmove_up_nothing. }
  exists pos, moved, (<[Z.to_nat pos := new]> moved).
  split; [done|]. split; [done|]. split.
  { unfold store. destruct (Z.leb_spec 0 pos); [|lia].
    destruct (Z.ltb_spec pos (Z.of_nat (length moved))); [done|lia]. }
  split; [done|]. split; [by rewrite length_insert|]. split; [|done].
  replace (Z.to_nat (sz + 1)) with (S (Z.to_nat sz)) by lia.
  apply shifted_insert_seq; lia.
Qed.

(** One learning event on a well-formed table: defined, and either the
    table is left as it is, or the anchor [(value, index)] enters the
    anchor sequence at a place where it keeps the values in ascending
    order. *)
Lemma learn_anchor_spec (h : heap) (t : not_stisla_anchor_table)
    (value index pred tol : Z) :
  well_formed t →
  ∃ t', not_stisla_learn_anchor h t value index pred tol = Some t'
        ∧ (t' = t
           ∨ (size t' = size t + 1
              ∧ size t' <= capacity t'
              ∧ ∃ pos : nat,
                  anchor_seq t'
                  = take pos (anchor_seq t)
                    ++ {| v := value; i := index |} :: drop pos (anchor_seq t)
                  ∧ (∀ a, a ∈ take pos (anchor_seq t) → v a < value)
                  ∧ (∀ a, a ∈ drop pos (anchor_seq t) → value <= v a))).
Proof.
  intros [Hsz Hasc]. unfold not_stisla_learn_anchor.
  destruct (_ <=? tol); [eauto|].
  destruct (Z.geb_spec (size t) (max_anchors_for (workload_type t))) as [|Hmax]; [eauto|].
  pose proof (max_anchors_for_range (workload_type t)) as Hrange.
  set (grown := if size t >=? capacity t then _ else _).
  assert (Hgrown : grown = None
                   ∨ ∃ blk, grown = Some blk
                            ∧ size t < Z.of_nat (length blk)
                            ∧ take (Z.to_nat (size t)) blk = anchor_seq t).
  { unfold grown, capacity in *. destruct (Z.geb_spec (size t) (Z.of_nat (length (anchors t)))).
    - destruct (realloc_ok h); [right|by left].
      eexists; split; [done|]. unfold realloc_block, fresh.
      set (new_cap := if _ =? 0 then 8 else _).
      assert (Hcap : size t < new_cap < 2 ^ 64).
      { unfold new_cap. destruct (Z.eqb_spec (Z.of_nat (length (anchors t))) 0); [lia|].
        rewrite u64_small; lia. }
      split.
      + rewrite length_take, length_app, length_fmap, length_seq. lia.
      + rewrite take_take, Nat.min_l by lia.
        rewrite take_app_le by lia. done.
    - right. eexists; split; [done|]. split; [lia|done]. }
  destruct Hgrown as [->|(blk & -> & Hlen & Htake)]; [eauto|].
  destruct (insert_steps blk (size t) value {| v := value; i := index |})
    as (pos & moved & blk' & -> & Hmoved & Hstore & Hpos & Hlen' & Hseq & Hbefore & Hat);
    [lia|].
  obind. rewrite Hmoved. obind. rewrite Hstore. obind.
  eexists; split; [done|]. right. unfold capacity, anchor_seq. cbn [size anchors].
  rewrite (u64_small (size t + 1)) by lia.
  split; [done|]. split; [lia|]. exists (Z.to_nat pos).
  assert (Hl1 : take (Z.to_nat pos) (anchor_seq t) = take (Z.to_nat pos) blk).
  { rewrite <- Htake, take_take. f_equal. lia. }
  assert (Hl2 : drop (Z.to_nat pos) (anchor_seq t)
                = take (Z.to_nat (size t) - Z.to_nat pos) (drop (Z.to_nat pos) blk)).
  { rewrite <- Htake, take_drop_commute. do 2 f_equal. lia. }
  fold (anchor_seq t). rewrite Hl1, Hl2. split; [done|]. split.
  - intros a (k & Hk)%list_elem_of_lookup.
    pose proof (lookup_lt_Some _ _ _ Hk) as Hklen. rewrite length_take in Hklen.
    rewrite lookup_take_lt in Hk by lia.
    apply (Hbefore (Z.of_nat k)); [lia|]. by rewrite load_nat.
  - rewrite <- Hl2. intros a (k & Hk)%list_elem_of_lookup.
    rewrite lookup_drop in Hk.
    destruct (anchor_seq t !! Z.to_nat pos) as [aq|] eqn:Eq.
    2:{ apply lookup_ge_None in Eq. apply lookup_lt_Some in Hk. lia. }
    assert (Hqv : value <= v aq).
    { pose proof (lookup_lt_Some _ _ _ Eq) as Hq. unfold anchor_seq in Hq.
      rewrite length_take in Hq. rewrite <- Htake, lookup_take_lt in Eq by lia.
      apply Hat; [|lia]. apply load_Some. split; [lia|done]. }
    pose proof (Hasc (Z.to_nat pos) (Z.to_nat pos + k)%nat aq a ltac:(lia) Eq Hk). lia.
Qed.

Lemma store_Some {A : Type} (a a' : list A) (k : Z) (x : A) :
  store a k x = Some a' → 0 <= k < Z.of_nat (length a) ∧ a' = <[Z.to_nat k := x]> a.
Proof.
  unfold store. destruct (Z.leb_spec 0 k); [|discriminate].
  destruct (Z.ltb_spec k (Z.of_nat (length a))); [|discriminate].
  intros [= <-]. split; [lia|done].
Qed.

Lemma learn_anchor_well_formed (h : heap) (t t' : not_stisla_anchor_table)
    (value index pred tol : Z) :
  well_formed t →
  not_stisla_learn_anchor h t value index pred tol = Some t' →
  well_formed t'.
Proof.
  intros Hwf Hl.
  destruct (learn_anchor_spec h t value index pred tol Hwf) as (t1 & Hl1 & Hcase).
  rewrite Hl in Hl1. injection Hl1 as <-.
  destruct Hcase as [->|(Hsz & Hcap & pos & Hseq & Hbefore & Hafter)]; [done|].
  destruct Hwf as [Hrange Hasc]. split; [lia|].
  rewrite Hseq. apply ascending_middle.
  - by rewrite take_drop.
  - intros a Ha. pose proof (Hbefore a Ha). cbn. lia.
  - intros a Ha. pose proof (Hafter a Ha). cbn. lia.
Qed.

Lemma init_endpoints_well_formed (h : heap) (arr : list Z) (n : Z)
    (t active : not_stisla_anchor_table) :
  well_formed t → sorted arr →
  init_endpoints h arr n t = Some (Some active) →
  well_formed active.
Proof.
  intros Hwf Hsorted. unfold init_endpoints.
  destruct (size t =? 0); [|by intros [= <-]].
  destruct (if capacity t =? 0 then _ else _) as [blk|]; [|discriminate].
  destruct (load arr 0) as [first|] eqn:Hfirst; obind; [|discriminate].
  destruct (store blk 0 _) as [blk1|] eqn:Hs1; obind; [|discriminate].
  destruct (load arr (n - 1)) as [last|] eqn:Hlast; obind; [|discriminate].
  destruct (store blk1 1 _) as [blk2|] eqn:Hs2; obind; [|discriminate].
  intros [= <-].
  apply store_Some in Hs1 as [Hlen1 ->]. apply store_Some in Hs2 as [Hlen2 ->].
  rewrite length_insert in Hlen2.
  destruct blk as [|b0 [|b1 rest]]; cbn in Hlen1, Hlen2; try lia.
  unfold well_formed, capacity, anchor_seq. cbn [anchors size].
  change (Z.to_nat 0) with 0%nat. change (Z.to_nat 1) with 1%nat.
  change (Z.to_nat 2) with 2%nat. cbn.
  split; [lia|]. apply ascendingb_correct. cbn.
  pose proof (load_in_range _ _ _ Hlast).
  pose proof (sorted_load arr 0 (n - 1) first last Hsorted ltac:(lia) Hfirst Hlast).
  rewrite andb_true_r. apply Z.leb_le. lia.
Qed.

Lemma search_well_formed (h : heap) (arr : list Z) (n key : Z)
    (t t' : not_stisla_anchor_table) (tol j : Z) :
  well_formed t → sorted arr →
  not_stisla_search h arr n key (Some t) tol = Some (j, Some t') →
  well_formed t'.
Proof.
  intros Hwf Hsorted Hs. apply search_with_table_inv in Hs.
  destruct Hs as [(_ & _ & [= ->])|[(_ & _ & _ & [= ->])|[(_ & _ & _ & [= ->])|
                  (_ & active & pred & Hinit & _ & H)]]]; try done.
  pose proof (init_endpoints_well_formed _ _ _ _ _ Hwf Hsorted Hinit) as Hact.
  destruct H as [[_ [= ->]]|(_ & found & learned & _ & Hl & [= ->])]; [done|].
  apply (learn_anchor_well_formed _ _ _ _ _ _ _ Hact Hl).
Qed.

Lemma batch_loop_well_formed (hs : nat → heap) (arr : list Z) (n : Z) (keys : list Z)
    (tol : Z) (iters : nat) :
  sorted arr →
  ∀ (idx : nat) (t : not_stisla_anchor_table) rs found ot,
    well_formed t →
    batch_loop hs arr n keys idx iters (Some t) tol = Some (rs, found, ot) →
    ∃ t', ot = Some t' ∧ well_formed t'.
Proof.
  intros Hsorted.
  induction iters as [|k IH]; intros idx t rs found ot Hwf; cbn [batch_loop].
  - intros [= _ _ <-]. eauto.
  - destruct (keys !! idx) as [key|]; obind; [|discriminate].
    destruct (not_stisla_search (hs idx) arr n key (Some t) tol) as [[r ot1]|] eqn:Es;
      obind; [|discriminate].
    destruct (search_with_table_returns_table _ _ _ _ _ _ _ _ Es) as [t1 ->].
    pose proof (search_well_formed _ _ _ _ _ _ _ _ Hwf Hsorted Es) as Hwf1.
    destruct (batch_loop hs arr n keys (S idx) k (Some t1) tol) as [[[rs' f'] ot2]|] eqn:Eb;
      obind; [|discriminate].
    intros [= _ _ <-]. eapply IH; eauto.
Qed.

Lemma reset_well_formed (t : not_stisla_anchor_table) (w : Z) :
  well_formed {| anchors := anchors t; size := 0;
                 searches_performed := 0; workload_type := w |}.
Proof.
  unfold well_formed, capacity, anchor_seq. cbn [size anchors].
  change (Z.to_nat 0) with 0%nat. rewrite take_0. split; [lia|].
  intros p q a b _ Hp. by rewrite lookup_nil in Hp.
Qed.

Lemma step_well_formed (o : op) (t t' : not_stisla_anchor_table) :
  well_formed t → op_sorted o = true → step o t = Some t' → well_formed t'.
Proof.
  intros Hwf. destruct o as [|w|h arr key tol|hs arr keys tol]; cbn [step op_sorted].
  - intros _ [= <-]. apply reset_well_formed.
  - intros _ [= <-]. apply reset_well_formed.
  - intros Hsorted%sortedb_sorted.
    destruct (not_stisla_search h arr (len arr) key (Some t) tol) as [[j ot]|] eqn:Es;
      obind; [|discriminate].
    intros ->. eapply search_well_formed; eauto.
  - intros Hsorted%sortedb_sorted. unfold not_stisla_batch_search.
    destruct (len keys =? 0); obind; [intros [= <-]; done|].
    destruct (batch_loop _ _ _ _ _ _ _ _) as [[[rs f] ot]|] eqn:Eb; obind; [|discriminate].
    intros ->.
    destruct (batch_loop_well_formed _ _ _ _ _ _ Hsorted _ _ _ _ _ Hwf Eb) as (t1 & [= <-] & ?).
    done.
Qed.

Lemma run_well_formed (ops : list op) :
  ∀ t t', well_formed t → forallb op_sorted ops = true →
          run ops t = Some t' → well_formed t'.
Proof.
  induction ops as [|o rest IH]; intros t t' Hwf; cbn [run forallb].
  - by intros _ [= <-].
  - intros [Ho Hrest]%andb_true_iff.
    destruct (step o t) as [t1|] eqn:E; obind; [|discriminate].
    apply IH; [|done]. eapply step_well_formed; eauto.
Qed.

Lemma create_well_formed (h : heap) (t0 : not_stisla_anchor_table) :
  not_stisla_anchor_table_create h = Some t0 → well_formed t0.
Proof.
  unfold not_stisla_anchor_table_create. destruct (malloc_ok h); [|discriminate].
  intros [= <-]. apply (reset_well_formed {| anchors := fresh h 8; size := 0;
                                             searches_performed := 0; workload_type := -1 |}).
Qed.

(** C5, as the code has it.  From the creation of a table on, through any
    sequence of reset, configure, search and batch search on sorted arrays
    (endpoint seeding and anchor insertion included), the anchor sequence
    stays sorted ascending by value; equal values can stand next to each
    other. *)
Theorem anchors_stay_ascending (h : heap) (ops : list op)
    (t0 t : not_stisla_anchor_table) :
  not_stisla_anchor_table_create h = Some t0 →
  forallb op_sorted ops = true →
  run ops t0 = Some t →
  ascending (anchor_seq t).
Proof.
  intros Hc Hsorted Hrun. apply create_well_formed in Hc.
  by destruct (run_well_formed ops t0 t Hc Hsorted Hrun).
Qed.

Lemma anchors_stay_ascending_witness : ascending (anchor_seq after_history).
Proof.
  apply (anchors_stay_ascending stale history
           (default zeroed_table (not_stisla_anchor_table_create stale)) after_history).
  - reflexivity.
  - reflexivity.
  - vm_compute. reflexivity.
Defined.

(** C5, as stated, fails at the seeding: on a sorted array whose first and
    last elements are equal (here 32 times the value 7) the two endpoint
    anchors carry the same value, so the anchor sequence is not strictly
    ascending. *)
Lemma seeding_equal_endpoints_not_strict :
  ∃ t0 t,
    not_stisla_anchor_table_create calm = Some t0
    ∧ forallb op_sorted [OpSearch calm flat 7 8] = true
    ∧ run [OpSearch calm flat 7 8] t0 = Some t
    ∧ anchor_seq t = [ {| v := 7; i := 0 |}; {| v := 7; i := 31 |} ]
    ∧ ¬ strictly_ascending (anchor_seq t).
Proof.
  eexists _, _. split; [reflexivity|]. split; [reflexivity|].
  split; [vm_compute; reflexivity|]. split; [reflexivity|].
  intros H.
  pose proof (H 0%nat 1%nat {| v := 7; i := 0 |} {| v := 7; i := 31 |}
                ltac:(lia) eq_refl eq_refl) as Hlt.
  cbn in Hlt. lia.
Qed.

(** ** Repeating a search *)

Lemma search_with_table_found (h : heap) (arr : list Z) (n key : Z)
    (t active learned : not_stisla_anchor_table) (tol j pred found : Z) :
  32 <= n →
  init_endpoints h arr n t = Some (Some active) →
  predict_and_search arr key tol active = Some (pred, j) →
  j ≠ NOT_STISLA_NOT_FOUND →
  load arr j = Some found →
  not_stisla_learn_anchor h active found j pred tol = Some learned →
  not_stisla_search h arr n key (Some t) tol = Some (j, Some (bump_searches learned)).
Proof.
  intros Hn Hinit Hps Hj Hload Hlearn. unfold not_stisla_search.
  destruct (Z.eqb_spec n 0); [lia|]. destruct (Z.ltb_spec n 32); [lia|].
  change (default local_table (Some t)) with t. rewrite Hinit. obind.
  rewrite Hps. obind.
  destruct (Z.eqb_spec j NOT_STISLA_NOT_FOUND); [done|].
  rewrite Hload. obind. rewrite Hlearn. done.
Qed.

Lemma bump_searches_well_formed (t : not_stisla_anchor_table) :
  well_formed t → well_formed (bump_searches t).
Proof. done. Qed.

(** C7, as the code has it.  On a sorted array and a well-formed table: if a
    call returns a found index [j] and learns no anchor (the anchor count
    after the call is the count after seeding), the same call on the
    resulting table returns [j] again, whatever the allocator does. *)
Theorem repeated_search_same_index (h h' : heap) (arr : list Z) (n key : Z)
    (t t' : not_stisla_anchor_table) (tol j : Z) :
  sorted arr → well_formed t →
  not_stisla_search h arr n key (Some t) tol = Some (j, Some t') →
  j ≠ NOT_STISLA_NOT_FOUND →
  size t' = seeded_size n t →
  ∃ t'', not_stisla_search h' arr n key (Some t') tol = Some (j, Some t'').
Proof.
  intros Hsorted Hwf Hs Hj Hsize. apply search_with_table_inv in Hs.
  destruct Hs as [(_ & ? & _)|[(Hn0 & Hn & Hc & [= ->])|[(_ & _ & ? & _)|
                  (Hn & active & pred & Hinit & Hps & H)]]]; try done.
  - exists t. unfold not_stisla_search.
    destruct (Z.eqb_spec n 0); [done|]. destruct (Z.ltb_spec n 32); [|lia].
    rewrite Hc. done.
  - destruct H as [[? _]|(_ & found & learned & Hload & Hlearn & [= ->])]; [done|].
    pose proof (init_endpoints_well_formed _ _ _ _ _ Hwf Hsorted Hinit) as Hact.
    pose proof (init_endpoints_frame _ _ _ _ _ Hinit) as (_ & _ & Hsz & _).
    unfold seeded_size in Hsize. destruct (Z.leb_spec 32 n); [|lia].
    cbn [andb size bump_searches] in Hsize. rewrite <- Hsz in Hsize.
    assert (learned = active) as ->.
    { apply learn_anchor_frame in Hlearn as (_ & _ & [->|[Hlt Hsz']]); [done|].
      destruct Hact as [Hrange _].
      pose proof (max_anchors_for_range (workload_type active)).
      rewrite u64_small in Hsz' by lia. lia. }
    destruct (learn_anchor_spec h' (bump_searches active) found j pred tol
                (bump_searches_well_formed _ Hact)) as (t3 & Hl3 & _).
    exists (bump_searches t3).
    apply (search_with_table_found h' arr n key (bump_searches active)
             (bump_searches active) t3 tol j pred found); try done.
    unfold init_endpoints. cbn [size bump_searches].
    destruct (Z.eqb_spec (size active) 0) as [E|E]; [|done].
    destruct (Z.eqb_spec (size t) 0); lia.
Qed.

Lemma repeated_search_same_index_witness :
  ∃ t'', not_stisla_search stale ramp 32 5
           (Some (bump_searches
                    {| anchors := <[0%nat := {| v := 0; i := 0 |}]>
                                    (<[1%nat := {| v := 31; i := 31 |}]> (fresh calm 8));
                       size := 2; searches_performed := 0; workload_type := -1 |})) 8
         = Some (5, Some t'').
Proof.
  apply (repeated_search_same_index calm stale ramp 32 5 zeroed_table _ 8 5).
  - apply sortedb_sorted. reflexivity.
  - split; [vm_compute; split; congruence|]. apply ascendingb_correct. reflexivity.
  - vm_compute. reflexivity.
  - vm_compute. congruence.
  - reflexivity.
Defined.

(** C7, as stated, fails.  A table is created in memory that still holds
    old cells, and seeded by a search on [ramp].  On the sorted array
    [plateau], where the key 100 fills the cells 31 to 63, a first search
    finds the key at 47 and learns the anchor (100, 47); the same search on
    the resulting table finds it at 51. *)
Lemma repeated_search_other_index :
  ∃ t0 t1 t2 t3,
    not_stisla_anchor_table_create stale = Some t0
    ∧ run [OpSearch calm ramp 5 8] t0 = Some t1
    ∧ sortedb plateau = true ∧ len plateau = 64
    ∧ not_stisla_search calm plateau 64 100 (Some t1) 8 = Some (47, Some t2)
    ∧ 47 ≠ NOT_STISLA_NOT_FOUND
    ∧ not_stisla_search calm plateau 64 100 (Some t2) 8 = Some (51, Some t3).
Proof.
  eexists _, _, _, _. split; [reflexivity|].
  split; [vm_compute; reflexivity|]. split; [reflexivity|]. split; [reflexivity|].
  split; [vm_compute; reflexivity|]. split; [vm_compute; congruence|].
  vm_compute. reflexivity.
Qed.

(** ** Search correctness: what holds and where it fails *)

(** a key that is nowhere in the array is never found *)
Lemma search_absent_not_found (h : heap) (arr : list Z) (n key : Z)
    (table table' : option not_stisla_anchor_table) (tol j : Z) :
  n = len arr → (∀ p, load arr p ≠ Some key) →
  not_stisla_search h arr n key table tol = Some (j, table') →
  j = NOT_STISLA_NOT_FOUND.
Proof.
  intros Hn Habsent Hs. destruct (Z.eq_dec j NOT_STISLA_NOT_FOUND) as [|Hj]; [done|].
  destruct (search_sound _ _ _ _ _ _ _ _ Hn Hs Hj) as [_ Hload].
  by destruct (Habsent j).
Qed.

(** below 32 elements a key of the array is found *)
Lemma search_small_array_finds (h : heap) (arr : list Z) (n key p : Z)
    (table : option not_stisla_anchor_table) (tol : Z) :
  n = len arr → n < 32 → load arr p = Some key →
  ∃ j, not_stisla_search h arr n key table tol = Some (j, table)
       ∧ j ≠ NOT_STISLA_NOT_FOUND ∧ load arr j = Some key.
Proof.
  intros Hn Hsmall Hp. pose proof (load_in_range _ _ _ Hp) as Hrange.
  unfold not_stisla_search.
  destruct (Z.eqb_spec n 0); [unfold len in *; lia|].
  destruct (Z.ltb_spec n 32); [|lia].
  rewrite (chunked_search_linear arr n key Hn).
  destruct (linear_scan_spec arr n key Hn ltac:(lia))
    as [[_ Hnone]|(q & Hq & _ & Hnf & Hkey & _)]; obind.
  - apply load_Some in Hp as [_ Hp]. by destruct (Hnone (Z.to_nat p)).
  - eexists; split; [done|]. split; [done|]. by rewrite Hq, load_nat.
Qed.

(** C1, where the code breaks it.  [skewed] is sorted, has 32 elements and
    holds the key 15 at index 15.  With the tolerance 8, on any freshly
    created table and on the [NULL] table, [not_stisla_search] returns
    [NOT_FOUND]: the prediction is 0, the window is [0 .. 8], and a key
    outside the window is not looked for anywhere else. *)
Theorem search_misses_present_key :
  sortedb skewed = true
  ∧ len skewed = 32
  ∧ load skewed 15 = Some 15
  ∧ (∀ (h h' : heap) (t : not_stisla_anchor_table),
        not_stisla_anchor_table_create h = Some t →
        fst <$> not_stisla_search h' skewed 32 15 (Some t) 8
        = Some NOT_STISLA_NOT_FOUND)
  ∧ (∀ h' : heap,
        fst <$> not_stisla_search h' skewed 32 15 None 8 = Some NOT_STISLA_NOT_FOUND).
Proof.
  split; [reflexivity|]. split; [reflexivity|]. split; [reflexivity|]. split.
  - intros h h' t. unfold not_stisla_anchor_table_create.
    destruct (malloc_ok h); [|discriminate]. intros [= <-]. vm_compute. reflexivity.
  - intros h'. unfold not_stisla_search, init_endpoints. cbn [Z.eqb Z.ltb Z.compare].
    change (capacity (default local_table None)) with 0.
    change (size (default local_table None)) with 0.
    cbn [Z.eqb]. destruct (malloc_ok h'); [|reflexivity]. vm_compute. reflexivity.
Qed.

(** The same defect at the smallest tolerance: with [tol = 0] the window is
    the single predicted cell, which the local search rejects unseen.  On
    [ramp], where every prediction is exact, no key is found. *)
Lemma search_zero_tolerance_finds_nothing :
  load ramp 5 = Some 5
  ∧ fst <$> not_stisla_search calm ramp 32 5 (Some zeroed_table) 0
    = Some NOT_STISLA_NOT_FOUND.
Proof. split; [reflexivity|]. vm_compute. reflexivity. Qed.

(** A key at or above the last element of the array sends the locator to
    the last anchor; the right anchor is then read one cell past the anchors
    in use.  In zero-filled memory the last element of [ramp] is not found;
    on the [NULL] table, whose block has two cells, the read is outside the
    block. *)
Lemma search_last_element_reads_past_anchors :
  load ramp 31 = Some 31
  ∧ fst <$> not_stisla_search calm ramp 32 31 (Some zeroed_table) 8
    = Some NOT_STISLA_NOT_FOUND
  ∧ not_stisla_search calm ramp 32 31 None 8 = None.
Proof. split; [reflexivity|]. split; vm_compute; reflexivity. Qed.

(** * Further properties of the code *)

(** ** BoundedLocalSearch: confinement, safety, completeness *)

Lemma local_search_loop_window (arr : list Z) (key : Z) (fuel : nat) :
  len arr < 2 ^ 64 →
  ∀ lo hi m, 0 <= lo → local_search_loop arr key lo hi fuel = Some m →
             m ≠ NOT_STISLA_NOT_FOUND → lo <= m <= hi.
Proof.
  intros Hlen. induction fuel as [|k IH]; intros lo hi m Hlo;
    cbn [local_search_loop]; [discriminate|].
  destruct (Z.leb_spec lo hi) as [Hle|]; [|congruence].
  pose proof (midpoint_between lo hi Hle) as Hmid.
  set (mid := lo + Z.shiftr (hi - lo) 1) in *.
  destruct (load arr mid) as [val|] eqn:E; obind; [|discriminate].
  apply load_in_range in E. unfold len in Hlen.
  destruct (val <? key).
  - rewrite u64_small by lia. intros H1 H2.
    specialize (IH (mid + 1) hi m ltac:(lia) H1 H2). lia.
  - destruct (val >? key).
    + destruct (Z.eqb_spec mid 0); [congruence|].
      intros H1 H2. specialize (IH _ _ _ Hlo H1 H2). lia.
    + intros [= <-] _. lia.
Qed.

(** what a found index of the local search tells about its call *)
Lemma local_search_found_inv (arr : list Z) (lo hi key m : Z) :
  len arr < 2 ^ 64 → 0 <= lo →
  not_stisla_local_search arr lo hi key = Some m → m ≠ NOT_STISLA_NOT_FOUND →
  lo < hi ∧ hi < len arr ∧ lo <= m <= hi ∧ load arr m = Some key.
Proof.
  intros Hlen Hlo Hs Hm. pose proof (local_search_sound _ _ _ _ _ Hs Hm) as Hkey.
  revert Hs. unfold not_stisla_local_search.
  destruct (Z.geb_spec lo hi); [congruence|].
  destruct (load arr lo) as [al|]; obind; [|discriminate].
  destruct (al >? key); [congruence|].
  destruct (load arr hi) as [ah|] eqn:Eh; obind; [|discriminate].
  destruct (ah <? key); [congruence|].
  apply load_in_range in Eh. intros Hs.
  pose proof (local_search_loop_window _ _ _ Hlen _ _ _ Hlo Hs Hm).
  unfold len. repeat split; try done; lia.
Qed.

(** The local search never leaves its window: on any array (sorted or
    not), an index it returns other than [NOT_FOUND] lies in [lo .. hi] and
    holds the key. *)
Theorem local_search_stays_in_window (arr : list Z) (lo hi key m : Z) :
  len arr < 2 ^ 64 → 0 <= lo →
  not_stisla_local_search arr lo hi key = Some m → m ≠ NOT_STISLA_NOT_FOUND →
  lo <= m <= hi ∧ load arr m = Some key.
Proof.
  intros Hlen Hlo Hs Hm.
  destruct (local_search_found_inv arr lo hi key m Hlen Hlo Hs Hm) as (_ & _ & ? & ?).
  done.
Qed.

Lemma local_search_stays_in_window_witness :
  3 <= 4 <= 6 ∧ load [1; 3; 5; 7; 9; 11; 13] 4 = Some 9.
Proof.
  apply (local_search_stays_in_window [1; 3; 5; 7; 9; 11; 13] 3 6 9 4).
  - reflexivity.
  - lia.
  - reflexivity.
  - vm_compute. congruence.
Defined.

(** Memory safety of the local search: for a window inside the array it
    reads no cell outside the array and its loop ends, whatever the array
    holds. *)
Theorem local_search_memory_safe (arr : list Z) (lo hi key : Z) :
  len arr < 2 ^ 64 → 0 <= lo → hi < len arr →
  ∃ m, not_stisla_local_search arr lo hi key = Some m
       ∧ (m = NOT_STISLA_NOT_FOUND ∨ (lo <= m <= hi ∧ load arr m = Some key)).
Proof.
  intros Hlen Hlo Hhi.
  destruct (local_search_defined arr lo hi key Hlen Hlo Hhi) as [m Hm].
  exists m. split; [done|].
  destruct (Z.eq_dec m NOT_STISLA_NOT_FOUND) as [|Hne]; [by left|right].
  by destruct (local_search_found_inv arr lo hi key m Hlen Hlo Hm Hne) as (_ & _ & ? & ?).
Qed.

Lemma local_search_memory_safe_witness :
  ∃ m, not_stisla_local_search [9; 2; 7; 7; 1] 0 4 7 = Some m
       ∧ (m = NOT_STISLA_NOT_FOUND ∨ (0 <= m <= 4 ∧ load [9; 2; 7; 7; 1] m = Some 7)).
Proof.
  apply (local_search_memory_safe [9; 2; 7; 7; 1] 0 4 7); [reflexivity|lia|].
  vm_compute. reflexivity.
Defined.

(** On a sorted array and a window of two cells or more inside it, the
    local search finds the key exactly when the window holds it: it
    returns a cell of the window with the key, or [NOT_FOUND] when no cell
    of the window has it. *)
Theorem local_search_finds_in_window (arr : list Z) (lo hi key : Z) :
  sorted arr → len arr < 2 ^ 64 → 0 <= lo → lo < hi → hi < len arr →
  ∃ m, not_stisla_local_search arr lo hi key = Some m
       ∧ ((m = NOT_STISLA_NOT_FOUND ∧ ∀ p, lo <= p <= hi → load arr p ≠ Some key)
          ∨ (m ≠ NOT_STISLA_NOT_FOUND ∧ lo <= m <= hi ∧ load arr m = Some key)).
Proof. apply local_search_complete. Qed.

Lemma local_search_finds_in_window_witness :
  ∃ m, not_stisla_local_search ramp 3 12 7 = Some m
       ∧ ((m = NOT_STISLA_NOT_FOUND ∧ ∀ p, 3 <= p <= 12 → load ramp p ≠ Some 7)
          ∨ (m ≠ NOT_STISLA_NOT_FOUND ∧ 3 <= m <= 12 ∧ load ramp m = Some 7)).
Proof.
  apply (local_search_finds_in_window ramp 3 12 7).
  - apply sortedb_sorted. reflexivity.
  - reflexivity.
  - lia.
  - lia.
  - reflexivity.
Defined.

(** ** Interpolator: no overflow, anchors, monotonicity *)

Lemma quot_abs_le (a b : Z) : b ≠ 0 → Z.abs (Z.quot a b) <= Z.abs a.
Proof.
  intros Hb. rewrite <- Z.quot_abs by done.
  rewrite Z.quot_div_nonneg by lia.
  apply Z.div_le_upper_bound; [lia|]. nia.
Qed.

(** between the anchors' values the prediction is the plain quotient *)
Lemma interpolate_bracket_value (l_val r_val l_idx r_idx key : Z) :
  INT64_MIN <= l_val <= INT64_MAX → INT64_MIN <= r_val <= INT64_MAX →
  0 <= l_idx <= r_idx → r_idx < 2 ^ 63 →
  l_val < r_val → l_val <= key <= r_val →
  not_stisla_interpolate l_val r_val l_idx r_idx key
  = l_idx + (key - l_val) * (r_idx - l_idx) / (r_val - l_val).
Proof.
  unfold INT64_MIN, INT64_MAX. intros Hl Hrv Hidx Hr Hlt Hkey.
  unfold not_stisla_interpolate.
  destruct (Z.eqb_spec r_val l_val); [lia|].
  rewrite (u64_small (r_idx - l_idx)) by lia.
  rewrite (s128_small (key - l_val)) by lia.
  rewrite (s128_small (r_val - l_val)) by lia.
  destruct (Z.eqb_spec (r_val - l_val) 0); [lia|].
  assert (Hprod : 0 <= (key - l_val) * (r_idx - l_idx) < 2 ^ 127) by nia.
  rewrite (s128_small ((key - l_val) * (r_idx - l_idx))) by lia.
  rewrite Z.quot_div_nonneg by lia.
  set (frac := (key - l_val) * (r_idx - l_idx) / (r_val - l_val)).
  assert (Hfrac : 0 <= frac <= r_idx - l_idx).
  { unfold frac. split; [apply Z.div_pos; lia|].
    apply Z.div_le_upper_bound; [lia|]. nia. }
  rewrite (s128_small frac) by lia.
  rewrite (s128_small (l_idx + frac)) by lia.
  destruct (Z.ltb_spec (l_idx + frac) 0); [lia|].
  rewrite (u64_small (l_idx + frac)) by lia.
  destruct (Z.gtb_spec (l_idx + frac) r_idx); [lia|].
  rewrite s64_small; lia.
Qed.

(** The [__int128] intermediates of the interpolator never overflow.  For
    int64 values and keys and indices [0 <= l_idx <= r_idx < 2^63] the
    difference, the product, the quotient and the sum are those of the
    integers, so the function is the formula over the integers followed by
    the code's [(size_t)] conversion of the result.  Whenever the unclamped
    index is below 2^64, and so whenever [l_val < r_val] and
    [key <= r_val], the function is the clamp of that index into
    [0, r_idx]. *)
Theorem interpolate_no_overflow (l_val r_val l_idx r_idx key : Z) :
  INT64_MIN <= l_val <= INT64_MAX → INT64_MIN <= r_val <= INT64_MAX →
  INT64_MIN <= key <= INT64_MAX →
  0 <= l_idx <= r_idx → r_idx < 2 ^ 63 →
  not_stisla_interpolate l_val r_val l_idx r_idx key
  = interpolate_converted l_val r_val l_idx r_idx key
  ∧ (interpolate_unclamped l_val r_val l_idx r_idx key < 2 ^ 64 →
     not_stisla_interpolate l_val r_val l_idx r_idx key
     = interpolate_clamped l_val r_val l_idx r_idx key)
  ∧ (l_val < r_val → key <= r_val →
     not_stisla_interpolate l_val r_val l_idx r_idx key
     = interpolate_clamped l_val r_val l_idx r_idx key).
Proof.
  unfold INT64_MIN, INT64_MAX. intros Hl Hrv Hk Hidx Hr.
  assert (Hconv : not_stisla_interpolate l_val r_val l_idx r_idx key
                  = interpolate_converted l_val r_val l_idx r_idx key).
  { unfold not_stisla_interpolate, interpolate_converted, interpolate_unclamped.
    destruct (Z.eqb_spec r_val l_val); [rewrite s64_small; lia|].
    rewrite (u64_small (r_idx - l_idx)) by lia.
    rewrite (s128_small (key - l_val)) by lia.
    rewrite (s128_small (r_val - l_val)) by lia.
    destruct (Z.eqb_spec (r_val - l_val) 0); [lia|].
    set (P := (key - l_val) * (r_idx - l_idx)).
    assert (HP : Z.abs P <= (2 ^ 64 - 1) * (2 ^ 63 - 1)).
    { unfold P. rewrite Z.abs_mul. apply Z.mul_le_mono_nonneg; lia. }
    rewrite (s128_small P) by lia.
    pose proof (quot_abs_le P (r_val - l_val) ltac:(lia)) as HQ.
    rewrite (s128_small (Z.quot P (r_val - l_val))) by lia.
    rewrite (s128_small (l_idx + Z.quot P (r_val - l_val))) by lia.
    destruct (Z.ltb_spec (l_idx + Z.quot P (r_val - l_val)) 0); [done|].
    destruct (Z.gtb_spec (u64 (l_idx + Z.quot P (r_val - l_val))) r_idx);
      [rewrite s64_small; lia|].
    apply s64_of_small_u64. lia. }
  assert (Hclamp : interpolate_unclamped l_val r_val l_idx r_idx key < 2 ^ 64 →
                   not_stisla_interpolate l_val r_val l_idx r_idx key
                   = interpolate_clamped l_val r_val l_idx r_idx key).
  { intros Hsmall. rewrite Hconv. unfold interpolate_converted, interpolate_clamped.
    destruct (r_val =? l_val); [done|]. cbv zeta.
    destruct (Z.ltb_spec (interpolate_unclamped l_val r_val l_idx r_idx key) 0); [done|].
    by rewrite u64_small by lia. }
  split; [done|]. split; [done|].
  intros Hlt Hkey. apply Hclamp. unfold interpolate_unclamped.
  assert (Z.quot ((key - l_val) * (r_idx - l_idx)) (r_val - l_val) <= r_idx - l_idx);
    [|lia].
  rewrite <- (Z.quot_mul (r_idx - l_idx) (r_val - l_val)) at 2 by lia.
  apply Z.quot_le_mono; [lia|]. nia.
Qed.

Lemma interpolate_no_overflow_witness :
  not_stisla_interpolate INT64_MIN INT64_MAX 0 (2 ^ 63 - 1) INT64_MAX
  = interpolate_converted INT64_MIN INT64_MAX 0 (2 ^ 63 - 1) INT64_MAX
  ∧ (interpolate_unclamped INT64_MIN INT64_MAX 0 (2 ^ 63 - 1) INT64_MAX < 2 ^ 64 →
     not_stisla_interpolate INT64_MIN INT64_MAX 0 (2 ^ 63 - 1) INT64_MAX
     = interpolate_clamped INT64_MIN INT64_MAX 0 (2 ^ 63 - 1) INT64_MAX)
  ∧ (INT64_MIN < INT64_MAX → INT64_MAX <= INT64_MAX →
     not_stisla_interpolate INT64_MIN INT64_MAX 0 (2 ^ 63 - 1) INT64_MAX
     = interpolate_clamped INT64_MIN INT64_MAX 0 (2 ^ 63 - 1) INT64_MAX).
Proof.
  apply (interpolate_no_overflow INT64_MIN INT64_MAX 0 (2 ^ 63 - 1) INT64_MAX);
    vm_compute; try split; congruence.
Defined.

(** Past 2^64 the conversion does wrap: with the anchors [(0, 0)] and
    [(1, 100)] the unclamped index of the key 184467440737095517 is
    [2^64 + 84]; the code returns 84 where the clamp is 100. *)
Lemma interpolate_conversion_wraps :
  interpolate_unclamped 0 1 0 100 184467440737095517 = 2 ^ 64 + 84
  ∧ not_stisla_interpolate 0 1 0 100 184467440737095517 = 84
  ∧ interpolate_clamped 0 1 0 100 184467440737095517 = 100.
Proof. repeat split; vm_compute; reflexivity. Qed.

(** The interpolator is exact at the anchors: the left anchor's value gives
    [l_idx], the right anchor's value gives [r_idx], and when both anchors
    carry the same value every key gives [l_idx]. *)
Theorem interpolate_at_anchors (l_val r_val l_idx r_idx key : Z) :
  INT64_MIN <= l_val <= INT64_MAX → INT64_MIN <= r_val <= INT64_MAX →
  0 <= l_idx <= r_idx → r_idx < 2 ^ 63 → l_val <= r_val →
  not_stisla_interpolate l_val r_val l_idx r_idx l_val = l_idx
  ∧ (l_val < r_val → not_stisla_interpolate l_val r_val l_idx r_idx r_val = r_idx)
  ∧ (l_val = r_val → not_stisla_interpolate l_val r_val l_idx r_idx key = l_idx).
Proof.
  intros Hl Hrv Hidx Hr Hle. split; [|split].
  - destruct (Z.eq_dec l_val r_val) as [<-|Hne].
    + unfold not_stisla_interpolate. rewrite Z.eqb_refl. apply s64_small. lia.
    + rewrite interpolate_bracket_value by lia.
      rewrite Z.sub_diag, Z.mul_0_l, Z.div_0_l by lia. lia.
  - intros Hlt. rewrite interpolate_bracket_value by lia.
    rewrite Z.mul_comm, Z.div_mul by lia. lia.
  - intros <-. unfold not_stisla_interpolate. rewrite Z.eqb_refl. apply s64_small. lia.
Qed.

Lemma interpolate_at_anchors_witness :
  not_stisla_interpolate (-50) 950 3 40 (-50) = 3
  ∧ (-50 < 950 → not_stisla_interpolate (-50) 950 3 40 950 = 40)
  ∧ (-50 = 950 → not_stisla_interpolate (-50) 950 3 40 7 = 3).
Proof.
  apply (interpolate_at_anchors (-50) 950 3 40 7); vm_compute; try split; congruence.
Defined.

(** Between the anchors' values the prediction is monotone in the key. *)
Theorem interpolate_monotone (l_val r_val l_idx r_idx key1 key2 : Z) :
  INT64_MIN <= l_val <= INT64_MAX → INT64_MIN <= r_val <= INT64_MAX →
  0 <= l_idx <= r_idx → r_idx < 2 ^ 63 →
  l_val <= key1 → key1 <= key2 → key2 <= r_val →
  not_stisla_interpolate l_val r_val l_idx r_idx key1
  <= not_stisla_interpolate l_val r_val l_idx r_idx key2.
Proof.
  intros Hl Hrv Hidx Hr H1 H12 H2.
  destruct (Z.eq_dec l_val r_val) as [<-|Hne].
  - unfold not_stisla_interpolate. rewrite Z.eqb_refl. lia.
  - rewrite !interpolate_bracket_value by lia.
    apply Z.add_le_mono_l, Z.div_le_mono; [lia|]. nia.
Qed.

Lemma interpolate_monotone_witness :
  not_stisla_interpolate 0 1000 0 31 15 <= not_stisla_interpolate 0 1000 0 31 700.
Proof.
  apply (interpolate_monotone 0 1000 0 31 15 700); vm_compute; try split; congruence.
Defined.

Lemma interpolate_line_value (l_val l_idx r_idx b p : Z) :
  INT64_MIN <= l_val → l_val + b * (r_idx - l_idx) <= INT64_MAX →
  0 < b → 0 <= l_idx → l_idx <= p → p <= r_idx → r_idx < 2 ^ 63 →
  not_stisla_interpolate l_val (l_val + b * (r_idx - l_idx)) l_idx r_idx
    (l_val + b * (p - l_idx)) = p.
Proof.
  unfold INT64_MIN, INT64_MAX. intros Hl Hr Hb Hli Hp Hpr Hri.
  destruct (Z.eq_dec l_idx r_idx) as [<-|Hne].
  - assert (p = l_idx) as -> by lia. unfold not_stisla_interpolate.
    rewrite Z.sub_diag, Z.mul_0_r, Z.add_0_r, Z.eqb_refl. apply s64_small. lia.
  - rewrite interpolate_bracket_value; unfold INT64_MIN, INT64_MAX; try nia.
    replace (l_val + b * (p - l_idx) - l_val) with (b * (p - l_idx)) by lia.
    replace (l_val + b * (r_idx - l_idx) - l_val) with (b * (r_idx - l_idx)) by lia.
    replace (b * (p - l_idx) * (r_idx - l_idx))
      with ((p - l_idx) * (b * (r_idx - l_idx))) by lia.
    rewrite Z.div_mul by nia. lia.
Qed.

(** On evenly spaced values the prediction is exact: if the anchors and
    the key lie on a line of slope [b > 0] (value [l_val + b * (p - l_idx)]
    at index [p]), the interpolator returns [p]. *)
Theorem interpolate_exact_on_line (l_val l_idx r_idx b p : Z) :
  INT64_MIN <= l_val → l_val + b * (r_idx - l_idx) <= INT64_MAX →
  0 < b → 0 <= l_idx → l_idx <= p → p <= r_idx → r_idx < 2 ^ 63 →
  not_stisla_interpolate l_val (l_val + b * (r_idx - l_idx)) l_idx r_idx
    (l_val + b * (p - l_idx)) = p.
Proof. apply interpolate_line_value. Qed.

Lemma interpolate_exact_on_line_witness :
  not_stisla_interpolate 100 (100 + 2 * (99999 - 0)) 0 99999 (100 + 2 * (2500 - 0)) = 2500.
Proof.
  apply (interpolate_exact_on_line 100 0 99999 2 2500); vm_compute; congruence.
Defined.

(** ** AnchorLocator: positions returned on any table *)

(** Sorted or not, the locator stays inside the anchors in use: on an empty
    table it returns 0 without reading; otherwise it reads cells below
    [size] only and returns a position below [size]; with four anchors or
    more the position after it is also in use. *)
Theorem anchor_lower_in_bounds (t : not_stisla_anchor_table) (key : Z) :
  0 <= size t <= capacity t →
  ∃ p, not_stisla_anchor_lower t key = Some p
       ∧ (size t = 0 → p = 0)
       ∧ (1 <= size t → 0 <= p < size t)
       ∧ (4 <= size t → p + 1 < size t).
Proof.
  intros Hsz. unfold capacity in Hsz. unfold not_stisla_anchor_lower.
  destruct (Z.eqb_spec (size t) 0) as [E0|N0].
  { exists 0. split; [done|]. repeat split; intros; lia. }
  destruct (load_defined (anchors t) 0) as [a0 Ha0]; [lia|].
  destruct (load_defined (anchors t) (size t - 1)) as [alast Hlast]; [lia|].
  destruct (Z.eqb_spec (size t - 1 - 0) 0) as [E1|N1].
  { rewrite Ha0. obind. eexists; split; [done|].
    destruct (v a0 <=? key); repeat split; intros; lia. }
  destruct (Z.eqb_spec (size t - 1 - 0) 1) as [E2|N2].
  { rewrite Ha0. obind. destruct (v a0 <=? key).
    - rewrite Hlast. obind. eexists; split; [done|].
      destruct (v alast <=? key); repeat split; intros; lia.
    - eexists; split; [done|]. repeat split; intros; lia. }
  destruct (Z.eqb_spec (size t - 1 - 0) 2) as [E3|N3].
  { destruct (load_defined (anchors t) (0 + 1)) as [a1 Ha1]; [lia|].
    rewrite Ha1. obind. destruct (v a1 <=? key).
    - rewrite Hlast. obind. eexists; split; [done|].
      destruct (v alast <=? key); repeat split; intros; lia.
    - rewrite Ha0. obind. destruct (v a0 <=? key);
        (eexists; split; [done|]); repeat split; intros; lia. }
  destruct (anchor_lower_loop_spec (anchors t) key (Z.to_nat (size t - 1 - 0)) 0 (size t - 1))
    as (p & Hp & Hlo & Hhi & _); [lia..|].
  exists p. split; [done|]. repeat split; intros; lia.
Qed.

Lemma anchor_lower_in_bounds_witness :
  ∃ p, not_stisla_anchor_lower four_anchors 35 = Some p
       ∧ (size four_anchors = 0 → p = 0)
       ∧ (1 <= size four_anchors → 0 <= p < size four_anchors)
       ∧ (4 <= size four_anchors → p + 1 < size four_anchors).
Proof.
  apply (anchor_lower_in_bounds four_anchors 35). vm_compute. split; congruence.
Defined.

(** ** Learning Policy: when the table changes and how *)

Lemma learn_anchor_skip (h : heap) (t : not_stisla_anchor_table)
    (value index pred tol : Z) :
  Z.abs (pred - index) <= tol
  ∨ max_anchors_for (workload_type t) <= size t
  ∨ (capacity t <= size t ∧ realloc_ok h = false) →
  not_stisla_learn_anchor h t value index pred tol = Some t.
Proof.
  intros Hskip. unfold not_stisla_learn_anchor.
  destruct (Z.leb_spec (if pred >? index then pred - index else index - pred) tol)
    as [|Hdiff]; [done|].
  destruct (Z.geb_spec (size t) (max_anchors_for (workload_type t))) as [|Hmax]; [done|].
  destruct Hskip as [Hd|[?|[Hcap Hre]]].
  - destruct (Z.gtb_spec pred index); lia.
  - lia.
  - destruct (Z.geb_spec (size t) (capacity t)); [|lia]. by rewrite Hre.
Qed.

Lemma learn_anchor_grows (h : heap) (t t' : not_stisla_anchor_table)
    (value index pred tol : Z) :
  tol < Z.abs (pred - index) →
  size t < max_anchors_for (workload_type t) →
  size t < capacity t ∨ realloc_ok h = true →
  not_stisla_learn_anchor h t value index pred tol = Some t' →
  size t' = u64 (size t + 1).
Proof.
  intros Hdiff Hmax Hroom. unfold not_stisla_learn_anchor.
  destruct (Z.leb_spec (if pred >? index then pred - index else index - pred) tol)
    as [Hd|_]; [destruct (Z.gtb_spec pred index); lia|].
  destruct (Z.geb_spec (size t) (max_anchors_for (workload_type t))); [lia|].
  assert (Hgrown : ∃ blk, (if size t >=? capacity t
                           then if realloc_ok h
                                then Some (realloc_block h (anchors t)
                                             (if capacity t =? 0 then 8
                                              else u64 (capacity t * 2)))
                                else None
                           else Some (anchors t)) = Some blk).
  { destruct (Z.geb_spec (size t) (capacity t)); [|eauto].
    destruct Hroom as [? | ->]; [lia|eauto]. }
  destruct Hgrown as [blk ->].
  destruct (insertion_point _ _ _ _ _) as [pos|]; obind; [|discriminate].
  destruct (if pos <? size t then _ else _) as [moved|]; obind; [|discriminate].
  destruct (store moved pos _); obind; [|discriminate].
  by intros [= <-].
Qed.

(** One learning event on a well-formed table is always defined and keeps
    the counter and the workload type.  The table is left exactly as it was
    when the prediction error is within the tolerance, when the table is at
    its workload's maximum, or when it is full and [realloc] fails.
    Otherwise the anchor count grows by one and the anchor sequence is the
    old one with [(value, index)] inserted, still ascending, every old
    anchor kept. *)
Theorem learn_anchor_characterised (h : heap) (t : not_stisla_anchor_table)
    (value index pred tol : Z) :
  well_formed t →
  ∃ t', not_stisla_learn_anchor h t value index pred tol = Some t'
        ∧ searches_performed t' = searches_performed t
        ∧ workload_type t' = workload_type t
        ∧ (((Z.abs (pred - index) <= tol
             ∨ max_anchors_for (workload_type t) <= size t
             ∨ (capacity t <= size t ∧ realloc_ok h = false))
            ∧ t' = t)
           ∨ (tol < Z.abs (pred - index)
              ∧ size t < max_anchors_for (workload_type t)
              ∧ (size t < capacity t ∨ realloc_ok h = true)
              ∧ size t' = size t + 1
              ∧ size t' <= capacity t'
              ∧ ascending (anchor_seq t')
              ∧ ∃ pos : nat,
                  anchor_seq t'
                  = take pos (anchor_seq t)
                    ++ {| v := value; i := index |} :: drop pos (anchor_seq t))).
Proof.
  intros Hwf.
  destruct (learn_anchor_spec h t value index pred tol Hwf) as (t' & Hl & Hcase).
  pose proof (learn_anchor_frame _ _ _ _ _ _ _ Hl) as (Hsp & Hw & _).
  pose proof (learn_anchor_well_formed _ _ _ _ _ _ _ Hwf Hl) as [_ Hasc].
  exists t'. split; [done|]. split; [done|]. split; [done|].
  destruct (Z.le_gt_cases (Z.abs (pred - index)) tol) as [Hd|Hd].
  { left. split; [auto|]. rewrite learn_anchor_skip in Hl by auto. congruence. }
  destruct (Z.le_gt_cases (max_anchors_for (workload_type t)) (size t)) as [Hm|Hm].
  { left. split; [auto|]. rewrite learn_anchor_skip in Hl by auto. congruence. }
  destruct (Z.le_gt_cases (capacity t) (size t)) as [Hc|Hc];
    [destruct (realloc_ok h) eqn:Hre|].
  - right. pose proof (learn_anchor_grows _ _ _ _ _ _ _ Hd Hm (or_intror Hre) Hl) as Hg.
    destruct Hwf as [Hrange _]. pose proof (max_anchors_for_range (workload_type t)).
    rewrite u64_small in Hg by lia.
    destruct Hcase as [->|(? & ? & pos & ? & _)]; [lia|]. repeat split; eauto.
  - left. split; [auto|]. rewrite learn_anchor_skip in Hl by auto. congruence.
  - right. pose proof (learn_anchor_grows _ _ _ _ _ _ _ Hd Hm (or_introl Hc) Hl) as Hg.
    destruct Hwf as [Hrange _]. pose proof (max_anchors_for_range (workload_type t)).
    rewrite u64_small in Hg by lia.
    destruct Hcase as [->|(? & ? & pos & ? & _)]; [lia|]. repeat split; eauto.
Qed.

Lemma learn_anchor_characterised_witness :
  ∃ t', not_stisla_learn_anchor calm four_anchors 15 9 0 8 = Some t'
        ∧ searches_performed t' = searches_performed four_anchors
        ∧ workload_type t' = workload_type four_anchors
        ∧ (((Z.abs (0 - 9) <= 8
             ∨ max_anchors_for (workload_type four_anchors) <= size four_anchors
             ∨ (capacity four_anchors <= size four_anchors ∧ realloc_ok calm = false))
            ∧ t' = four_anchors)
           ∨ (8 < Z.abs (0 - 9)
              ∧ size four_anchors < max_anchors_for (workload_type four_anchors)
              ∧ (size four_anchors < capacity four_anchors ∨ realloc_ok calm = true)
              ∧ size t' = size four_anchors + 1
              ∧ size t' <= capacity t'
              ∧ ascending (anchor_seq t')
              ∧ ∃ pos : nat,
                  anchor_seq t'
                  = take pos (anchor_seq four_anchors)
                    ++ {| v := 15; i := 9 |} :: drop pos (anchor_seq four_anchors))).
Proof.
  apply (learn_anchor_characterised calm four_anchors 15 9 0 8).
  split; [vm_compute; split; congruence|]. apply ascendingb_correct. reflexivity.
Defined.

(** ** A table used on one array *)

(** case analysis on an integer comparison of the goal whose operands hold
    no conditional *)
Ltac no_cond a :=
  lazymatch a with
  | context [if _ then _ else _] => fail
  | _ => idtac
  end.

Ltac case_cmp :=
  match goal with
  | |- context [?a >? ?b] =>
      no_cond a; no_cond b; destruct (Z.gtb_spec a b); cbv iota
  | |- context [?a <? ?b] =>
      no_cond a; no_cond b; destruct (Z.ltb_spec a b); cbv iota
  | |- context [?a <=? ?b] =>
      no_cond a; no_cond b; destruct (Z.leb_spec a b); cbv iota
  end.

Lemma predict_and_search_window (arr : list Z) (key tol : Z)
    (active : not_stisla_anchor_table) :
  predict_and_search arr key tol active
  = (a_idx ← not_stisla_anchor_lower active key;
     l ← load (anchors active) a_idx;
     r ← load (anchors active) (a_idx + 1);
     let pred := u64 (not_stisla_interpolate (v l) (v r) (i l) (i r) key) in
     result ← not_stisla_local_search arr (fst (search_window l r pred tol))
                (snd (search_window l r pred tol)) key;
     Some (pred, result)).
Proof.
  unfold predict_and_search, search_window.
  destruct (not_stisla_anchor_lower active key) as [a_idx|]; [|done]. obind.
  destruct (load (anchors active) a_idx) as [l|]; [|done]. obind.
  destruct (load (anchors active) (a_idx + 1)) as [r|]; [|done]. obind.
  cbv zeta. by destruct (_ >? _).
Qed.

Lemma init_endpoints_seeds (h : heap) (arr : list Z)
    (t active : not_stisla_anchor_table) :
  size t = 0 →
  init_endpoints h arr (len arr) t = Some (Some active) →
  seeded_on arr active.
Proof.
  intros Hsz. unfold init_endpoints. rewrite Hsz. cbn [Z.eqb].
  destruct (if capacity t =? 0 then _ else _) as [blk|]; [|discriminate].
  destruct (load arr 0) as [first|] eqn:Hfirst; obind; [|discriminate].
  destruct (store blk 0 _) as [blk1|] eqn:Hs1; obind; [|discriminate].
  destruct (load arr (len arr - 1)) as [last|] eqn:Hlast; obind; [|discriminate].
  destruct (store blk1 1 _) as [blk2|] eqn:Hs2; obind; [|discriminate].
  intros [= <-].
  apply store_Some in Hs1 as [Hlen1 ->]. apply store_Some in Hs2 as [Hlen2 ->].
  rewrite length_insert in Hlen2.
  destruct blk as [|b0 [|b1 rest]]; cbn in Hlen1, Hlen2; try lia.
  exists first, last. repeat split; done.
Qed.

Lemma seeded_anchor_lower (arr : list Z) (t : not_stisla_anchor_table)
    (first last key : Z) :
  size t = 2 →
  load (anchors t) 0 = Some {| v := first; i := 0 |} →
  load (anchors t) 1 = Some {| v := last; i := len arr - 1 |} →
  not_stisla_anchor_lower t key
  = Some (if (first <=? key) && (last <=? key) then 1 else 0).
Proof.
  intros Hsz H0 H1. unfold not_stisla_anchor_lower. rewrite Hsz. cbn [Z.eqb Z.sub Z.add Z.opp Z.pos_sub].
  change (2 - 1 - 0 =? 0) with false. change (2 - 1 - 0 =? 1) with true. cbv iota.
  change (2 - 1) with 1. rewrite H0. obind. cbn [v].
  destruct (first <=? key); [|done]. rewrite H1. obind. cbn [v andb].
  by destruct (last <=? key).
Qed.

(** a key at or above both endpoints is never found through the endpoint
    anchors: the window starts at the last cell and would end after it *)
Lemma seeded_top_key_not_found (arr : list Z) (t : not_stisla_anchor_table)
    (key tol pred j : Z) :
  1 <= len arr < 2 ^ 64 → seeded_on arr t →
  (∀ x, load arr 0 = Some x → x <= key) →
  (∀ x, load arr (len arr - 1) = Some x → x <= key) →
  predict_and_search arr key tol t = Some (pred, j) →
  j = NOT_STISLA_NOT_FOUND.
Proof.
  intros Hlen (first & last & Hf & Hl & Hsz & H0 & H1) Hk0 Hk1.
  rewrite predict_and_search_window, (seeded_anchor_lower arr t first last key Hsz H0 H1).
  destruct (Z.leb_spec first key); [|specialize (Hk0 _ Hf); lia].
  destruct (Z.leb_spec last key); [|specialize (Hk1 _ Hl); lia].
  cbn [andb]. obind. rewrite H1. obind.
  destruct (load (anchors t) (1 + 1)) as [r|]; obind; [|discriminate].
  set (p := u64 _).
  destruct (not_stisla_local_search arr _ _ key) as [m|] eqn:Es; obind; [|discriminate].
  intros [= _ <-]. destruct (Z.eq_dec m NOT_STISLA_NOT_FOUND) as [|Hne]; [done|exfalso].
  assert (Hlo : len arr - 1 <= fst (search_window {| v := last; i := len arr - 1 |} r p tol)).
  { unfold search_window. cbn [i].
    repeat match goal with |- context [if ?c then _ else _] => destruct c eqn:? end;
      cbn [fst]; lia. }
  apply local_search_found_inv in Es as (? & ? & ? & ?); [lia|lia|lia|done].
Qed.

(** through the endpoint anchors a key below an endpoint is looked for
    within [tol] of the prediction only *)
Lemma seeded_window (first last n pred tol : Z) :
  1 <= n → n - 1 < 2 ^ 63 → 0 <= pred <= n - 1 → 0 <= tol < 2 ^ 64 →
  ∃ lo hi,
    search_window {| v := first; i := 0 |} {| v := last; i := n - 1 |} pred tol = (lo, hi)
    ∧ 0 <= lo ∧ lo <= hi ∧ hi <= n - 1
    ∧ (∀ j, lo <= j <= hi → Z.abs (pred - j) <= tol)
    ∧ (tol < 2 ^ 63 → lo = Z.max 0 (pred - tol) ∧ hi = Z.min (n - 1) (pred + tol)).
Proof.
  intros Hn Hn63 Hpred Htol. unfold search_window. cbn [i].
  assert (Hu : u64 (pred + tol) = pred + tol
               ∨ (2 ^ 64 <= pred + tol ∧ u64 (pred + tol) = pred + tol - 2 ^ 64)).
  { destruct (Z.lt_ge_cases (pred + tol) (2 ^ 64)); [left; apply u64_small; lia|right].
    split; [done|]. unfold u64.
    rewrite <- (Z.mod_add _ (-1)) by lia. rewrite Z.mod_small; lia. }
  destruct Hu as [->|[Hwrap ->]]; repeat case_cmp;
    eexists _, _; (split; [done|]); repeat split; intros; lia.
Qed.

Lemma seeded_found_within_tolerance (arr : list Z) (t : not_stisla_anchor_table)
    (key tol pred j : Z) :
  1 <= len arr → len arr - 1 < 2 ^ 63 → 0 <= tol < 2 ^ 64 →
  seeded_on arr t →
  predict_and_search arr key tol t = Some (pred, j) →
  j ≠ NOT_STISLA_NOT_FOUND →
  Z.abs (pred - j) <= tol.
Proof.
  intros Hn Hn63 Htol Hseed Hps Hj.
  destruct (Hseed) as (first & last & Hf & Hl & Hsz & H0 & H1).
  destruct ((first <=? key) && (last <=? key)) eqn:Eb.
  { apply andb_true_iff in Eb as [E1%Z.leb_le E2%Z.leb_le].
    destruct Hj. eapply (seeded_top_key_not_found arr t key tol pred j); eauto; [lia|..].
    - intros x Hx. rewrite Hf in Hx. injection Hx as <-. done.
    - intros x Hx. rewrite Hl in Hx. injection Hx as <-. done. }
  revert Hps.
  rewrite predict_and_search_window, (seeded_anchor_lower arr t first last key Hsz H0 H1), Eb.
  obind. rewrite H0. obind. change (0 + 1) with 1. rewrite H1. obind. cbn [v i].
  pose proof (interpolate_upper first last 0 (len arr - 1) key ltac:(lia) Hn63) as Hup.
  rewrite (u64_small (not_stisla_interpolate _ _ _ _ _)) by lia.
  set (p := not_stisla_interpolate first last 0 (len arr - 1) key) in *.
  destruct (seeded_window first last (len arr) p tol Hn Hn63 Hup Htol)
    as (lo & hi & -> & Hlo & Hle & Hhi & Hnear & _).
  cbn [fst snd].
  destruct (not_stisla_local_search arr lo hi key) as [m|] eqn:Es; obind; [|discriminate].
  intros [= <- <-].
  apply local_search_found_inv in Es as (_ & _ & Hm & _); [auto|lia|lia|done].
Qed.

(** a search on the array a table was seeded on leaves the table empty or
    seeded: nothing is learned *)
Lemma search_keeps_unlearned (h : heap) (arr : list Z) (key tol j : Z)
    (t t' : not_stisla_anchor_table) :
  len arr < 2 ^ 63 → 0 <= tol < 2 ^ 64 → unlearned arr t →
  not_stisla_search h arr (len arr) key (Some t) tol = Some (j, Some t') →
  unlearned arr t'.
Proof.
  intros Hlen Htol Hun Hs. apply search_with_table_inv in Hs.
  destruct Hs as [(_ & _ & [= ->])|[(_ & _ & _ & [= ->])|[(_ & _ & _ & [= ->])|
                  (Hn & active & pred & Hinit & Hps & H)]]]; try done.
  assert (Hseed : seeded_on arr active).
  { destruct Hun as [Hsz|Hseed].
    - eapply init_endpoints_seeds; eauto.
    - destruct (Hseed) as (_ & _ & _ & _ & Hsz & _).
      apply init_endpoints_frame in Hinit as (_ & _ & _ & Heq).
      rewrite Heq by lia. done. }
  destruct H as [[_ [= ->]]|(Hj & found & learned & _ & Hl & [= ->])]; [by right|].
  pose proof (seeded_found_within_tolerance arr active key tol pred j
                ltac:(lia) ltac:(lia) Htol Hseed Hps Hj) as Hnear.
  rewrite learn_anchor_skip in Hl by auto. injection Hl as <-.
  right. destruct Hseed as (first & last & ? & ? & ? & ? & ?).
  exists first, last. done.
Qed.

Lemma batch_loop_keeps_unlearned (hs : nat → heap) (arr : list Z) (keys : list Z)
    (tol : Z) (iters : nat) :
  len arr < 2 ^ 63 → 0 <= tol < 2 ^ 64 →
  ∀ (idx : nat) (t : not_stisla_anchor_table) rs found ot,
    unlearned arr t →
    batch_loop hs arr (len arr) keys idx iters (Some t) tol = Some (rs, found, ot) →
    ∃ t', ot = Some t' ∧ unlearned arr t'.
Proof.
  intros Hlen Htol.
  induction iters as [|k IH]; intros idx t rs found ot Hun; cbn [batch_loop].
  - intros [= _ _ <-]. eauto.
  - destruct (keys !! idx) as [key|]; obind; [|discriminate].
    destruct (not_stisla_search (hs idx) arr (len arr) key (Some t) tol)
      as [[r ot1]|] eqn:Es; obind; [|discriminate].
    destruct (search_with_table_returns_table _ _ _ _ _ _ _ _ Es) as [t1 ->].
    pose proof (search_keeps_unlearned _ _ _ _ _ _ _ Hlen Htol Hun Es) as Hun1.
    destruct (batch_loop hs arr (len arr) keys (S idx) k (Some t1) tol)
      as [[[rs' f'] ot2]|] eqn:Eb; obind; [|discriminate].
    intros [= _ _ <-]. eapply IH; eauto.
Qed.

Lemma step_keeps_unlearned (arr : list Z) (o : op) (t t' : not_stisla_anchor_table) :
  len arr < 2 ^ 63 → op_on arr o = true → unlearned arr t →
  step o t = Some t' → unlearned arr t'.
Proof.
  intros Hlen Hon Hun. destruct o as [|w|h a key tol|hs a keys tol]; cbn [step op_on] in *.
  - intros [= <-]. by left.
  - intros [= <-]. by left.
  - apply andb_true_iff in Hon as [[Ha%bool_decide_eq_true H0%Z.leb_le]%andb_true_iff
                                     H1%Z.ltb_lt]. subst a.
    destruct (not_stisla_search h arr (len arr) key (Some t) tol) as [[j ot]|] eqn:Es;
      obind; [|discriminate].
    intros ->. eapply search_keeps_unlearned; eauto.
  - apply andb_true_iff in Hon as [[Ha%bool_decide_eq_true H0%Z.leb_le]%andb_true_iff
                                     H1%Z.ltb_lt]. subst a.
    unfold not_stisla_batch_search.
    destruct (len keys =? 0); obind; [intros [= <-]; done|].
    destruct (batch_loop _ _ _ _ _ _ _ _) as [[[rs f] ot]|] eqn:Eb; obind; [|discriminate].
    intros ->.
    destruct (batch_loop_keeps_unlearned _ _ _ _ _ Hlen (conj H0 H1) _ _ _ _ _ Hun Eb)
      as (t1 & [= <-] & ?).
    done.
Qed.

Lemma run_keeps_unlearned (arr : list Z) (ops : list op) :
  len arr < 2 ^ 63 →
  ∀ t t', forallb (op_on arr) ops = true → unlearned arr t →
          run ops t = Some t' → unlearned arr t'.
Proof.
  intros Hlen. induction ops as [|o rest IH]; intros t t'; cbn [run forallb].
  - by intros _ ? [= <-].
  - intros [Ho Hrest]%andb_true_iff Hun.
    destruct (step o t) as [t1|] eqn:E; obind; [|discriminate].
    apply IH; [done|]. eapply step_keeps_unlearned; eauto.
Qed.

Lemma top_key_not_found (h : heap) (arr : list Z) (key tol last j : Z)
    (table ot : option not_stisla_anchor_table) :
  sorted arr → 32 <= len arr → len arr < 2 ^ 64 →
  (∀ t, table = Some t → unlearned arr t) →
  load arr (len arr - 1) = Some last → last <= key →
  not_stisla_search h arr (len arr) key table tol = Some (j, ot) →
  j = NOT_STISLA_NOT_FOUND.
Proof.
  intros Hsorted Hn Hlen Htable Hlast Hkey.
  assert (Hpred : ∀ active pred r, seeded_on arr active →
                    predict_and_search arr key tol active = Some (pred, r) →
                    r = NOT_STISLA_NOT_FOUND).
  { intros active pred r Hseed Hps.
    eapply (seeded_top_key_not_found arr active key tol pred r); eauto; [lia|..].
    - intros x Hx. pose proof (sorted_load arr 0 (len arr - 1) x last Hsorted
                                 ltac:(lia) Hx Hlast). lia.
    - intros x Hx. rewrite Hlast in Hx. injection Hx as <-. done. }
  destruct table as [t|].
  - intros Hs. apply search_with_table_inv in Hs.
    destruct Hs as [(_ & ? & _)|[(_ & ? & _)|[(_ & _ & ? & _)|
                    (_ & active & pred & Hinit & Hps & _)]]]; try done; try lia.
    eapply (Hpred active pred); [|done].
    destruct (Htable t eq_refl) as [Hsz|Hseed].
    + eapply init_endpoints_seeds; eauto.
    + destruct (Hseed) as (_ & _ & _ & _ & Hsz & _).
      apply init_endpoints_frame in Hinit as (_ & _ & _ & Heq).
      rewrite Heq by lia. done.
  - unfold not_stisla_search.
    destruct (Z.eqb_spec (len arr) 0); [lia|]. destruct (Z.ltb_spec (len arr) 32); [lia|].
    change (default local_table None) with local_table.
    destruct (init_endpoints h arr (len arr) local_table) as [[active|]|] eqn:Hinit;
      obind; [|congruence|discriminate].
    apply init_endpoints_seeds in Hinit; [|done].
    destruct (predict_and_search arr key tol active) as [[pred r]|] eqn:Hps;
      obind; [|discriminate].
    intros [= <- _]. by eapply Hpred.
Qed.

Lemma store_defined {A : Type} (a : list A) (k : Z) (x : A) :
  0 <= k < Z.of_nat (length a) → store a k x = Some (<[Z.to_nat k := x]> a).
Proof.
  intros Hk. unfold store.
  destruct (Z.leb_spec 0 k); [|lia]. destruct (Z.ltb_spec k (Z.of_nat (length a))); [done|lia].
Qed.

Lemma init_endpoints_defined (h : heap) (arr : list Z) (t : not_stisla_anchor_table) :
  1 <= len arr → 2 <= capacity t →
  ∃ active, init_endpoints h arr (len arr) t = Some (Some active).
Proof.
  intros Hn Hcap. unfold init_endpoints.
  destruct (size t =? 0); [|eauto].
  destruct (Z.eqb_spec (capacity t) 0); [lia|].
  destruct (load_defined arr 0) as [first ->]; [unfold len in Hn; lia|]. obind.
  unfold capacity in Hcap. rewrite store_defined by lia. obind.
  destruct (load_defined arr (len arr - 1)) as [last ->]; [unfold len in *; lia|]. obind.
  rewrite store_defined by (rewrite length_insert; lia). obind. eauto.
Qed.

(** the search through the endpoint anchors finds a key that lies within
    [tol] cells of its prediction *)
Lemma seeded_search_finds (h : heap) (arr : list Z) (key tol first last p : Z)
    (t : not_stisla_anchor_table) :
  sorted arr → 32 <= len arr → len arr - 1 < 2 ^ 63 → 1 <= tol < 2 ^ 63 →
  unlearned arr t → 2 <= capacity t →
  load arr 0 = Some first → load arr (len arr - 1) = Some last →
  load arr p = Some key → key < last →
  Z.abs (not_stisla_interpolate first last 0 (len arr - 1) key - p) <= tol →
  ∃ j t', not_stisla_search h arr (len arr) key (Some t) tol = Some (j, Some t')
          ∧ j ≠ NOT_STISLA_NOT_FOUND
          ∧ load arr j = Some key
          ∧ Z.abs (not_stisla_interpolate first last 0 (len arr - 1) key - j) <= tol
          ∧ seeded_on arr t'
          ∧ searches_performed t' = u64 (searches_performed t + 1).
Proof.
  intros Hsorted Hn Hn63 Htol Hun Hcap Hf Hl Hp Hkey Hnear.
  destruct (init_endpoints_defined h arr t ltac:(lia) Hcap) as [active Hinit].
  assert (Hseed : seeded_on arr active).
  { destruct Hun as [Hsz|Hseed].
    - eapply init_endpoints_seeds; eauto.
    - destruct (Hseed) as (_ & _ & _ & _ & Hsz & _).
      pose proof (init_endpoints_frame _ _ _ _ _ Hinit) as (_ & _ & _ & Heq).
      rewrite Heq by lia. done. }
  pose proof (init_endpoints_frame _ _ _ _ _ Hinit) as (Hsp & _).
  destruct (Hseed) as (first' & last' & Hf' & Hl' & Hsz & H0 & H1).
  rewrite Hf in Hf'. injection Hf' as <-. rewrite Hl in Hl'. injection Hl' as <-.
  pose proof (load_in_range _ _ _ Hp) as Hprange. fold (len arr) in Hprange.
  pose proof (interpolate_upper first last 0 (len arr - 1) key ltac:(lia) Hn63) as Hup.
  set (pred := not_stisla_interpolate first last 0 (len arr - 1) key) in *.
  destruct (seeded_window first last (len arr) pred tol ltac:(lia) Hn63 Hup ltac:(lia))
    as (lo & hi & Hwin & Hlo & Hle & Hhi & Hclose & Hshape).
  destruct (Hshape ltac:(lia)) as [Elo Ehi].
  destruct (local_search_complete arr lo hi key Hsorted ltac:(lia) Hlo ltac:(lia) ltac:(lia))
    as (m & Hm & Hres).
  destruct Hres as [[_ Hnone]|(Hmf & Hmr & Hmk)]; [destruct (Hnone p); [lia|done]|].
  assert (Hps : predict_and_search arr key tol active = Some (pred, m)).
  { rewrite predict_and_search_window,
      (seeded_anchor_lower arr active first last key Hsz H0 H1).
    destruct (Z.leb_spec last key); [lia|]. rewrite andb_false_r. obind.
    rewrite H0. obind. change (0 + 1) with 1. rewrite H1. obind. cbn [v i].
    fold pred. rewrite (u64_small pred) by lia. rewrite Hwin. cbn [fst snd].
    rewrite Hm. done. }
  exists m, (bump_searches active). split.
  - eapply search_with_table_found; eauto.
    apply learn_anchor_skip. left. apply Hclose. lia.
  - split; [done|]. split; [done|]. split; [apply Hclose; lia|]. split.
    + exists first, last. done.
    + cbn. by rewrite Hsp.
Qed.

(** Where the search does find: on a sorted array of 32 elements or more
    (at most 2^63), with a table that is empty or seeded on this array and
    a tolerance [1 <= tol < 2^63], a key below the last element that occurs
    within [tol] cells of its prediction (interpolated between the
    endpoints) is found; the returned cell holds the key and is within
    [tol] of the prediction, the table holds the two endpoint anchors, and
    the counter has advanced by one.  From 2^63 on the sum [pred + tol] can
    wrap, which moves the window. *)
Theorem search_finds_near_prediction (h : heap) (arr : list Z)
    (key tol first last p : Z) (t : not_stisla_anchor_table) :
  sorted arr → 32 <= len arr → len arr - 1 < 2 ^ 63 → 1 <= tol < 2 ^ 63 →
  unlearned arr t → 2 <= capacity t →
  load arr 0 = Some first → load arr (len arr - 1) = Some last →
  load arr p = Some key → key < last →
  Z.abs (not_stisla_interpolate first last 0 (len arr - 1) key - p) <= tol →
  ∃ j t', not_stisla_search h arr (len arr) key (Some t) tol = Some (j, Some t')
          ∧ j ≠ NOT_STISLA_NOT_FOUND
          ∧ load arr j = Some key
          ∧ Z.abs (not_stisla_interpolate first last 0 (len arr - 1) key - j) <= tol
          ∧ seeded_on arr t'
          ∧ searches_performed t' = u64 (searches_performed t + 1).
Proof. apply seeded_search_finds. Qed.

Lemma search_finds_near_prediction_witness :
  ∃ j t', not_stisla_search calm skewed (len skewed) 5 (Some zeroed_table) 8
          = Some (j, Some t')
          ∧ j ≠ NOT_STISLA_NOT_FOUND
          ∧ load skewed j = Some 5
          ∧ Z.abs (not_stisla_interpolate 0 1000 0 (len skewed - 1) 5 - j) <= 8
          ∧ seeded_on skewed t'
          ∧ searches_performed t' = u64 (searches_performed zeroed_table + 1).
Proof.
  apply (search_finds_near_prediction calm skewed 5 8 0 1000 5 zeroed_table).
  - apply sortedb_sorted. reflexivity.
  - vm_compute. congruence.
  - reflexivity.
  - lia.
  - by left.
  - vm_compute. congruence.
  - reflexivity.
  - reflexivity.
  - reflexivity.
  - lia.
  - vm_compute. congruence.
Defined.

(** ** The benchmark's binary search *)

Lemma bin_search_loop_spec (arr : list Z) (key : Z) (fuel : nat) :
  sorted arr →
  ∀ lo hi, 0 <= lo → hi <= len arr → Z.max 0 (hi - lo) < Z.of_nat fuel →
  ∃ m, bin_search_loop arr key lo hi fuel = Some m
       ∧ ((m = SIZE_MAX ∧ ∀ p, lo <= p < hi → load arr p ≠ Some key)
          ∨ (lo <= m < hi ∧ load arr m = Some key)).
Proof.
  intros Hs. unfold len.
  induction fuel as [|k IH]; intros lo hi Hlo Hhi Hfuel; [lia|].
  cbn [bin_search_loop].
  destruct (Z.ltb_spec lo hi) as [Hlt|Hge].
  2:{ eexists; split; [done|]. left. split; [done|]. intros; lia. }
  assert (Hmid : lo <= lo + Z.shiftr (hi - lo) 1 < hi).
  { rewrite shiftr1_half.
    pose proof (Z.div_pos (hi - lo) 2 ltac:(lia) ltac:(lia)).
    pose proof (Z.div_lt_upper_bound (hi - lo) 2 (hi - lo) ltac:(lia) ltac:(lia)). lia. }
  set (mid := lo + Z.shiftr (hi - lo) 1) in *.
  destruct (load_defined arr mid) as [x Hx]; [lia|]. rewrite Hx. obind.
  destruct (Z.ltb_spec x key).
  - destruct (IH (mid + 1) hi) as (m & -> & Hm); [lia..|].
    exists m. split; [done|]. destruct Hm as [[-> Hnone]|[? ?]]; [left|right; split; [lia|done]].
    split; [done|]. intros p Hp Hkey. destruct (Z.le_gt_cases p mid).
    + pose proof (sorted_load arr p mid _ _ Hs ltac:(lia) Hkey Hx). lia.
    + apply (Hnone p); [lia|done].
  - destruct (Z.gtb_spec x key).
    + destruct (IH lo mid) as (m & -> & Hm); [lia..|].
      exists m. split; [done|].
      destruct Hm as [[-> Hnone]|[? ?]]; [left|right; split; [lia|done]].
      split; [done|]. intros p Hp Hkey. destruct (Z.le_gt_cases mid p).
      * pose proof (sorted_load arr mid p _ _ Hs ltac:(lia) Hx Hkey). lia.
      * apply (Hnone p); [lia|done].
    + eexists; split; [done|]. right. split; [lia|]. rewrite Hx. f_equal. lia.
Qed.

Lemma bin_search_spec (arr : list Z) (n key : Z) :
  sorted arr → n = len arr → n < 2 ^ 64 →
  ∃ m, bin_search arr n key = Some m
       ∧ ((m = SIZE_MAX ∧ ∀ p, load arr p ≠ Some key)
          ∨ (m ≠ SIZE_MAX ∧ 0 <= m < n ∧ load arr m = Some key)).
Proof.
  intros Hs -> Hlen. unfold bin_search.
  destruct (bin_search_loop_spec arr key (S (Z.to_nat (len arr))) Hs 0 (len arr))
    as (m & Hm & Hres); [unfold len; lia..|].
  exists m. split; [done|]. destruct Hres as [[-> Hnone]|[Hr Hk]].
  - left. split; [done|]. intros p Hp. apply (Hnone p); [|done].
    apply load_in_range in Hp. unfold len. lia.
  - right. unfold SIZE_MAX. split; [lia|done].
Qed.

(** The reference [bin_search] of the benchmark is correct on a sorted
    array: it returns an index holding the key when the key occurs, and
    [SIZE_MAX] when it does not. *)
Theorem bin_search_correct (arr : list Z) (n key : Z) :
  sorted arr → n = len arr → n < 2 ^ 64 →
  ∃ m, bin_search arr n key = Some m
       ∧ ((m = SIZE_MAX ∧ ∀ p, load arr p ≠ Some key)
          ∨ (m ≠ SIZE_MAX ∧ 0 <= m < n ∧ load arr m = Some key)).
Proof. apply bin_search_spec. Qed.

Lemma bin_search_correct_witness :
  ∃ m, bin_search skewed 32 1000 = Some m
       ∧ ((m = SIZE_MAX ∧ ∀ p, load skewed p ≠ Some 1000)
          ∨ (m ≠ SIZE_MAX ∧ 0 <= m < 32 ∧ load skewed m = Some 1000)).
Proof.
  apply (bin_search_correct skewed 32 1000);
    [apply sortedb_sorted; reflexivity | reflexivity | reflexivity].
Defined.

(** inside its bounds [bin_search] reads the first [n] cells only *)
Lemma bin_search_loop_take (arr : list Z) (n : nat) (key : Z) (fuel : nat) :
  ∀ lo hi, 0 <= lo → hi <= Z.of_nat n →
    bin_search_loop (take n arr) key lo hi fuel = bin_search_loop arr key lo hi fuel.
Proof.
  induction fuel as [|k IH]; intros lo hi Hlo Hhi; [done|]. cbn [bin_search_loop].
  destruct (Z.ltb_spec lo hi) as [Hlt|]; [|done].
  assert (Hmid : lo <= lo + Z.shiftr (hi - lo) 1 < hi).
  { rewrite shiftr1_half.
    pose proof (Z.div_pos (hi - lo) 2 ltac:(lia) ltac:(lia)).
    pose proof (Z.div_lt_upper_bound (hi - lo) 2 (hi - lo) ltac:(lia) ltac:(lia)). lia. }
  set (mid := lo + Z.shiftr (hi - lo) 1) in *.
  assert (Hload : load (take n arr) mid = load arr mid).
  { unfold load. destruct (mid <? 0); [done|]. apply lookup_take_lt. lia. }
  rewrite Hload. destruct (load arr mid) as [x|]; obind; [|done].
  destruct (x <? key); [apply IH; lia|].
  destruct (x >? key); [apply IH; lia|done].
Qed.

(** The benchmark's two counts.  The caller passes the first [n] cells of
    the buffer [arr], and these are sorted.  Every key that
    [not_stisla_search] finds at an index below [n] is also found by
    [bin_search]: only through an index at or after [n] can the number of
    keys found by [not_stisla_search] exceed the binary search's. *)
Theorem bin_search_finds_what_search_finds (h : heap) (arr : list Z) (n key tol j : Z)
    (table ot : option not_stisla_anchor_table) :
  0 <= n <= len arr → n < 2 ^ 64 → sorted (take (Z.to_nat n) arr) →
  not_stisla_search h arr n key table tol = Some (j, ot) →
  j < n →
  ∃ m, bin_search arr n key = Some m ∧ 0 <= m < n ∧ load arr m = Some key.
Proof.
  unfold len. intros Hn Hlen Hs Hsearch Hj.
  assert (Hnf : j ≠ NOT_STISLA_NOT_FOUND) by (rewrite NOT_FOUND_value; lia).
  pose proof (search_found_holds_key _ _ _ _ _ _ _ _ Hsearch Hnf) as Hkey.
  apply load_Some in Hkey as [Hj0 Hkey].
  assert (Hlen' : len (take (Z.to_nat n) arr) = n)
    by (unfold len; rewrite length_take; lia).
  destruct (bin_search_spec (take (Z.to_nat n) arr) n key Hs (eq_sym Hlen') Hlen)
    as (m & Hm & [[_ Hnone]|(_ & Hrange & Hload)]).
  - destruct (Hnone j). apply load_Some. split; [done|].
    rewrite lookup_take_lt by lia. done.
  - exists m. unfold bin_search in *.
    rewrite bin_search_loop_take in Hm by lia. split; [done|]. split; [done|].
    apply load_Some in Hload as [? Hload]. apply lookup_take_Some in Hload as [Hload _].
    by apply load_Some.
Qed.

Lemma bin_search_finds_what_search_finds_witness :
  ∃ m, bin_search ramp100 32 5 = Some m ∧ 0 <= m < 32 ∧ load ramp100 m = Some 5.
Proof.
  apply (bin_search_finds_what_search_finds calm ramp100 32 5 8 5 (Some zeroed_table)
           (Some (bump_searches
                    {| anchors := <[0%nat := {| v := 0; i := 0 |}]>
                                    (<[1%nat := {| v := 31; i := 31 |}]> (fresh calm 8));
                       size := 2; searches_performed := 0; workload_type := -1 |}))).
  - vm_compute. split; congruence.
  - reflexivity.
  - apply sortedb_sorted. reflexivity.
  - vm_compute. reflexivity.
  - lia.
Defined.

(** ** The benchmark's data *)

Lemma evens_length (n : nat) : length (evens n) = n.
Proof. unfold evens. by rewrite length_fmap, length_seq. Qed.

Lemma evens_lookup (n k : nat) (x : Z) :
  evens n !! k = Some x ↔ (k < n)%nat ∧ x = 2 * Z.of_nat k.
Proof.
  unfold evens. rewrite list_lookup_fmap. split.
  - destruct (seq 0 n !! k) as [k'|] eqn:E; [|discriminate].
    apply lookup_seq in E as [-> ?]. intros [= <-]. split; [done|]. f_equal.
  - intros [Hk ->]. rewrite (lookup_seq_lt 0 n k Hk). done.
Qed.

Lemma evens_load (n : nat) (p x : Z) :
  load (evens n) p = Some x ↔ 0 <= p < Z.of_nat n ∧ x = 2 * p.
Proof.
  rewrite load_Some, evens_lookup. split.
  - intros (? & ? & ->). split; lia.
  - intros ([? ?] & ->). split; [lia|]. split; lia.
Qed.

Lemma evens_sorted (n : nat) : sorted (evens n).
Proof.
  intros p q x y Hpq [_ ->]%evens_lookup [_ ->]%evens_lookup. lia.
Qed.

Lemma generate_loop_spec (rest : list Z) :
  ∀ pre post : list Z,
    Z.of_nat (length pre + length rest) <= 2 ^ 62 →
    generate_loop (pre ++ rest ++ post) (Z.of_nat (length pre)) (length rest)
    = Some (pre ++ ((λ k, 2 * Z.of_nat k) <$> seq (length pre) (length rest)) ++ post).
Proof.
  induction rest as [|x rest IH]; intros pre post Hlen; [done|].
  cbn [generate_loop length seq fmap list_fmap app] in *.
  rewrite store_defined by (rewrite length_app; cbn; lia).
  obind. rewrite Nat2Z.id.
  rewrite insert_app_r_alt, Nat.sub_diag by lia. cbn [insert list_insert].
  rewrite (s64_small (Z.of_nat (length pre))) by lia.
  rewrite s64_small by lia.
  specialize (IH (pre ++ [Z.of_nat (length pre) * 2]) post).
  rewrite <- !app_assoc, length_app in IH. cbn [length app] in IH.
  replace (Z.of_nat (length pre + 1)) with (Z.of_nat (length pre) + 1) in IH by lia.
  rewrite IH by lia.
  replace (length pre + 1)%nat with (S (length pre)) by lia.
  do 3 f_equal. lia.
Qed.

(** [generate_test_data] fills the first [n] cells of the array with
    [0, 2, 4, ..., 2 (n - 1)] and leaves the others; the result is sorted
    and cell [p] holds [2 p]. *)
Theorem generate_test_data_evens (arr : list Z) (n : Z) :
  0 <= n <= len arr → n <= 2 ^ 62 →
  generate_test_data arr n = Some (evens (Z.to_nat n) ++ drop (Z.to_nat n) arr)
  ∧ sorted (evens (Z.to_nat n))
  ∧ ∀ p, 0 <= p < n → load (evens (Z.to_nat n)) p = Some (2 * p).
Proof.
  intros Hn Hmax. unfold len in Hn. split; [|split].
  - unfold generate_test_data.
    pose proof (generate_loop_spec (take (Z.to_nat n) arr) [] (drop (Z.to_nat n) arr)) as H.
    cbn [app length] in H. rewrite take_drop, length_take, Nat.min_l in H by lia.
    apply H. lia.
  - apply evens_sorted.
  - intros p Hp. apply evens_load. split; [lia|done].
Qed.

Lemma generate_test_data_evens_witness :
  generate_test_data [9; 9; 9; 9; 9] 3 = Some (evens (Z.to_nat 3) ++ drop (Z.to_nat 3) [9; 9; 9; 9; 9])
  ∧ sorted (evens (Z.to_nat 3))
  ∧ ∀ p, 0 <= p < 3 → load (evens (Z.to_nat 3)) p = Some (2 * p).
Proof.
  apply (generate_test_data_evens [9; 9; 9; 9; 9] 3); vm_compute; try split; congruence.
Defined.

(** The benchmark's searches.  On the data [0, 2, ..., 2 (n - 1)] of
    [generate_test_data], [n >= 32], passed whole, with a table that is
    empty or seeded on the data and a tolerance [1 <= tol < 2^63]:
    [not_stisla_search] finds every element but the last at its own index;
    for the last element the call returns [NOT_FOUND], or it reads a cell
    after the array or after the anchor block; [bin_search] finds every
    element, the last included, at its index. *)
Theorem benchmark_queries (h : heap) (n : nat) (tol p : Z)
    (t : not_stisla_anchor_table) :
  32 <= Z.of_nat n → Z.of_nat n <= 2 ^ 62 → 1 <= tol < 2 ^ 63 →
  unlearned (evens n) t → 2 <= capacity t →
  0 <= p < Z.of_nat n →
  (p < Z.of_nat n - 1 →
   ∃ t', not_stisla_search h (evens n) (Z.of_nat n) (2 * p) (Some t) tol
         = Some (p, Some t'))
  ∧ (p = Z.of_nat n - 1 →
     not_stisla_search h (evens n) (Z.of_nat n) (2 * p) (Some t) tol = None
     ∨ fst <$> not_stisla_search h (evens n) (Z.of_nat n) (2 * p) (Some t) tol
       = Some NOT_STISLA_NOT_FOUND)
  ∧ bin_search (evens n) (Z.of_nat n) (2 * p) = Some p.
Proof.
  intros Hn Hmax Htol Hun Hcap Hp.
  assert (Hlen : len (evens n) = Z.of_nat n) by (unfold len; by rewrite evens_length).
  assert (Hfirst : load (evens n) 0 = Some 0) by (apply evens_load; lia).
  assert (Hlast : load (evens n) (Z.of_nat n - 1) = Some (2 * (Z.of_nat n - 1)))
    by (apply evens_load; lia).
  assert (Hkey : load (evens n) p = Some (2 * p)) by (apply evens_load; lia).
  split; [|split].
  - intros Hp'.
    pose proof (interpolate_line_value 0 0 (Z.of_nat n - 1) 2 p) as Hpred.
    rewrite !Z.sub_0_r, !Z.add_0_l in Hpred.
    specialize (Hpred ltac:(unfold INT64_MIN; lia) ltac:(unfold INT64_MAX; lia)
                  ltac:(lia) ltac:(lia) ltac:(lia) ltac:(lia) ltac:(lia)).
    destruct (seeded_search_finds h (evens n) (2 * p) tol 0 (2 * (Z.of_nat n - 1)) p t)
      as (j & t' & Hs & _ & Hj & _); rewrite ?Hlen; try done; try lia.
    + apply evens_sorted.
    + rewrite Hlen in Hs. apply evens_load in Hj as [_ Hj].
      assert (j = p) as -> by lia. eauto.
  - intros ->.
    destruct (not_stisla_search h (evens n) (Z.of_nat n) (2 * (Z.of_nat n - 1))
                (Some t) tol) as [[j ot]|] eqn:Hs; [right|by left].
    cbn. f_equal.
    eapply (top_key_not_found h (evens n) (2 * (Z.of_nat n - 1)) tol
              (2 * (Z.of_nat n - 1)) j (Some t) ot); rewrite ?Hlen; try done; try lia.
    + apply evens_sorted.
    + by intros ? [= <-].
  - destruct (bin_search_spec (evens n) (Z.of_nat n) (2 * p) (evens_sorted n)
                ltac:(done) ltac:(lia)) as (m & -> & [[_ Hnone]|(_ & _ & Hm)]).
    + by destruct (Hnone p).
    + apply evens_load in Hm as [_ Hm]. f_equal. lia.
Qed.

Lemma benchmark_queries_witness :
  (17 < Z.of_nat 40 - 1 →
   ∃ t', not_stisla_search calm (evens 40) (Z.of_nat 40) (2 * 17) (Some zeroed_table) 8
         = Some (17, Some t'))
  ∧ (17 = Z.of_nat 40 - 1 →
     not_stisla_search calm (evens 40) (Z.of_nat 40) (2 * 17) (Some zeroed_table) 8 = None
     ∨ fst <$> not_stisla_search calm (evens 40) (Z.of_nat 40) (2 * 17) (Some zeroed_table) 8
       = Some NOT_STISLA_NOT_FOUND)
  ∧ bin_search (evens 40) (Z.of_nat 40) (2 * 17) = Some 17.
Proof.
  apply (benchmark_queries calm 40 8 17 zeroed_table).
  - vm_compute. congruence.
  - vm_compute. congruence.
  - lia.
  - by left.
  - vm_compute. congruence.
  - vm_compute. split; congruence.
Defined.

(** ** Batch search *)





Lemma search_counter_step (h : heap) (arr : list Z) (n key : Z)
    (t t' : not_stisla_anchor_table) (tol j : Z) :
  not_stisla_search h arr n key (Some t) tol = Some (j, Some t') →
  (n < 32 → t' = t)
  ∧ (32 <= n →
     searches_performed t'
     = if j =? NOT_STISLA_NOT_FOUND then searches_performed t
       else u64 (searches_performed t + 1)).
Proof.
  intros Hs. apply search_with_table_inv in Hs.
  destruct Hs as [(-> & -> & [= ->])|[(_ & ? & _ & [= ->])|[(? & _ & -> & [= ->])|
                  (? & active & pred & Hinit & _ & H)]]].
  - split; [done|]. intros; lia.
  - split; [done|]. intros; lia.
  - split; [intros; lia|]. done.
  - apply init_endpoints_frame in Hinit as (Hsp & _). split; [intros; lia|]. intros _.
    destruct H as [[-> [= ->]]|(Hf & found & learned & _ & Hl & [= ->])].
    + rewrite Z.eqb_refl. done.
    + apply learn_anchor_frame in Hl as (Hsp' & _).
      destruct (Z.eqb_spec j NOT_STISLA_NOT_FOUND); [done|]. cbn. by rewrite Hsp', Hsp.
Qed.

Lemma batch_loop_counter (hs : nat → heap) (arr : list Z) (n : Z) (keys : list Z)
    (tol : Z) (iters : nat) :
  ∀ (idx : nat) (t : not_stisla_anchor_table) rs found ot,
    0 <= searches_performed t →
    searches_performed t + Z.of_nat iters <= SIZE_MAX →
    batch_loop hs arr n keys idx iters (Some t) tol = Some (rs, found, ot) →
    ∃ t', ot = Some t'
          ∧ 0 <= found <= Z.of_nat iters
          ∧ (n < 32 → t' = t)
          ∧ (32 <= n → searches_performed t' = searches_performed t + found).
Proof.
  unfold SIZE_MAX.
  induction iters as [|it IH]; intros idx t rs found ot Hsp Hmax; cbn [batch_loop].
  - intros [= _ <- <-]. exists t. repeat split; intros; try done; lia.
  - destruct (keys !! idx) as [key|]; obind; [|discriminate].
    destruct (not_stisla_search (hs idx) arr n key (Some t) tol) as [[r ot1]|] eqn:Es;
      obind; [|discriminate].
    destruct (search_with_table_returns_table _ _ _ _ _ _ _ _ Es) as [t1 ->].
    destruct (search_counter_step _ _ _ _ _ _ _ _ Es) as [Hsmall Hlarge].
    destruct (batch_loop hs arr n keys (S idx) it (Some t1) tol) as [[[rs' f'] ot2]|] eqn:Eb;
      obind; [|discriminate].
    intros [= _ <- <-].
    assert (Hsp1 : searches_performed t <= searches_performed t1
                   <= searches_performed t + 1
                   ∧ (32 <= n → searches_performed t1
                                = searches_performed t
                                  + (if r =? NOT_STISLA_NOT_FOUND then 0 else 1))).
    { destruct (Z.lt_ge_cases n 32) as [Hn|Hn].
      - rewrite (Hsmall Hn). split; [lia|intros; lia].
      - rewrite (Hlarge Hn). destruct (r =? NOT_STISLA_NOT_FOUND); [split; [lia|intros; lia]|].
        rewrite u64_small by lia. split; [lia|intros; lia]. }
    destruct (IH (S idx) t1 rs' f' ot2 ltac:(lia) ltac:(lia) Eb)
      as (t' & -> & Hf & Hs' & Hl').
    exists t'. split; [done|]. split; [destruct (r =? _); lia|]. split.
    + intros Hn. rewrite (Hs' Hn). by apply Hsmall.
    + intros Hn. rewrite (Hl' Hn). destruct Hsp1 as [_ Heq]. rewrite (Heq Hn). lia.
Qed.

(** The counter and the batch agree: after a batch on a caller's table
    whose counter cannot wrap, on an array of 32 elements or more
    [searches_performed] has grown by exactly the returned count of found
    keys; on a smaller array the table is left as it was.  The count is at
    most the number of keys. *)
Theorem batch_search_counts_found (hs : nat → heap) (arr : list Z) (n : Z)
    (keys : list Z) (num_keys tol found : Z) (t t' : not_stisla_anchor_table)
    (rs : list Z) :
  0 <= num_keys → 0 <= searches_performed t →
  searches_performed t + num_keys <= SIZE_MAX →
  not_stisla_batch_search hs arr n keys num_keys (Some t) tol = Some (rs, found, Some t') →
  0 <= found <= num_keys
  ∧ (n < 32 → t' = t)
  ∧ (32 <= n → searches_performed t' = searches_performed t + found).
Proof.
  intros Hnum Hsp Hmax. unfold not_stisla_batch_search.
  destruct (Z.eqb_spec num_keys 0) as [->|Hne].
  - intros [= _ <- <-]. repeat split; intros; try done; lia.
  - intros Hb.
    destruct (batch_loop_counter hs arr n keys tol (Z.to_nat num_keys) 0%nat t rs found
                (Some t') Hsp ltac:(lia) Hb)
      as (t1 & [= <-] & Hf & Hs & Hl).
    split; [lia|]. split; done.
Qed.

Lemma batch_search_counts_found_witness :
  0 <= 2 <= 4
  ∧ (32 < 32 → {| anchors := <[0%nat := {| v := 0; i := 0 |}]>
                              (<[1%nat := {| v := 31; i := 31 |}]> (fresh calm 8));
                 size := 2; searches_performed := 2; workload_type := -1 |}
               = zeroed_table)
  ∧ (32 <= 32 →
     searches_performed
       {| anchors := <[0%nat := {| v := 0; i := 0 |}]>
                       (<[1%nat := {| v := 31; i := 31 |}]> (fresh calm 8));
          size := 2; searches_performed := 2; workload_type := -1 |}
     = searches_performed zeroed_table + 2).
Proof.
  apply (batch_search_counts_found (λ _, calm) ramp 32 [7; 40; 20; 31] 4 8 2
           zeroed_table _ [7; NOT_STISLA_NOT_FOUND; 20; NOT_STISLA_NOT_FOUND]).
  - lia.
  - reflexivity.
  - vm_compute. congruence.
  - vm_compute. reflexivity.
Defined.

(** ** Dispatch on the array length *)

(** Below 32 elements [not_stisla_search] is the linear scan, with or
    without a table: it returns the smallest index holding the key, or
    [NOT_FOUND] when no element does (in particular on the empty array), it
    never touches the table and never allocates. *)
Theorem search_small_array_is_linear_scan (h : heap) (arr : list Z) (n key tol : Z)
    (table : option not_stisla_anchor_table) :
  n = len arr → n < 32 →
  not_stisla_search h arr n key table tol = Some (linear_scan arr n key, table)
  ∧ ((linear_scan arr n key = NOT_STISLA_NOT_FOUND ∧ ∀ p : nat, arr !! p ≠ Some key)
     ∨ (∃ p : nat, linear_scan arr n key = Z.of_nat p ∧ Z.of_nat p < n
                   ∧ linear_scan arr n key ≠ NOT_STISLA_NOT_FOUND
                   ∧ arr !! p = Some key
                   ∧ ∀ q : nat, (q < p)%nat → arr !! q ≠ Some key)).
Proof.
  intros Hn Hsmall. split; [|apply linear_scan_spec; [done|lia]].
  unfold not_stisla_search. destruct (Z.eqb_spec n 0) as [E|E].
  - subst n. destruct arr; [|unfold len in E; cbn in E; lia]. done.
  - destruct (Z.ltb_spec n 32); [|lia].
    by rewrite (chunked_search_linear arr n key Hn).
Qed.

Lemma search_small_array_is_linear_scan_witness :
  not_stisla_search calm [4; 8; 8; 15; 16; 23; 42] 7 8 None 8
  = Some (linear_scan [4; 8; 8; 15; 16; 23; 42] 7 8, None)
  ∧ ((linear_scan [4; 8; 8; 15; 16; 23; 42] 7 8 = NOT_STISLA_NOT_FOUND
      ∧ ∀ p : nat, [4; 8; 8; 15; 16; 23; 42] !! p ≠ Some 8)
     ∨ (∃ p : nat, linear_scan [4; 8; 8; 15; 16; 23; 42] 7 8 = Z.of_nat p
                   ∧ Z.of_nat p < 7
                   ∧ linear_scan [4; 8; 8; 15; 16; 23; 42] 7 8 ≠ NOT_STISLA_NOT_FOUND
                   ∧ [4; 8; 8; 15; 16; 23; 42] !! p = Some 8
                   ∧ ∀ q : nat, (q < p)%nat → [4; 8; 8; 15; 16; 23; 42] !! q ≠ Some 8)).
Proof.
  apply (search_small_array_is_linear_scan calm [4; 8; 8; 15; 16; 23; 42] 7 8 8 None);
    reflexivity.
Defined.

(** ** The anchor block: capacity and memory *)

Lemma learn_anchor_capacity (h : heap) (t t' : not_stisla_anchor_table)
    (value index pred tol : Z) :
  0 <= size t <= capacity t →
  not_stisla_learn_anchor h t value index pred tol = Some t' →
  0 <= size t' <= capacity t'
  ∧ (capacity t' = capacity t
     ∨ (size t = capacity t ∧ size t < max_anchors_for (workload_type t)
        ∧ capacity t' = (if capacity t =? 0 then 8 else 2 * capacity t))).
Proof.
  intros Hsz. unfold not_stisla_learn_anchor.
  destruct (_ <=? tol); [intros [= <-]; auto|].
  destruct (Z.geb_spec (size t) (max_anchors_for (workload_type t))) as [|Hmax];
    [intros [= <-]; auto|].
  pose proof (max_anchors_for_range (workload_type t)) as Hrange.
  set (grown := if size t >=? capacity t then _ else _).
  assert (Hgrown : grown = None
                   ∨ ∃ blk, grown = Some blk
                            ∧ size t < Z.of_nat (length blk)
                            ∧ (Z.of_nat (length blk) = capacity t
                               ∨ (size t = capacity t
                                  ∧ Z.of_nat (length blk)
                                    = (if capacity t =? 0 then 8 else 2 * capacity t)))).
  { unfold grown, capacity in *.
    destruct (Z.geb_spec (size t) (Z.of_nat (length (anchors t)))).
    - destruct (realloc_ok h); [right|by left].
      eexists; split; [done|]. unfold realloc_block, fresh.
      rewrite length_take, length_app, length_fmap, length_seq.
      destruct (Z.eqb_spec (Z.of_nat (length (anchors t))) 0).
      + split; [lia|]. right. split; lia.
      + rewrite u64_small by lia. split; [lia|]. right. split; lia.
    - right. eexists; split; [done|]. split; [lia|]. by left. }
  destruct Hgrown as [->|(blk & -> & Hlen & Hcase)]; [intros [= <-]; auto|].
  destruct (insert_steps blk (size t) value {| v := value; i := index |})
    as (pos & moved & blk' & -> & Hmoved & Hstore & _ & Hlen' & _); [lia|].
  obind. rewrite Hmoved. obind. rewrite Hstore. obind. intros [= <-].
  assert (Hc : capacity {| anchors := blk'; size := u64 (size t + 1);
                           searches_performed := searches_performed t;
                           workload_type := workload_type t |}
               = Z.of_nat (length blk)) by (unfold capacity; cbn [anchors]; lia).
  rewrite Hc. cbn [size]. rewrite u64_small by lia. split; [lia|].
  destruct Hcase as [?|[? ?]]; [by left|right]. repeat split; try done; lia.
Qed.

Lemma init_endpoints_capacity (h : heap) (arr : list Z) (n : Z)
    (t active : not_stisla_anchor_table) :
  capacity t ≠ 0 →
  init_endpoints h arr n t = Some (Some active) →
  capacity active = capacity t ∧ (size t = 0 → 2 <= capacity t).
Proof.
  intros Hcap. unfold init_endpoints.
  destruct (Z.eqb_spec (size t) 0) as [E|E]; [|intros [= <-]; split; [done|lia]].
  destruct (Z.eqb_spec (capacity t) 0); [done|].
  destruct (load arr 0); obind; [|discriminate].
  destruct (store (anchors t) 0 _) as [blk1|] eqn:Hs1; obind; [|discriminate].
  destruct (load arr (n - 1)); obind; [|discriminate].
  destruct (store blk1 1 _) as [blk2|] eqn:Hs2; obind; [|discriminate].
  intros [= <-]. apply store_Some in Hs1 as [_ ->]. apply store_Some in Hs2 as [Hl ->].
  unfold capacity. cbn [anchors]. rewrite !length_insert in *. split; [done|lia].
Qed.

Lemma search_block_ok (h : heap) (arr : list Z) (n key : Z)
    (t t' : not_stisla_anchor_table) (tol j : Z) :
  block_ok t →
  not_stisla_search h arr n key (Some t) tol = Some (j, Some t') →
  block_ok t' ∧ capacity t <= capacity t'.
Proof.
  intros (Hcap & Hsz & Hmax) Hs.
  pose proof (search_within_cap h arr n key t t' tol j ltac:(unfold within_cap; lia) Hs)
    as Hcap'. unfold within_cap in Hcap'.
  apply search_with_table_inv in Hs.
  destruct Hs as [(_ & _ & [= ->])|[(_ & _ & _ & [= ->])|[(_ & _ & _ & [= ->])|
                  (_ & active & pred & Hinit & _ & H)]]];
    try (split; [done|lia]).
  pose proof (init_endpoints_frame _ _ _ _ _ Hinit) as (_ & _ & Hasz & _).
  apply init_endpoints_capacity in Hinit as [Hacap _]; [|lia].
  assert (Hact : 0 <= size active <= capacity active)
    by (rewrite Hacap, Hasz; destruct (size t =? 0); lia).
  destruct H as [[_ [= ->]]|(_ & found & learned & _ & Hl & [= ->])].
  - unfold block_ok. rewrite Hacap. repeat split; try done; lia.
  - pose proof (learn_anchor_frame _ _ _ _ _ _ _ Hl) as (_ & Hw & _).
    apply learn_anchor_capacity in Hl as [Hlsz Hlcap]; [|done].
    pose proof (max_anchors_for_range (workload_type active)).
    unfold block_ok.
    change (capacity (bump_searches learned)) with (capacity learned).
    change (size (bump_searches learned)) with (size learned) in *.
    change (workload_type (bump_searches learned)) with (workload_type learned) in *.
    destruct Hlcap as [Heq|(Hfull & Hlt & Heq)]; rewrite Heq in *.
    + rewrite Hacap in *. repeat split; try done; lia.
    + rewrite Hacap in *. destruct (Z.eqb_spec (capacity t) 0); [lia|].
      repeat split; try lia.
Qed.

Lemma batch_loop_block_ok (hs : nat → heap) (arr : list Z) (n : Z) (keys : list Z)
    (tol : Z) (iters : nat) :
  ∀ (idx : nat) (t : not_stisla_anchor_table) rs found ot,
    block_ok t →
    batch_loop hs arr n keys idx iters (Some t) tol = Some (rs, found, ot) →
    ∃ t', ot = Some t' ∧ block_ok t' ∧ capacity t <= capacity t'.
Proof.
  induction iters as [|k IH]; intros idx t rs found ot Hok; cbn [batch_loop].
  - intros [= _ _ <-]. exists t. split; [done|]. split; [done|lia].
  - destruct (keys !! idx) as [key|]; obind; [|discriminate].
    destruct (not_stisla_search (hs idx) arr n key (Some t) tol) as [[r ot1]|] eqn:Es;
      obind; [|discriminate].
    destruct (search_with_table_returns_table _ _ _ _ _ _ _ _ Es) as [t1 ->].
    destruct (search_block_ok _ _ _ _ _ _ _ _ Hok Es) as [Hok1 Hle1].
    destruct (batch_loop hs arr n keys (S idx) k (Some t1) tol) as [[[rs' f'] ot2]|] eqn:Eb;
      obind; [|discriminate].
    intros [= _ _ <-].
    destruct (IH _ _ _ _ _ Hok1 Eb) as (t' & -> & Hok' & Hle').
    exists t'. split; [done|]. split; [done|lia].
Qed.

Lemma step_block_ok (o : op) (t t' : not_stisla_anchor_table) :
  block_ok t → step o t = Some t' → block_ok t' ∧ capacity t <= capacity t'.
Proof.
  intros Hok. destruct o as [|w|h arr key tol|hs arr keys tol]; cbn [step].
  - intros [= <-]. destruct Hok as (? & ? & ?). unfold block_ok, capacity in *. cbn.
    pose proof (max_anchors_for_range (workload_type t)). repeat split; try done; lia.
  - intros [= <-]. destruct Hok as (? & ? & ?). unfold block_ok, capacity in *. cbn.
    pose proof (max_anchors_for_range w). repeat split; try done; lia.
  - destruct (not_stisla_search h arr (len arr) key (Some t) tol) as [[j ot]|] eqn:Es;
      obind; [|discriminate].
    intros ->. eapply search_block_ok; eauto.
  - unfold not_stisla_batch_search.
    destruct (len keys =? 0); obind; [intros [= <-]; split; [done|lia]|].
    destruct (batch_loop _ _ _ _ _ _ _ _) as [[[rs f] ot]|] eqn:Eb; obind; [|discriminate].
    intros ->.
    destruct (batch_loop_block_ok _ _ _ _ _ _ _ _ _ _ _ Hok Eb) as (t1 & [= <-] & ? & ?).
    done.
Qed.

Lemma run_block_ok (ops : list op) :
  ∀ t t', block_ok t → run ops t = Some t' → block_ok t' ∧ capacity t <= capacity t'.
Proof.
  induction ops as [|o rest IH]; intros t t' Hok; cbn [run].
  - intros [= <-]. split; [done|lia].
  - destruct (step o t) as [t1|] eqn:E; obind; [|discriminate].
    destruct (step_block_ok _ _ _ Hok E) as [Hok1 Hle1].
    intros Hrun. destruct (IH _ _ Hok1 Hrun) as [Hok' Hle']. split; [done|lia].
Qed.

(** The memory of a table stays bounded.  From creation on, through any
    sequence of operations, the anchor block has 8, 16 or 32 cells and
    never shrinks: between any two states of a history the capacity does
    not decrease, and a reset keeps the very block; the anchors in use
    always lie inside the block; and [not_stisla_get_stats] reports the
    counter, the anchor count that [not_stisla_anchor_table_size] gives,
    and a memory estimate of at most 552 bytes. *)
Theorem table_block_bounded (h : heap) (ops ops' : list op)
    (t0 t t' : not_stisla_anchor_table) :
  not_stisla_anchor_table_create h = Some t0 →
  run ops t0 = Some t →
  run ops' t = Some t' →
  capacity t0 = 8
  ∧ capacity t <= capacity t'
  ∧ anchors (not_stisla_anchor_table_reset t) = anchors t
  ∧ (capacity t = 8 ∨ capacity t = 16 ∨ capacity t = 32)
  ∧ 0 <= size t <= capacity t
  ∧ not_stisla_get_stats (Some t)
    = (searches_performed t, not_stisla_anchor_table_size (Some t),
       capacity t * sizeof_anchor + sizeof_anchor_table)
  ∧ capacity t * sizeof_anchor + sizeof_anchor_table <= 552.
Proof.
  intros Hc Hrun Hrun'.
  assert (Hcap0 : capacity t0 = 8).
  { unfold not_stisla_anchor_table_create in Hc.
    destruct (malloc_ok h); [|discriminate]. injection Hc as <-. reflexivity. }
  assert (Hok0 : block_ok t0).
  { unfold not_stisla_anchor_table_create in Hc.
    destruct (malloc_ok h); [|discriminate]. injection Hc as <-.
    unfold block_ok. change (capacity _) with 8. cbn [size workload_type].
    pose proof (max_anchors_for_range (-1)). repeat split; try lia; by left. }
  destruct (run_block_ok ops t0 t Hok0 Hrun) as [Hok _].
  destruct (run_block_ok ops' t t' Hok Hrun') as [_ Hle].
  destruct Hok as (Hcap & Hsz & _).
  split; [done|]. split; [done|]. split; [done|]. split; [done|]. split; [done|].
  unfold not_stisla_get_stats, sizeof_anchor, sizeof_anchor_table. cbn [not_stisla_anchor_table_size].
  split; [|lia]. do 2 f_equal.
  rewrite (u64_small (capacity t * 16)) by lia. apply u64_small. lia.
Qed.

Lemma table_block_bounded_witness :
  capacity (default zeroed_table (not_stisla_anchor_table_create stale)) = 8
  ∧ capacity after_history <= capacity after_history_reset
  ∧ anchors (not_stisla_anchor_table_reset after_history) = anchors after_history
  ∧ (capacity after_history = 8 ∨ capacity after_history = 16 ∨ capacity after_history = 32)
  ∧ 0 <= size after_history <= capacity after_history
  ∧ not_stisla_get_stats (Some after_history)
    = (searches_performed after_history, not_stisla_anchor_table_size (Some after_history),
       capacity after_history * sizeof_anchor + sizeof_anchor_table)
  ∧ capacity after_history * sizeof_anchor + sizeof_anchor_table <= 552.
Proof.
  apply (table_block_bounded stale history [OpReset; OpSearch calm ramp 5 8]
           (default zeroed_table (not_stisla_anchor_table_create stale))
           after_history after_history_reset).
  - reflexivity.
  - vm_compute. reflexivity.
  - vm_compute. reflexivity.
Defined.

(** ** The [NULL] table and a fresh table *)

Lemma seeded_predict_below (arr : list Z) (t : not_stisla_anchor_table)
    (first last key tol : Z) :
  size t = 2 →
  load (anchors t) 0 = Some {| v := first; i := 0 |} →
  load (anchors t) 1 = Some {| v := last; i := len arr - 1 |} →
  (first <=? key) && (last <=? key) = false →
  predict_and_search arr key tol t
  = (let pred := u64 (not_stisla_interpolate first last 0 (len arr - 1) key) in
     let w := search_window {| v := first; i := 0 |}
                {| v := last; i := len arr - 1 |} pred tol in
     result ← not_stisla_local_search arr (fst w) (snd w) key;
     Some (pred, result)).
Proof.
  intros Hsz H0 H1 Hb.
  rewrite predict_and_search_window, (seeded_anchor_lower arr t first last key Hsz H0 H1), Hb.
  obind. rewrite H0. obind. change (0 + 1) with 1. rewrite H1. obind. done.
Qed.

Lemma local_table_seeded_capacity (h : heap) (arr : list Z) (n : Z)
    (active : not_stisla_anchor_table) :
  init_endpoints h arr n local_table = Some (Some active) → capacity active = 2.
Proof.
  unfold init_endpoints. change (size local_table =? 0) with true.
  change (capacity local_table =? 0) with true. cbv iota.
  destruct (malloc_ok h); [|discriminate].
  destruct (load arr 0); obind; [|discriminate].
  destruct (store (fresh h 2) 0 _) as [blk1|] eqn:Hs1; obind; [|discriminate].
  destruct (load arr (n - 1)); obind; [|discriminate].
  destruct (store blk1 1 _) as [blk2|] eqn:Hs2; obind; [|discriminate].
  intros [= <-]. apply store_Some in Hs1 as [_ ->]. apply store_Some in Hs2 as [_ ->].
  unfold capacity. cbn [anchors]. by rewrite !length_insert.
Qed.

Lemma search_with_table_not_found (h : heap) (arr : list Z) (n key : Z)
    (t active : not_stisla_anchor_table) (tol pred : Z) :
  32 <= n →
  init_endpoints h arr n t = Some (Some active) →
  predict_and_search arr key tol active = Some (pred, NOT_STISLA_NOT_FOUND) →
  not_stisla_search h arr n key (Some t) tol = Some (NOT_STISLA_NOT_FOUND, Some active).
Proof.
  intros Hn Hinit Hps. unfold not_stisla_search.
  destruct (Z.eqb_spec n 0); [lia|]. destruct (Z.ltb_spec n 32); [lia|].
  change (default local_table (Some t)) with t. rewrite Hinit. obind.
  rewrite Hps. obind. done.
Qed.

(** A search without a table behaves like a search with a table that has
    just been created: when the call with the [NULL] table is defined and
    its [malloc] succeeds, the call with a freshly created table returns the
    same index, on the same sorted array, key and tolerance. *)
Theorem null_table_agrees_with_fresh_table (h h0 h' : heap) (arr : list Z)
    (n key tol j : Z) (ot : option not_stisla_anchor_table)
    (t0 : not_stisla_anchor_table) :
  sorted arr → n = len arr → malloc_ok h = true →
  not_stisla_search h arr n key None tol = Some (j, ot) →
  not_stisla_anchor_table_create h0 = Some t0 →
  ot = None
  ∧ ∃ t', not_stisla_search h' arr n key (Some t0) tol = Some (j, Some t').
Proof.
  intros Hsorted -> Hmalloc Hs Hc.
  pose proof (create_well_formed _ _ Hc) as Hwf0.
  assert (Hcap0 : capacity t0 = 8 ∧ size t0 = 0).
  { unfold not_stisla_anchor_table_create in Hc.
    destruct (malloc_ok h0); [|discriminate]. injection Hc as <-. done. }
  destruct Hcap0 as [Hcap0 Hsz0].
  revert Hs. unfold not_stisla_search at 1.
  destruct (Z.eqb_spec (len arr) 0) as [E0|N0].
  { intros [= <- <-]. split; [done|]. exists t0. unfold not_stisla_search.
    destruct (Z.eqb_spec (len arr) 0); [done|lia]. }
  destruct (Z.ltb_spec (len arr) 32) as [Hsmall|Hlarge].
  { destruct (not_stisla_chunked_search arr (len arr) key) as [r|] eqn:Ec; obind;
      [|discriminate].
    intros [= <- <-]. split; [done|]. exists t0. unfold not_stisla_search.
    destruct (Z.eqb_spec (len arr) 0); [lia|]. destruct (Z.ltb_spec (len arr) 32); [|lia].
    by rewrite Ec. }
  change (default local_table None) with local_table.
  destruct (init_endpoints h arr (len arr) local_table) as [[active|]|] eqn:Hinit;
    obind; [| |discriminate].
  2:{ exfalso. revert Hinit. unfold init_endpoints. change (size local_table =? 0) with true.
      change (capacity local_table =? 0) with true. cbv iota. rewrite Hmalloc.
      destruct (load arr 0); obind; [|discriminate].
      destruct (store (fresh h 2) 0 _); obind; [|discriminate].
      destruct (load arr (len arr - 1)); obind; [|discriminate].
      destruct (store _ 1 _); obind; discriminate. }
  destruct (predict_and_search arr key tol active) as [[pred r]|] eqn:Hps;
    obind; [|discriminate].
  intros [= <- <-]. split; [done|].
  pose proof (local_table_seeded_capacity _ _ _ _ Hinit) as Hcap.
  apply init_endpoints_seeds in Hinit as (first & last & Hf & Hl & Hsz & H0 & H1); [|done].
  destruct (init_endpoints_defined h' arr t0 ltac:(lia) ltac:(lia)) as [active0 Hinit0].
  pose proof (init_endpoints_well_formed _ _ _ _ _ Hwf0 Hsorted Hinit0) as Hwf.
  pose proof (init_endpoints_seeds _ _ _ _ Hsz0 Hinit0)
    as (first' & last' & Hf' & Hl' & Hsz' & H0' & H1').
  rewrite Hf in Hf'. injection Hf' as <-. rewrite Hl in Hl'. injection Hl' as <-.
  destruct ((first <=? key) && (last <=? key)) eqn:Hb.
  { exfalso. revert Hps.
    rewrite predict_and_search_window, (seeded_anchor_lower arr active first last key Hsz H0 H1), Hb.
    obind. rewrite H1. obind.
    assert (Hnone : load (anchors active) (1 + 1) = None).
    { unfold load. change (1 + 1 <? 0) with false. cbv iota.
      apply lookup_ge_None. unfold capacity in Hcap. lia. }
    rewrite Hnone. discriminate. }
  assert (Hps0 : predict_and_search arr key tol active0 = Some (pred, r)).
  { rewrite (seeded_predict_below arr active0 first last key tol Hsz' H0' H1' Hb).
    rewrite <- (seeded_predict_below arr active first last key tol Hsz H0 H1 Hb). done. }
  destruct (Z.eq_dec r NOT_STISLA_NOT_FOUND) as [->|Hr].
  - exists active0. eapply search_with_table_not_found; eauto.
  - pose proof (predict_and_search_sound _ _ _ _ _ _ Hps0 Hr) as Hkey.
    destruct (learn_anchor_spec h' active0 key r pred tol Hwf) as (learned & Hlearn & _).
    exists (bump_searches learned). eapply search_with_table_found; eauto.
Qed.

Lemma null_table_agrees_with_fresh_table_witness :
  (None : option not_stisla_anchor_table) = None
  ∧ ∃ t', not_stisla_search stale ramp 32 9 (Some zeroed_table) 8 = Some (9, Some t').
Proof.
  apply (null_table_agrees_with_fresh_table calm calm stale ramp 32 9 8 9 None zeroed_table).
  - apply sortedb_sorted. reflexivity.
  - reflexivity.
  - reflexivity.
  - vm_compute. reflexivity.
  - reflexivity.
Defined.

(** ** Seeding and safety of the interpolated path *)

Lemma seeded_anchor_seq (arr : list Z) (t : not_stisla_anchor_table) (first last : Z) :
  size t = 2 →
  load (anchors t) 0 = Some {| v := first; i := 0 |} →
  load (anchors t) 1 = Some {| v := last; i := len arr - 1 |} →
  anchor_seq t = [ {| v := first; i := 0 |}; {| v := last; i := len arr - 1 |} ].
Proof.
  intros Hsz H0 H1. unfold anchor_seq. rewrite Hsz.
  apply load_Some in H0 as [_ H0]. apply load_Some in H1 as [_ H1].
  change (Z.to_nat 0) with 0%nat in H0. change (Z.to_nat 1) with 1%nat in H1.
  change (Z.to_nat 2) with 2%nat.
  destruct (anchors t) as [|a0 [|a1 rest]]; simpl in H0, H1; try discriminate.
  injection H0 as ->. injection H1 as ->. done.
Qed.

(** Memory safety of the interpolated path below the last element: on an
    array of 32 elements or more (sorted or not), with a table that is empty
    or seeded on this array and has room for the two endpoints, a search
    for a key below the last element reads no cell outside the array or the
    anchor block, ends, and learns nothing; it returns [NOT_FOUND] or a cell
    holding the key. *)
Theorem search_below_last_is_safe (h : heap) (arr : list Z) (key tol last : Z)
    (t : not_stisla_anchor_table) :
  32 <= len arr → len arr < 2 ^ 63 → 0 <= tol < 2 ^ 64 →
  unlearned arr t → 2 <= capacity t →
  load arr (len arr - 1) = Some last → key < last →
  ∃ j t', not_stisla_search h arr (len arr) key (Some t) tol = Some (j, Some t')
          ∧ seeded_on arr t'
          ∧ (j = NOT_STISLA_NOT_FOUND ∨ (0 <= j < len arr ∧ load arr j = Some key)).
Proof.
  intros Hn Hlen Htol Hun Hcap Hl Hkey.
  destruct (init_endpoints_defined h arr t ltac:(lia) Hcap) as [active Hinit].
  assert (Hseed : seeded_on arr active).
  { destruct Hun as [Hsz|Hseed].
    - eapply init_endpoints_seeds; eauto.
    - destruct (Hseed) as (_ & _ & _ & _ & Hsz & _).
      pose proof (init_endpoints_frame _ _ _ _ _ Hinit) as (_ & _ & _ & Heq).
      rewrite Heq by lia. done. }
  destruct (Hseed) as (first & last' & Hf & Hl' & Hsz & H0 & H1).
  rewrite Hl in Hl'. injection Hl' as <-.
  assert (Hb : (first <=? key) && (last <=? key) = false).
  { destruct (Z.leb_spec last key); [lia|]. apply andb_false_r. }
  pose proof (interpolate_upper first last 0 (len arr - 1) key ltac:(lia) ltac:(lia)) as Hup.
  destruct (seeded_window first last (len arr)
              (not_stisla_interpolate first last 0 (len arr - 1) key) tol
              ltac:(lia) ltac:(lia) Hup Htol)
    as (lo & hi & Hwin & Hlo & Hle & Hhi & Hclose & _).
  destruct (local_search_defined arr lo hi key ltac:(lia) Hlo ltac:(lia)) as [m Hm].
  assert (Hps : predict_and_search arr key tol active
                = Some (not_stisla_interpolate first last 0 (len arr - 1) key, m)).
  { rewrite (seeded_predict_below arr active first last key tol Hsz H0 H1 Hb). cbv zeta.
    rewrite (u64_small (not_stisla_interpolate _ _ _ _ _)) by lia.
    rewrite Hwin. cbn [fst snd]. rewrite Hm. done. }
  destruct (Z.eq_dec m NOT_STISLA_NOT_FOUND) as [->|Hne].
  - exists NOT_STISLA_NOT_FOUND, active. split; [|split; [done|by left]].
    eapply search_with_table_not_found; eauto.
  - apply local_search_found_inv in Hm as (_ & _ & Hmr & Hmk); [|lia|lia|done].
    exists m, (bump_searches active). split; [|split].
    + eapply search_with_table_found; eauto.
      apply learn_anchor_skip. left. by apply Hclose.
    + exists first, last. done.
    + right. split; [lia|done].
Qed.

Lemma search_below_last_is_safe_witness :
  ∃ j t', not_stisla_search stale plateau (len plateau) 17 (Some zeroed_table) 3
          = Some (j, Some t')
          ∧ seeded_on plateau t'
          ∧ (j = NOT_STISLA_NOT_FOUND ∨ (0 <= j < len plateau ∧ load plateau j = Some 17)).
Proof.
  apply (search_below_last_is_safe stale plateau 17 3 100 zeroed_table).
  - vm_compute. congruence.
  - reflexivity.
  - lia.
  - by left.
  - vm_compute. congruence.
  - reflexivity.
  - lia.
Defined.

(** ** Histories on one array *)

(** below the last element a search on an unlearned table is defined and
    keeps the block *)
Lemma search_below_last_defined (h : heap) (arr : list Z) (key tol last : Z)
    (t : not_stisla_anchor_table) :
  len arr < 2 ^ 63 → 0 <= tol < 2 ^ 64 →
  unlearned arr t → 2 <= capacity t →
  load arr (len arr - 1) = Some last → key < last →
  ∃ j t', not_stisla_search h arr (len arr) key (Some t) tol = Some (j, Some t')
          ∧ unlearned arr t' ∧ capacity t' = capacity t.
Proof.
  intros Hlen Htol Hun Hcap Hl Hkey.
  pose proof (load_in_range _ _ _ Hl) as Hrange. fold (len arr) in Hrange.
  destruct (Z.lt_ge_cases (len arr) 32) as [Hsmall|Hn].
  { exists (linear_scan arr (len arr) key), t. split; [|done].
    unfold not_stisla_search.
    destruct (Z.eqb_spec (len arr) 0); [lia|]. destruct (Z.ltb_spec (len arr) 32); [|lia].
    by rewrite (chunked_search_linear arr (len arr) key eq_refl). }
  destruct (init_endpoints_defined h arr t ltac:(lia) Hcap) as [active Hinit].
  assert (Hseed : seeded_on arr active).
  { destruct Hun as [Hsz|Hseed].
    - eapply init_endpoints_seeds; eauto.
    - destruct (Hseed) as (_ & _ & _ & _ & Hsz & _).
      pose proof (init_endpoints_frame _ _ _ _ _ Hinit) as (_ & _ & _ & Heq).
      rewrite Heq by lia. done. }
  pose proof (init_endpoints_capacity h arr (len arr) t active ltac:(lia) Hinit) as [Hacap _].
  destruct (Hseed) as (first & last' & Hf & Hl' & Hsz & H0 & H1).
  rewrite Hl in Hl'. injection Hl' as <-.
  assert (Hb : (first <=? key) && (last <=? key) = false).
  { destruct (Z.leb_spec last key); [lia|]. apply andb_false_r. }
  pose proof (interpolate_upper first last 0 (len arr - 1) key ltac:(lia) ltac:(lia)) as Hup.
  destruct (seeded_window first last (len arr)
              (not_stisla_interpolate first last 0 (len arr - 1) key) tol
              ltac:(lia) ltac:(lia) Hup Htol)
    as (lo & hi & Hwin & Hlo & Hle & Hhi & Hclose & _).
  destruct (local_search_defined arr lo hi key ltac:(lia) Hlo ltac:(lia)) as [m Hm].
  assert (Hps : predict_and_search arr key tol active
                = Some (not_stisla_interpolate first last 0 (len arr - 1) key, m)).
  { rewrite (seeded_predict_below arr active first last key tol Hsz H0 H1 Hb). cbv zeta.
    rewrite (u64_small (not_stisla_interpolate _ _ _ _ _)) by lia.
    rewrite Hwin. cbn [fst snd]. rewrite Hm. done. }
  destruct (Z.eq_dec m NOT_STISLA_NOT_FOUND) as [->|Hne].
  - exists NOT_STISLA_NOT_FOUND, active. split; [|split; [by right|done]].
    eapply search_with_table_not_found; eauto.
  - apply local_search_found_inv in Hm as (_ & _ & Hmr & Hmk); [|lia|lia|done].
    exists m, (bump_searches active). split; [|split; [|done]].
    + eapply search_with_table_found; eauto.
      apply learn_anchor_skip. left. by apply Hclose.
    + right. exists first, last. done.
Qed.

Lemma batch_loop_below_last_defined (hs : nat → heap) (arr : list Z) (keys : list Z)
    (tol last : Z) (iters : nat) :
  len arr < 2 ^ 63 → 0 <= tol < 2 ^ 64 →
  load arr (len arr - 1) = Some last →
  forallb (λ key, key <? last) keys = true →
  ∀ (idx : nat) (t : not_stisla_anchor_table),
    (idx + iters ≤ length keys)%nat → unlearned arr t → 2 <= capacity t →
    ∃ rs found t',
      batch_loop hs arr (len arr) keys idx iters (Some t) tol = Some (rs, found, Some t')
      ∧ unlearned arr t' ∧ capacity t' = capacity t.
Proof.
  intros Hlen Htol Hl Hkeys.
  induction iters as [|k IH]; intros idx t Hidx Hun Hcap; cbn [batch_loop].
  - exists [], 0, t. done.
  - destruct (lookup_lt_is_Some_2 keys idx ltac:(lia)) as [key Hkey]. rewrite Hkey. obind.
    assert (Hbelow : key < last).
    { apply Z.ltb_lt. rewrite forallb_forall in Hkeys. apply Hkeys.
      apply list_elem_of_In. eapply list_elem_of_lookup_2, Hkey. }
    destruct (search_below_last_defined (hs idx) arr key tol last t Hlen Htol Hun Hcap Hl Hbelow)
      as (j & t1 & -> & Hun1 & Hcap1). obind.
    destruct (IH (S idx) t1 ltac:(lia) Hun1 ltac:(lia)) as (rs & found & t2 & -> & Hun2 & Hcap2).
    obind. eexists _, _, t2. split; [done|]. split; [done|lia].
Qed.

Lemma step_below_last_defined (arr : list Z) (last : Z) (o : op)
    (t : not_stisla_anchor_table) :
  len arr < 2 ^ 63 → load arr (len arr - 1) = Some last →
  op_on arr o = true → op_below last o = true →
  unlearned arr t → 2 <= capacity t →
  ∃ t', step o t = Some t' ∧ unlearned arr t' ∧ 2 <= capacity t'.
Proof.
  intros Hlen Hl Hon Hbelow Hun Hcap.
  destruct o as [|w|h a key tol|hs a keys tol]; cbn [step op_on op_below] in *.
  - eexists; split; [done|]. split; [by left|done].
  - eexists; split; [done|]. split; [by left|done].
  - apply andb_true_iff in Hon as [[Ha%bool_decide_eq_true H0%Z.leb_le]%andb_true_iff
                                     H1%Z.ltb_lt]. subst a.
    apply Z.ltb_lt in Hbelow.
    destruct (search_below_last_defined h arr key tol last t Hlen (conj H0 H1) Hun Hcap
                Hl Hbelow) as (j & t' & -> & Hun' & Hcap').
    obind. exists t'. split; [done|]. split; [done|lia].
  - apply andb_true_iff in Hon as [[Ha%bool_decide_eq_true H0%Z.leb_le]%andb_true_iff
                                     H1%Z.ltb_lt]. subst a.
    unfold not_stisla_batch_search.
    destruct (len keys =? 0); obind; [exists t; done|].
    destruct (batch_loop_below_last_defined hs arr keys tol last (Z.to_nat (len keys))
                Hlen (conj H0 H1) Hl Hbelow 0%nat t ltac:(unfold len; lia) Hun Hcap)
      as (rs & found & t' & -> & Hun' & Hcap').
    obind. exists t'. split; [done|]. split; [done|lia].
Qed.

Lemma run_below_last_defined (arr : list Z) (last : Z) (ops : list op) :
  len arr < 2 ^ 63 → load arr (len arr - 1) = Some last →
  ∀ t, forallb (op_on arr) ops = true → forallb (op_below last) ops = true →
       unlearned arr t → 2 <= capacity t →
       ∃ t', run ops t = Some t'.
Proof.
  intros Hlen Hl. induction ops as [|o rest IH]; intros t; cbn [run forallb].
  - eauto.
  - intros [Ho Hrest]%andb_true_iff [Hb Hbrest]%andb_true_iff Hun Hcap.
    destruct (step_below_last_defined arr last o t Hlen Hl Ho Hb Hun Hcap)
      as (t1 & -> & Hun1 & Hcap1).
    obind. by apply IH.
Qed.

(** A table that is created and then used on one array only, passed whole
    ([n] is the number of its cells), through any sequence of searches,
    batch searches, resets and configurations.  In every execution that
    reads no cell outside the array and the anchor block the table never
    learns an anchor, whatever the keys and tolerances: it holds no anchor,
    or exactly the two endpoint anchors [(arr[0], 0)] and
    [(arr[n-1], n-1)].  When every key searched is below the last element
    of the array, every history is such an execution.  The array need not
    be sorted. *)
Theorem single_array_never_learns (h : heap) (arr : list Z) (ops : list op)
    (t0 : not_stisla_anchor_table) :
  len arr < 2 ^ 63 →
  not_stisla_anchor_table_create h = Some t0 →
  forallb (op_on arr) ops = true →
  (∀ t, run ops t0 = Some t →
        (size t = 0 ∨ seeded_on arr t)
        ∧ not_stisla_anchor_table_size (Some t) <= 2)
  ∧ (∀ last, load arr (len arr - 1) = Some last →
             forallb (op_below last) ops = true →
             ∃ t, run ops t0 = Some t).
Proof.
  intros Hlen Hc Hon.
  assert (Hun0 : unlearned arr t0 ∧ capacity t0 = 8).
  { unfold not_stisla_anchor_table_create in Hc.
    destruct (malloc_ok h); [|discriminate]. injection Hc as <-. split; [by left|done]. }
  destruct Hun0 as [Hun0 Hcap0]. split.
  - intros t Hrun.
    pose proof (run_keeps_unlearned arr ops Hlen t0 t Hon Hun0 Hrun) as Hun.
    split; [exact Hun|]. cbn.
    destruct Hun as [->|(_ & _ & _ & _ & -> & _)]; lia.
  - intros last Hl Hbelow.
    apply (run_below_last_defined arr last ops Hlen Hl t0 Hon Hbelow Hun0). lia.
Qed.

Lemma single_array_never_learns_witness :
  (∀ t, run plateau_history (default zeroed_table (not_stisla_anchor_table_create stale))
        = Some t →
        (size t = 0 ∨ seeded_on plateau t)
        ∧ not_stisla_anchor_table_size (Some t) <= 2)
  ∧ (∀ last, load plateau (len plateau - 1) = Some last →
             forallb (op_below last) plateau_history = true →
             ∃ t, run plateau_history
                    (default zeroed_table (not_stisla_anchor_table_create stale)) = Some t).
Proof.
  apply (single_array_never_learns stale plateau plateau_history
           (default zeroed_table (not_stisla_anchor_table_create stale))).
  - reflexivity.
  - reflexivity.
  - vm_compute. reflexivity.
Defined.

(** ** Keys at or above the last element *)

(** with the [NULL] table the right anchor of such a key is read after the
    two cells of the block *)
Lemma null_table_top_key (h : heap) (arr : list Z) (key tol last : Z) :
  sorted arr → 32 <= len arr →
  load arr (len arr - 1) = Some last → last <= key →
  not_stisla_search h arr (len arr) key None tol
  = if malloc_ok h then None else Some (NOT_STISLA_NOT_FOUND, None).
Proof.
  intros Hsorted Hn Hl Hkey. unfold not_stisla_search.
  destruct (Z.eqb_spec (len arr) 0); [lia|]. destruct (Z.ltb_spec (len arr) 32); [lia|].
  change (default local_table None) with local_table.
  destruct (malloc_ok h) eqn:Hm.
  - destruct (init_endpoints h arr (len arr) local_table) as [[active|]|] eqn:Hinit;
      obind; [| |done].
    + pose proof (local_table_seeded_capacity _ _ _ _ Hinit) as Hcap.
      apply init_endpoints_seeds in Hinit as (first & last' & Hf & Hl' & Hsz & H0 & H1); [|done].
      rewrite Hl in Hl'. injection Hl' as <-.
      pose proof (sorted_load arr 0 (len arr - 1) first last Hsorted ltac:(lia) Hf Hl).
      rewrite predict_and_search_window,
        (seeded_anchor_lower arr active first last key Hsz H0 H1).
      destruct (Z.leb_spec first key); [|lia]. destruct (Z.leb_spec last key); [|lia].
      cbn [andb]. obind. rewrite H1. obind.
      assert (Hnone : load (anchors active) (1 + 1) = None).
      { unfold load. change (1 + 1 <? 0) with false. cbv iota.
        apply lookup_ge_None. unfold capacity in Hcap. lia. }
      rewrite Hnone. done.
    + exfalso. revert Hinit. unfold init_endpoints. change (size local_table =? 0) with true.
      change (capacity local_table =? 0) with true. cbv iota. rewrite Hm.
      destruct (load arr 0); obind; [|discriminate].
      destruct (store (fresh h 2) 0 _); obind; [|discriminate].
      destruct (load arr (len arr - 1)); obind; [|discriminate].
      destruct (store _ 1 _); obind; discriminate.
  - unfold init_endpoints. change (size local_table =? 0) with true.
    change (capacity local_table =? 0) with true. cbv iota. rewrite Hm. done.
Qed.

(** On a sorted array of 32 elements or more, passed whole, with the [NULL]
    table or a table that is empty or seeded on this array, a key at or
    above the last element (the last element itself is one) is never found
    by an execution that reads inside the array and the anchor block only:
    the call returns [NOT_FOUND], or it reads a cell after the array or
    after the anchor block.  With the [NULL] table it does read the cell
    after its two-cell block whenever its [malloc] succeeds. *)
Theorem search_never_finds_top_key (h : heap) (arr : list Z) (key tol last : Z)
    (table : option not_stisla_anchor_table) :
  sorted arr → 32 <= len arr → len arr < 2 ^ 64 →
  (∀ t, table = Some t → unlearned arr t) →
  load arr (len arr - 1) = Some last → last <= key →
  (not_stisla_search h arr (len arr) key table tol = None
   ∨ fst <$> not_stisla_search h arr (len arr) key table tol = Some NOT_STISLA_NOT_FOUND)
  ∧ (table = None → malloc_ok h = true →
     not_stisla_search h arr (len arr) key table tol = None).
Proof.
  intros Hsorted Hn Hlen Htable Hlast Hkey. split.
  - destruct (not_stisla_search h arr (len arr) key table tol) as [[j ot]|] eqn:Hs;
      [right|by left].
    cbn. f_equal. eapply top_key_not_found; eauto.
  - intros -> Hm. rewrite (null_table_top_key h arr key tol last) by done. by rewrite Hm.
Qed.

Lemma search_never_finds_top_key_witness :
  (not_stisla_search stale ramp (len ramp) 31 (Some zeroed_table) 8 = None
   ∨ fst <$> not_stisla_search stale ramp (len ramp) 31 (Some zeroed_table) 8
     = Some NOT_STISLA_NOT_FOUND)
  ∧ (Some zeroed_table = None → malloc_ok stale = true →
     not_stisla_search stale ramp (len ramp) 31 (Some zeroed_table) 8 = None).
Proof.
  apply (search_never_finds_top_key stale ramp 31 8 31 (Some zeroed_table)).
  - apply sortedb_sorted. reflexivity.
  - vm_compute. congruence.
  - reflexivity.
  - intros t [= <-]. by left.
  - reflexivity.
  - lia.
Defined.

(** ** Seeding *)

Lemma empty_table_seeded (h : heap) (arr : list Z) (key tol j : Z)
    (t t' : not_stisla_anchor_table) :
  32 <= len arr → len arr < 2 ^ 63 → 0 <= tol < 2 ^ 64 →
  size t = 0 → capacity t ≠ 0 →
  not_stisla_search h arr (len arr) key (Some t) tol = Some (j, Some t') →
  ∃ first last,
    load arr 0 = Some first ∧ load arr (len arr - 1) = Some last
    ∧ anchor_seq t' = [ {| v := first; i := 0 |}; {| v := last; i := len arr - 1 |} ]
    ∧ capacity t' = capacity t
    ∧ workload_type t' = workload_type t
    ∧ drop 2 (anchors t') = drop 2 (anchors t).
Proof.
  intros Hn Hlen Htol Hsz Hcap Hs. apply search_with_table_inv in Hs.
  destruct Hs as [(? & _)|[(_ & ? & _)|[(_ & Hfail & _)|
                  (_ & active & pred & Hinit & Hps & H)]]]; try lia.
  { exfalso. revert Hfail. unfold init_endpoints. rewrite Hsz. cbn [Z.eqb].
    destruct (Z.eqb_spec (capacity t) 0); [done|].
    destruct (load arr 0); obind; [|discriminate].
    destruct (store (anchors t) 0 _); obind; [|discriminate].
    destruct (load arr (len arr - 1)); obind; [|discriminate].
    destruct (store _ 1 _); obind; discriminate. }
  pose proof (init_endpoints_seeds _ _ _ _ Hsz Hinit) as Hseed.
  pose proof (init_endpoints_frame _ _ _ _ _ Hinit) as (_ & Hw & _).
  pose proof (init_endpoints_capacity _ _ _ _ _ Hcap Hinit) as [Hacap _].
  assert (Hdrop : drop 2 (anchors active) = drop 2 (anchors t)).
  { revert Hinit. unfold init_endpoints. rewrite Hsz. cbn [Z.eqb].
    destruct (Z.eqb_spec (capacity t) 0); [done|].
    destruct (load arr 0); obind; [|discriminate].
    destruct (store (anchors t) 0 _) as [blk1|] eqn:Hs1; obind; [|discriminate].
    destruct (load arr (len arr - 1)); obind; [|discriminate].
    destruct (store blk1 1 _) as [blk2|] eqn:Hs2; obind; [|discriminate].
    intros [= <-]. apply store_Some in Hs1 as [_ ->]. apply store_Some in Hs2 as [_ ->].
    cbn [anchors]. change (Z.to_nat 0) with 0%nat. change (Z.to_nat 1) with 1%nat.
    by destruct (anchors t) as [|a0 [|a1 rest]]. }
  assert (Ht' : anchors t' = anchors active ∧ size t' = size active
                ∧ workload_type t' = workload_type active).
  { destruct H as [[_ [= ->]]|(Hj & found & learned & _ & Hl & [= ->])]; [done|].
    pose proof (seeded_found_within_tolerance arr active key tol pred j
                  ltac:(lia) ltac:(lia) Htol Hseed Hps Hj) as Hnear.
    rewrite learn_anchor_skip in Hl by auto. injection Hl as <-. done. }
  destruct Ht' as (Ha & Hs' & Hw').
  destruct Hseed as (first & last & Hf & Hl & Hsz2 & H0 & H1).
  exists first, last. split; [done|]. split; [done|]. split.
  - rewrite <- (seeded_anchor_seq arr active first last Hsz2 H0 H1).
    unfold anchor_seq. by rewrite Ha, Hs'.
  - unfold capacity in *. rewrite Ha. split; [done|]. split; [congruence|]. done.
Qed.

(** Seeding.  A search of an array of 32 elements or more, passed whole, on
    an empty table whose block has room for two anchors (a table just
    created, or reset).  For a key below the last element the call is
    defined.  Every call that reads inside the array and the anchor block
    only, whatever the key and whether or not it is found, leaves the table
    with exactly the two endpoint anchors [(arr[0], 0)] and
    [(arr[n-1], n-1)]; the capacity, the workload type and the cells after
    the second are those of before. *)
Theorem search_seeds_empty_table (h : heap) (arr : list Z) (key tol last : Z)
    (t : not_stisla_anchor_table) :
  32 <= len arr → len arr < 2 ^ 63 → 0 <= tol < 2 ^ 64 →
  size t = 0 → 2 <= capacity t →
  load arr (len arr - 1) = Some last →
  (key < last →
   ∃ j t', not_stisla_search h arr (len arr) key (Some t) tol = Some (j, Some t'))
  ∧ (∀ j t', not_stisla_search h arr (len arr) key (Some t) tol = Some (j, Some t') →
       ∃ first,
         load arr 0 = Some first
         ∧ anchor_seq t' = [ {| v := first; i := 0 |}; {| v := last; i := len arr - 1 |} ]
         ∧ capacity t' = capacity t
         ∧ workload_type t' = workload_type t
         ∧ drop 2 (anchors t') = drop 2 (anchors t)).
Proof.
  intros Hn Hlen Htol Hsz Hcap Hl. split.
  - intros Hkey.
    destruct (search_below_last_defined h arr key tol last t Hlen Htol ltac:(by left)
                Hcap Hl Hkey) as (j & t' & Hs & _).
    eauto.
  - intros j t' Hs.
    destruct (empty_table_seeded h arr key tol j t t' Hn Hlen Htol Hsz ltac:(lia) Hs)
      as (first & last' & Hf & Hl' & Hseq & Hrest).
    rewrite Hl in Hl'. injection Hl' as <-. eauto.
Qed.

Lemma search_seeds_empty_table_witness :
  (15 < 1000 →
   ∃ j t', not_stisla_search calm skewed (len skewed) 15 (Some zeroed_table) 8
           = Some (j, Some t'))
  ∧ (∀ j t', not_stisla_search calm skewed (len skewed) 15 (Some zeroed_table) 8
             = Some (j, Some t') →
       ∃ first,
         load skewed 0 = Some first
         ∧ anchor_seq t' = [ {| v := first; i := 0 |}; {| v := 1000; i := len skewed - 1 |} ]
         ∧ capacity t' = capacity zeroed_table
         ∧ workload_type t' = workload_type zeroed_table
         ∧ drop 2 (anchors t') = drop 2 (anchors zeroed_table)).
Proof.
  apply (search_seeds_empty_table calm skewed 15 8 1000 zeroed_table).
  - vm_compute. congruence.
  - reflexivity.
  - lia.
  - reflexivity.
  - vm_compute. congruence.
  - reflexivity.
Defined.
